(** * pyWeight_problem: the design-variable registry of a weight problem

    A shallow embedding of [python/pyWeight_problem.py]: the classes
    [fuelCaseDV], [FuelCase] and [WeightProblem], with the dictionaries of
    the source as finite maps, the objects that the problem shares with its
    caller in an explicit heap, and exceptions as an outcome that keeps the
    state reached when the exception was raised.  A loop over a dictionary
    runs over [map_to_list] of the map; the interpreter's order is another
    one, and the proofs below use which entries such a list holds, never
    their order. *)

From Stdlib Require Import ZArith QArith Ascii String.
From stdpp Require Import gmap strings list fin_maps.

Local Open Scope string_scope.

(** ** Scalars

    Fractions, design-variable values, bounds and offsets are Python numbers
    (floats, or complex numbers under the complex-step method).  The source
    only adds and subtracts them and writes integer literals, so they are kept
    abstract: any type with these operations. *)

Class Scalar (R : Type) := {
  s_add : R → R → R;
  s_sub : R → R → R;
  s_int : Z → R
}.

(** Rational numbers in lowest terms, to run the model on. *)
#[global] Instance Q_Scalar : Scalar Q :=
  {| s_add := fun a b => Qred (a + b);
     s_sub := fun a b => Qred (a - b);
     s_int := inject_Z |}.

(** ** Exceptions and outcomes *)

(** [Error] is the module's exception class; it is built from a message,
    which its constructor prints in a box (the printing is not modelled).
    [AttributeError] and [KeyError] are the interpreter's own. *)
Inductive exn :=
  | Error (message : string)
  | AttributeError
  | KeyError (k : string).

(** The result of running a method on a state [S]: it returns normally in
    the state [s], or an exception leaves it in the state [s] reached so
    far. *)
Inductive outcome (S : Type) :=
  | Done (s : S)
  | Raised (e : exn) (s : S).
Arguments Done {S} s.
Arguments Raised {S} e s.

Definition bind {S : Type} (o : outcome S) (k : S → outcome S) : outcome S :=
  match o with
  | Done s => k s
  | Raised e s => Raised e s
  end.

Notation "o >>> k" := (bind o k) (at level 61, left associativity).

(** [for x in xs: body] *)
Fixpoint for_each {A S : Type} (xs : list A) (body : A → S → outcome S)
    (s : S) : outcome S :=
  match xs with
  | [] => Done s
  | x :: rest => body x s >>> for_each rest body
  end.

(** ** Strings *)

(** [str.lower] on the byte strings of Python 2: the letters A-Z move to
    a-z, every other character stays. *)
Definition lower_ascii (c : ascii) : ascii :=
  let n := nat_of_ascii c in
  if (65 <=? n)%nat && (n <=? 90)%nat then ascii_of_nat (n + 32) else c.

Fixpoint lower (s : string) : string :=
  match s with
  | EmptyString => EmptyString
  | String c rest => String (lower_ascii c) (lower rest)
  end.

(** [repr] of a string without quotes, backslashes or control characters,
    and of a list of such strings. *)
Definition repr_str (s : string) : string := "'" +:+ s +:+ "'".

Fixpoint join (sep : string) (l : list string) : string :=
  match l with
  | [] => ""
  | [s] => s
  | s :: rest => s +:+ sep +:+ join sep rest
  end.

Definition repr_list (l : list string) : string :=
  "[" +:+ join ", " (map repr_str l) +:+ "]".

(** [needle in haystack] for strings. *)
Definition substring_of (needle haystack : string) : Prop :=
  ∃ before after, haystack = before +:+ needle +:+ after.

(** ** fuelCaseDV and FuelCase *)

Section Cases.
Context {R : Type} `{Scalar R}.

(** class fuelCaseDV: a container, one field per constructor argument. *)
Record fuelCaseDV := mk_fuelCaseDV {
  dv_key : string;
  dv_value : R;
  dv_lower : option R;
  dv_upper : option R;
  dv_scale : R;
  dv_offset : R;
  dv_addToPyOpt : bool
}.

Definition set_value (dv : fuelCaseDV) (v : R) : fuelCaseDV :=
  mk_fuelCaseDV (dv_key dv) v (dv_lower dv) (dv_upper dv) (dv_scale dv)
    (dv_offset dv) (dv_addToPyOpt dv).

(** class FuelCase.  [DVs] maps a variable name to its [fuelCaseDV],
    [DVNames] maps a parameter key to the variable name.  The DV objects are
    created by [addDV] and stored in [DVs] only, so they are held by value. *)
Record FuelCase := mk_FuelCase {
  fc_name : string;
  fuelFraction : R;
  reserveFraction : R;
  DVs : gmap string fuelCaseDV;
  DVNames : gmap string string
}.

(** [self.possibleDVs]: assigned once in [__init__], never reassigned. *)
Definition possibleDVs : list string := ["fuelFraction"; "reserveFraction"].

(** FuelCase.__init__ *)
Definition FuelCase_init (name : string) (fuelFraction reserveFraction : R)
    : FuelCase :=
  mk_FuelCase name fuelFraction reserveFraction ∅ ∅.

(** [getattr(self, key)] and [setattr(self, key, v)] on the two numeric
    attributes.  [addDV] admits only the keys of [possibleDVs], so no other
    attribute name reaches them through the methods below; [getattr] of
    another name is an AttributeError ([None]), [setattr] of another name
    would create an attribute that no method of the class reads. *)
Definition getattr (self : FuelCase) (key : string) : option R :=
  if decide (key = "fuelFraction") then Some (fuelFraction self)
  else if decide (key = "reserveFraction") then Some (reserveFraction self)
  else None.

Definition setattr (self : FuelCase) (key : string) (v : R) : FuelCase :=
  if decide (key = "fuelFraction") then
    mk_FuelCase (fc_name self) v (reserveFraction self) (DVs self) (DVNames self)
  else if decide (key = "reserveFraction") then
    mk_FuelCase (fc_name self) (fuelFraction self) v (DVs self) (DVNames self)
  else self.

Definition set_DVs (self : FuelCase) (d : gmap string fuelCaseDV) : FuelCase :=
  mk_FuelCase (fc_name self) (fuelFraction self) (reserveFraction self) d
    (DVNames self).

Definition set_DVNames (self : FuelCase) (d : gmap string string) : FuelCase :=
  mk_FuelCase (fc_name self) (fuelFraction self) (reserveFraction self)
    (DVs self) d.

(** The message of the raise in [addDV]. *)
Definition addDV_message (key : string) : string :=
  "The DV '" +:+ key +:+ "' could not be added.  The list of possible DVs are: "
    +:+ repr_list possibleDVs +:+ ".".

(** The variable name [addDV] stores the DV under. *)
Definition addDV_dvName (self : FuelCase) (key : string) (name axis : option string)
    : string :=
  let dvName :=
    match name with
    | None => (fc_name self +:+ "_") +:+ key
    | Some n => n
    end in
  match axis with
  | Some a => dvName +:+ ("_" +:+ a)
  | None => dvName
  end.

(** FuelCase.addDV (lines 461-478). *)
Definition addDV (self : FuelCase) (key : string) (value lower upper : option R)
    (scale : R) (name : option string) (offset : R) (axis : option string)
    (addToPyOpt : bool) : outcome FuelCase :=
  if bool_decide (key ∉ possibleDVs) then
    Raised (Error (addDV_message key)) self
  else
    let dvName := addDV_dvName self key name axis in
    let value :=
      match value with
      | None => getattr self key
      | Some v => Some v
      end in
    match value with
    | None => Raised AttributeError self
    | Some v =>
        let self :=
          set_DVs self
            (<[dvName := mk_fuelCaseDV key v lower upper scale offset addToPyOpt]>
               (DVs self)) in
        Done (set_DVNames self (<[key := dvName]> (DVNames self)))
    end.

(** The body of the loop of FuelCase.setDesignVars, for one entry
    [key ↦ dvName] of [DVNames]. *)
Definition setDesignVars_body (x : gmap string R) (entry : string * string)
    (self : FuelCase) : outcome FuelCase :=
  let '(key, dvName) := entry in
  match x !! dvName with
  | None => Done self
  | Some xv =>
      match DVs self !! dvName with
      | None => Raised (KeyError dvName) self
      | Some dv =>
          let self := setattr self key (s_add xv (dv_offset dv)) in
          Done (set_DVs self (<[dvName := set_value dv xv]> (DVs self)))
      end
  end.

(** FuelCase.setDesignVars (lines 481-496). *)
Definition FuelCase_setDesignVars (self : FuelCase) (x : gmap string R)
    : outcome FuelCase :=
  for_each (map_to_list (DVNames self)) (setDesignVars_body x) self.

(** ** The optimization problem, as far as the fuel case drives it

    The optimizer object is the caller's; the source only calls its [addCon].
    It is recorded as the list of the [addCon] calls it has received, each
    with the keyword arguments of the call. *)
Record Con := mk_Con {
  con_name : string;
  con_lower : R;
  con_upper : R;
  con_scale : R;
  con_linear : bool;
  con_wrt : list string;
  con_jac : gmap string (list (list R))
}.

Definition addCon (optProb : list Con) (c : Con) : list Con := optProb ++ [c].

(** The flags [(reserveDV, fuelDV)] after the loop over [self.DVNames]. *)
Definition fraction_flags (keys : list string) : bool * bool :=
  foldl (fun '(reserveDV, fuelDV) key =>
           let fuelDV :=
             if decide (lower key = "fuelfraction") then true else fuelDV in
           let reserveDV :=
             if decide (lower key = "reservefraction") then true else reserveDV in
           (reserveDV, fuelDV))
        (false, false) keys.

(** FuelCase.addLinearConstraint (lines 498-519). *)
Definition addLinearConstraint (self : FuelCase) (optProb : list Con)
    (prefix : string) : list Con :=
  let '(reserveDV, fuelDV) := fraction_flags (map_to_list (DVNames self)).*1 in
  let conName := ((prefix +:+ "_") +:+ fc_name self) +:+ "_fuelcase" in
  let var1Name := ((prefix +:+ "_") +:+ fc_name self) +:+ "_fuelFraction" in
  let var2Name := ((prefix +:+ "_") +:+ fc_name self) +:+ "_reserveFraction" in
  if reserveDV && fuelDV then
    addCon optProb
      (mk_Con conName (s_int 0) (s_int 1) (s_int 1) true [var1Name; var2Name]
         (<[var2Name := [[s_int 1]]]> (<[var1Name := [[s_int 1]]]> ∅)))
  else if reserveDV then
    addCon optProb
      (mk_Con conName (s_int 0) (s_sub (s_int 1) (fuelFraction self)) (s_int 1)
         true [var2Name] (<[var2Name := [[s_int 1]]]> ∅))
  else if fuelDV then
    addCon optProb
      (mk_Con conName (s_int 0) (s_sub (s_int 1) (reserveFraction self)) (s_int 1)
         true [var1Name] (<[var1Name := [[s_int 1]]]> ∅))
  else optProb.

End Cases.

Arguments fuelCaseDV R : clear implicits.
Arguments FuelCase R : clear implicits.
Arguments Con R : clear implicits.

(** ** Components

    The component classes live outside this module.  The problem reads a
    component's [name], [compType] and [DVs] and calls its [setUnitSystem]
    and [setDesignVars]; a component type is anything that offers these.
    [comp_DVs c] gives, for every variable name of [c.DVs], the [value] of
    the DV stored there, which is all the problem reads of it.  The two
    methods change the component they are called on and nothing else. *)
Class Component (R C : Type) := {
  comp_name : C → string;
  compType : C → string;
  comp_DVs : C → gmap string R;
  setUnitSystem : string → C → C;
  comp_setDesignVars : gmap string R → C → C
}.

(** ** The heap

    Components and fuel cases are objects that the caller creates and hands
    to the problem, which keeps references to them: the same object can be
    registered twice, and a method called through one reference is seen
    through the other.  An object is a component, a fuel case, a direct
    instance of [object], or a value of some other built-in type that has
    none of the attributes used here (a string, a number, [None], ...). *)
Definition loc := nat.

Inductive pytype :=
  | TyList
  | TyObject
  | TyComponent
  | TyFuelCase
  | TyForeign (tname : string).

#[global] Instance pytype_eq_dec : EqDecision pytype.
Proof. solve_decision. Defined.

(** A method argument: a list of references, or one reference. *)
Inductive pyarg :=
  | AList (items : list loc)
  | ARef (l : loc).

Section Problem.
Context {R : Type} `{Scalar R} {C : Type} `{Component R C}.

Inductive obj :=
  | OComp (c : C)
  | OCase (fc : FuelCase R)
  | OObject
  | OForeign (tname : string).

Definition Heap := loc → obj.

Definition heap_set (h : Heap) (l : loc) (o : obj) : Heap :=
  fun l' => if decide (l' = l) then o else h l'.

(** [type(o)]: the class of an instance is its own class, never [object]
    (only [object()] itself has that type) and never [list]. *)
Definition type_of_obj (o : obj) : pytype :=
  match o with
  | OComp _ => TyComponent
  | OCase _ => TyFuelCase
  | OObject => TyObject
  | OForeign t => TyForeign t
  end.

Definition type_of (h : Heap) (a : pyarg) : pytype :=
  match a with
  | AList _ => TyList
  | ARef l => type_of_obj (h l)
  end.

(** [o.DVs], each entry with the [value] of its DV; [None] when the object
    has no attribute [DVs]. *)
Definition entity_DVs (o : obj) : option (gmap string R) :=
  match o with
  | OComp c => Some (comp_DVs c)
  | OCase fc => Some (dv_value <$> DVs fc)
  | OObject | OForeign _ => None
  end.

(** [o.setDesignVars(x)] *)
Definition entity_setDesignVars (o : obj) (x : gmap string R) : outcome obj :=
  match o with
  | OComp c => Done (OComp (comp_setDesignVars x c))
  | OCase fc =>
      match FuelCase_setDesignVars fc x with
      | Done fc' => Done (OCase fc')
      | Raised e fc' => Raised e (OCase fc')
      end
  | OObject | OForeign _ => Raised AttributeError o
  end.

(** ** WeightProblem *)

(** class WeightProblem.  [components] and [fuelcases] hold references.
    ([funcNames], an empty dictionary that no method touches, is left
    out.) *)
Record WeightProblem := mk_WeightProblem {
  name : string;
  units : string;
  components : gmap string loc;
  fuelcases : list loc;
  currentDVs : gmap string R;
  solveFailed : bool;
  evalFuncs : gset string
}.

(** WeightProblem.__init__ *)
Definition WeightProblem_init (name units : string)
    (kw_evalFuncs : option (list string)) : WeightProblem :=
  mk_WeightProblem name (lower units) ∅ [] ∅ false
    (match kw_evalFuncs with
     | Some fs => list_to_set fs
     | None => ∅
     end).

Definition set_components (self : WeightProblem) (d : gmap string loc)
    : WeightProblem :=
  mk_WeightProblem (name self) (units self) d (fuelcases self)
    (currentDVs self) (solveFailed self) (evalFuncs self).

Definition set_fuelcases (self : WeightProblem) (l : list loc) : WeightProblem :=
  mk_WeightProblem (name self) (units self) (components self) l
    (currentDVs self) (solveFailed self) (evalFuncs self).

Definition set_currentDVs (self : WeightProblem) (d : gmap string R)
    : WeightProblem :=
  mk_WeightProblem (name self) (units self) (components self) (fuelcases self)
    d (solveFailed self) (evalFuncs self).

(** A state: the problem and the heap its references point into. *)
Definition state : Type := WeightProblem * Heap.

(** The loop shared by the two registration methods:
    [for dvName in e.DVs: self.currentDVs[self.name+'_'+dvName] = e.DVs[dvName].value] *)
Definition cache_DVs (pname : string) (dvs : gmap string R)
    (cur : gmap string R) : gmap string R :=
  foldl (fun cur '(dvName, v) => <[(pname +:+ "_") +:+ dvName := v]> cur)
        cur (map_to_list dvs).

(** What the registration loops run over: a list argument as it is, a
    single reference [a] as the list [[a]]. *)
Definition items_of (a : pyarg) : list loc :=
  match a with
  | AList items => items
  | ARef l => [l]
  end.

(** The argument check of the two registration methods (lines 89-95 and
    214-220): the list to loop over, or [None] when [Error] is raised.  The
    first branch is taken by the lists only, the second by the references
    only. *)
Definition check_argument (h : Heap) (a : pyarg) : option (list loc) :=
  if decide (type_of h a = TyList) then Some (items_of a)
  else if decide (type_of h a = TyObject) then Some (items_of a)
  else None.

Definition addComponents_message : string :=
  "addComponents() takes in either a list of or a single component".

Definition addComponents_body (comp : loc) (st : state) : outcome state :=
  let '(self, h) := st in
  match h comp with
  | OComp c =>
      let c := setUnitSystem (units self) c in
      let h := heap_set h comp (OComp c) in
      let self := set_components self (<[comp_name c := comp]> (components self)) in
      let self :=
        set_currentDVs self (cache_DVs (name self) (comp_DVs c) (currentDVs self)) in
      Done (self, h)
  | OCase _ | OObject | OForeign _ => Raised AttributeError st
  end.

(** WeightProblem.addComponents (lines 84-107). *)
Definition addComponents (components : pyarg) (st : state) : outcome state :=
  match check_argument st.2 components with
  | None => Raised (Error addComponents_message) st
  | Some components => for_each components addComponents_body st
  end.

Definition addFuelCases_message : string :=
  "addFuelCases() takes in either a list of or a single fuelcase".

Definition addFuelCases_body (case : loc) (st : state) : outcome state :=
  let '(self, h) := st in
  let self := set_fuelcases self (fuelcases self ++ [case]) in
  match entity_DVs (h case) with
  | None => Raised AttributeError (self, h)
  | Some dvs =>
      Done (set_currentDVs self (cache_DVs (name self) dvs (currentDVs self)), h)
  end.

(** WeightProblem.addFuelCases (lines 209-230). *)
Definition addFuelCases (cases : pyarg) (st : state) : outcome state :=
  match check_argument st.2 cases with
  | None => Raised (Error addFuelCases_message) st
  | Some cases => for_each cases addFuelCases_body st
  end.

(** The body of the inner loops of setDesignVars, for the entity at [l] and
    one key of its [DVs]. *)
Definition setDesignVars_key (x : gmap string R) (l : loc) (key : string)
    (st : state) : outcome state :=
  let '(self, h) := st in
  let dvName := (name self +:+ "_") +:+ key in
  match x !! dvName with
  | None => Done st
  | Some xv =>
      let xTmp : gmap string R := {[key := xv]} in
      match entity_setDesignVars (h l) xTmp with
      | Done o =>
          Done (set_currentDVs self (<[dvName := xv]> (currentDVs self)),
                heap_set h l o)
      | Raised e o => Raised e (self, heap_set h l o)
      end
  end.

(** The body of the outer loops, for the entity at [l]: the keys of its
    [DVs] are those it has when the inner loop starts. *)
Definition setDesignVars_entity (x : gmap string R) (l : loc) (st : state)
    : outcome state :=
  match entity_DVs (st.2 l) with
  | None => Raised AttributeError st
  | Some dvs => for_each (map_to_list dvs).*1 (setDesignVars_key x l) st
  end.

(** WeightProblem.setDesignVars (lines 116-146): the components in the
    order of the dictionary, then the fuel cases in the order of the list. *)
Definition setDesignVars (x : gmap string R) (st : state) : outcome state :=
  for_each (map_to_list (components st.1)).*2 (setDesignVars_entity x) st
  >>> fun st => for_each (fuelcases st.1) (setDesignVars_entity x) st.

(** WeightProblem.getVarNames (lines 178-195); [None] when an object in the
    registries has no [DVs]. *)
Definition getVarNames (st : state) : option (list string) :=
  let '(self, h) := st in
  let names_of (l : loc) : option (list string) :=
    dvs ← entity_DVs (h l);
    Some ((fun key => (name self +:+ "_") +:+ key) <$> (map_to_list dvs).*1) in
  cs ← mapM names_of (map_to_list (components self)).*2;
  fs ← mapM names_of (fuelcases self);
  Some (List.concat cs ++ List.concat fs)%list.

(** WeightProblem.addConstraintsPyOpt (lines 197-207); the state here is the
    optimizer object. *)
Definition addConstraintsPyOpt (st : state) (optProb : list (Con R))
    : outcome (list (Con R)) :=
  let '(self, h) := st in
  for_each (fuelcases self)
    (fun case optProb =>
       match h case with
       | OCase fc => Done (addLinearConstraint fc optProb (name self))
       | OComp _ | OObject | OForeign _ => Raised AttributeError optProb
       end)
    optProb.

(** A filter argument of _getComponentKeys: a string or a collection of
    strings. *)
Inductive names :=
  | Str (s : string)
  | Coll (items : list string).

(** [if type(f) == str: f = [f]] *)
Definition as_list (f : names) : list string :=
  match f with
  | Str s => [s]
  | Coll items => items
  end.

(** [self.components[key].compType] *)
Definition compType_at (st : state) (key : string) : exn + string :=
  match components st.1 !! key with
  | None => inl (KeyError key)
  | Some l =>
      match st.2 l with
      | OComp c => inr (compType c)
      | OCase _ | OObject | OForeign _ => inl AttributeError
      end
  end.

(** WeightProblem._getComponentKeys (lines 232-285); the state of the loops
    is the set [weightKeysTmp]. *)
Definition _getComponentKeys (st : state)
    (include exclude includeType excludeType : option names)
    : outcome (gset string) :=
  let weightKeys : gset string := dom (components st.1) in
  (match includeType with
   | None => Done weightKeys
   | Some includeType =>
       let includeType := as_list includeType in
       for_each (elements weightKeys)
         (fun key weightKeysTmp =>
            match compType_at st key with
            | inl e => Raised e weightKeysTmp
            | inr t =>
                if bool_decide (t ∈ includeType)
                then Done ({[key]} ∪ weightKeysTmp)
                else Done weightKeysTmp
            end)
         ∅
   end) >>> fun weightKeys =>
  let weightKeys :=
    match include with
    | None => weightKeys
    | Some include => weightKeys ∩ list_to_set (as_list include)
    end in
  let weightKeys :=
    match exclude with
    | None => weightKeys
    | Some exclude => weightKeys ∖ list_to_set (as_list exclude)
    end in
  match excludeType with
  | None => Done weightKeys
  | Some excludeType =>
      let excludeType := as_list excludeType in
      for_each (elements weightKeys)
        (fun key weightKeysTmp =>
           match compType_at st key with
           | inl e => Raised e weightKeysTmp
           | inr t =>
               if bool_decide (t ∈ excludeType)
               then Done (weightKeysTmp ∖ {[key]})
               else Done weightKeysTmp
           end)
        weightKeys
  end.

End Problem.

Arguments obj R C : clear implicits.
Arguments Heap R C : clear implicits.
Arguments WeightProblem R : clear implicits.
Arguments state R C : clear implicits.

(** ** Sequences of calls *)

(** The state a caller is left with, whether the method returned or
    raised. *)
Definition after {S : Type} (o : outcome S) : S :=
  match o with
  | Done s => s
  | Raised _ s => s
  end.

Definition raises_Error {S : Type} (o : outcome S) : Prop :=
  ∃ message s, o = Raised (Error message) s.

Section Calls.
Context {R : Type} `{Scalar R}.

(** The arguments of one call of [addDV]. *)
Record DVCall := mk_DVCall {
  c_key : string;
  c_value : option R;
  c_lower : option R;
  c_upper : option R;
  c_scale : R;
  c_name : option string;
  c_offset : R;
  c_axis : option string;
  c_addToPyOpt : bool
}.

Definition call_addDV (self : FuelCase R) (c : DVCall) : outcome (FuelCase R) :=
  addDV self (c_key c) (c_value c) (c_lower c) (c_upper c) (c_scale c)
    (c_name c) (c_offset c) (c_axis c) (c_addToPyOpt c).

(** A caller that makes the calls one after the other and goes on after a
    call that raised. *)
Definition addDV_calls (calls : list DVCall) (self : FuelCase R) : FuelCase R :=
  foldl (fun self c => after (call_addDV self c)) self calls.


(** The name of the optimizer variable of the DV stored under [dvName] in a
    case of the problem named [pname] (addVariablesPyOpt, getVarNames). *)
Definition variable_name (pname dvName : string) : string :=
  (pname +:+ "_") +:+ dvName.

(** Two entries of [DVs] never carry the same key. *)
Definition one_DV_per_key (fc : FuelCase R) : Prop :=
  ∀ n1 n2 dv1 dv2,
    DVs fc !! n1 = Some dv1 → DVs fc !! n2 = Some dv2 →
    dv_key dv1 = dv_key dv2 → n1 = n2.

(** Every entry of [DVNames] has a whitelisted key and names an entry of
    [DVs]. *)
Definition names_resolve (fc : FuelCase R) : Prop :=
  ∀ k n, DVNames fc !! k = Some n → k ∈ possibleDVs ∧ is_Some (DVs fc !! n).

End Calls.

Arguments DVCall R : clear implicits.

(** ** A key and its DV

    [tracks k dvName o fc]: the key [k] of the case is registered under the
    name [dvName], whose DV has the offset [o].  [synced k dvName o v fc]:
    the DV under [dvName] holds the value [v] and the attribute [k] holds
    [v + o]. *)
Definition tracks {R : Type} (k dvName : string) (o : R) (fc : FuelCase R) : Prop :=
  DVNames fc !! k = Some dvName
  ∧ ∃ dv, DVs fc !! dvName = Some dv ∧ dv_offset dv = o.

Definition synced {R : Type} `{Scalar R} (k dvName : string) (o v : R)
    (fc : FuelCase R) : Prop :=
  getattr fc k = Some (s_add v o)
  ∧ ∃ dv, DVs fc !! dvName = Some dv ∧ dv_value dv = v.

(** ** A component to run the model on

    Its [setUnitSystem] records the unit system; its [setDesignVars] stores
    the values of the names it owns. *)
Record PlainComponent := mk_PlainComponent {
  pc_name : string;
  pc_compType : string;
  pc_DVs : gmap string Q;
  pc_units : string
}.

#[global] Instance PlainComponent_Component : Component Q PlainComponent := {|
  comp_name := pc_name;
  compType := pc_compType;
  comp_DVs := pc_DVs;
  setUnitSystem u c := mk_PlainComponent (pc_name c) (pc_compType c) (pc_DVs c) u;
  comp_setDesignVars x c :=
    mk_PlainComponent (pc_name c) (pc_compType c)
      (map_imap (fun k v => Some (default v (x !! k))) (pc_DVs c)) (pc_units c)
|}.

(** The registered objects of a problem. *)
Definition registered {R : Type} (p : WeightProblem R) (l : loc) : Prop :=
  (∃ k, components p !! k = Some l) ∨ l ∈ fuelcases p.

(** ** A registered fuel case during setDesignVars

    [registry_ok p h]: every object registered in [p] is a component or a
    fuel case.  [apply_inv]: the loops of setDesignVars have not changed the
    registries of the problem [p0], and the object at [l] is a fuel case that
    tracks [k].  [apply_goal]: that case is in sync with [v] and so is the
    cache.  [keys_present]: the names the inner loop iterates over are still
    names of [DVs]. *)
Section ApplyInvariants.
Context {R : Type} `{Scalar R} {C : Type} `{Component R C}.

Definition registry_ok (p : WeightProblem R) (h : Heap R C) : Prop :=
  ∀ l, registered p l → is_Some (entity_DVs (h l)).

Definition apply_inv (p0 : WeightProblem R) (l : loc) (k dvName : string) (o : R)
    (st : state R C) : Prop :=
  name st.1 = name p0 ∧ components st.1 = components p0
  ∧ fuelcases st.1 = fuelcases p0 ∧ registry_ok p0 st.2
  ∧ ∃ fc, st.2 l = OCase fc ∧ tracks k dvName o fc.

Definition apply_goal (p0 : WeightProblem R) (l : loc) (k dvName : string)
    (o v : R) (st : state R C) : Prop :=
  (∃ fc, st.2 l = OCase fc ∧ synced k dvName o v fc)
  ∧ currentDVs st.1 !! variable_name (name p0) dvName = Some v.

Definition keys_present (l' : loc) (ks : list string) (st : state R C) : Prop :=
  ∀ fc', st.2 l' = OCase fc' → ∀ key, key ∈ ks → is_Some (DVs fc' !! key).

End ApplyInvariants.

(** _getComponentKeys as the specification words it: start from all names,
    narrow by type, intersect, subtract, remove by type. *)
Section Selection.
Context {R : Type} `{Scalar R} {C : Type} `{Component R C}.

Definition has_type_in (st : state R C) (types : list string) (key : string)
    : Prop :=
  ∃ t, compType_at st key = inr t ∧ t ∈ types.

#[global] Instance has_type_in_dec st types key : Decision (has_type_in st types key).
Proof.
  unfold has_type_in. destruct (compType_at st key) as [e|t].
  - right. intros (t & Ht & _). discriminate.
  - destruct (decide (t ∈ types)) as [Hin|Hnin].
    + left. eauto.
    + right. intros (t' & Ht & Hin). congruence.
Defined.

Definition selectComponentKeys (st : state R C)
    (include exclude includeType excludeType : option names) : gset string :=
  let all : gset string := dom (components st.1) in
  let narrowed :=
    match includeType with
    | None => all
    | Some ts => filter (has_type_in st (as_list ts)) all
    end in
  let intersected :=
    match include with
    | None => narrowed
    | Some ns => narrowed ∩ list_to_set (as_list ns)
    end in
  let subtracted :=
    match exclude with
    | None => intersected
    | Some ns => intersected ∖ list_to_set (as_list ns)
    end in
  match excludeType with
  | None => subtracted
  | Some ts => filter (fun key => ¬ has_type_in st (as_list ts) key) subtracted
  end.

End Selection.

(** ** A small problem to run the model on

    The problem [prob] in SI units, a wing with one DV, the fuel case
    [climb] with [fuelFraction] registered with the offset 0.1, and objects
    that are neither components nor fuel cases. *)
Definition demo_wing : PlainComponent :=
  mk_PlainComponent "wing" "wing" {["span" := 30%Q]} "".

Definition demo_climb : FuelCase Q :=
  addDV_calls
    [mk_DVCall "fuelFraction" None (Some 0%Q) (Some 1%Q) 1%Q None 0.1%Q None true]
    (FuelCase_init "climb" 0.9%Q 0.1%Q).

Definition demo_heap : Heap Q PlainComponent :=
  fun l =>
    match l with
    | 0 => OComp demo_wing
    | 1 => OCase demo_climb
    | 2 => OObject
    | _ => OForeign "str"
    end.

Definition demo_fresh : state Q PlainComponent :=
  (WeightProblem_init "prob" "SI" None, demo_heap).

(** [prob] after [addComponents([wing])] and [addFuelCases([climb])]. *)
Definition demo_state : state Q PlainComponent :=
  after (addFuelCases (AList [1]) (after (addComponents (AList [0]) demo_fresh))).

(** The components [A] and [B] of type [wing] and [C] of type [fuel],
    registered in a problem. *)
Definition abc_heap : Heap Q PlainComponent :=
  fun l =>
    match l with
    | 0 => OComp (mk_PlainComponent "A" "wing" ∅ "")
    | 1 => OComp (mk_PlainComponent "B" "wing" ∅ "")
    | 2 => OComp (mk_PlainComponent "C" "fuel" ∅ "")
    | _ => OObject
    end.

Definition abc_state : state Q PlainComponent :=
  after (addComponents (AList [0; 1; 2]) (WeightProblem_init "prob" "SI" None, abc_heap)).

(** ** More of WeightProblem *)

(** WeightProblem._getNumComponents (lines 109-113). *)
Definition _getNumComponents {R : Type} (self : WeightProblem R) : nat :=
  size (components self).

(** The names of the components among the objects at [ls]. *)
Definition component_names {R C : Type} `{Component R C} (h : Heap R C)
    (ls : list loc) : list string :=
  omap (fun l => match h l with OComp c => Some (comp_name c) | _ => None end) ls.

(** What setDesignVars with the vector [x] keeps of the state [(p, h)] it
    starts from: the registries, the kind of every object, the objects that
    are not registered, and the entries of the cache except those it has set
    to the value [x] gives them. *)
Definition apply_frame {R C : Type} `{Component R C} (x : gmap string R)
    (p : WeightProblem R) (h : Heap R C) (st : state R C) : Prop :=
  name st.1 = name p ∧ units st.1 = units p
  ∧ components st.1 = components p ∧ fuelcases st.1 = fuelcases p
  ∧ (∀ l, type_of_obj (st.2 l) = type_of_obj (h l))
  ∧ (∀ l, ¬ registered p l → st.2 l = h l)
  ∧ (∀ n, currentDVs st.1 !! n = currentDVs p !! n
          ∨ (is_Some (x !! n) ∧ currentDVs st.1 !! n = x !! n)).

(** The DV stored under the name [n] after FuelCase.setDesignVars has run
    over the entries [es] of [DVNames] with the vector [x]. *)
Definition applied {R : Type} (x : gmap string R) (es : list (string * string))
    (n : string) (dv : fuelCaseDV R) : fuelCaseDV R :=
  match x !! n with
  | Some xv => if bool_decide (n ∈ es.*2) then set_value dv xv else dv
  | None => dv
  end.

(** ** Sequences of registration calls *)

Inductive RegCall :=
  | RegComponents (a : pyarg)
  | RegFuelCases (a : pyarg).

Section RegCalls.
Context {R : Type} `{Scalar R} {C : Type} `{Component R C}.

Definition register_call (c : RegCall) (st : state R C) : outcome (state R C) :=
  match c with
  | RegComponents a => addComponents a st
  | RegFuelCases a => addFuelCases a st
  end.

(** A caller that makes the calls one after the other and goes on after a
    call that raised. *)
Definition register_calls (calls : list RegCall) (st : state R C) : state R C :=
  foldl (fun st c => after (register_call c st)) st calls.

(** Every variable of a registered object has an entry in [currentDVs]. *)
Definition cache_covers (st : state R C) : Prop :=
  ∀ l dvs d,
    registered st.1 l → entity_DVs (st.2 l) = Some dvs → is_Some (dvs !! d) →
    is_Some (currentDVs st.1 !! variable_name (name st.1) d).

End RegCalls.

(** ** The constraints of a problem *)

(** The [addCon] calls that the fuel case at [l] makes in
    addConstraintsPyOpt, and the names of the fuel cases at [ls]. *)
Definition constraints_of {R C : Type} `{Scalar R} (p : WeightProblem R)
    (h : Heap R C) (l : loc) : list (Con R) :=
  match h l with
  | OCase fc => addLinearConstraint fc [] (name p)
  | _ => []
  end.

Definition case_names {R C : Type} (h : Heap R C) (ls : list loc) : list string :=
  omap (fun l => match h l with OCase fc => Some (fc_name fc) | _ => None end) ls.

(** ** The variables of a problem

    addVariablesPyOpt reads of each DV its [value], [lower], [upper], [scale]
    and [addToPyOpt]; the DVs of a fuel case are [fuelCaseDV] objects, those
    of a component are objects of the component's own DV class, of which
    [comp_DV_infos] gives these five attributes, the values being those of
    [comp_DVs]. *)
Record DVInfo (R : Type) := mk_DVInfo {
  info_value : R;
  info_lower : option R;
  info_upper : option R;
  info_scale : R;
  info_addToPyOpt : bool
}.
Arguments mk_DVInfo {R} _ _ _ _ _.
Arguments info_value {R} _.
Arguments info_lower {R} _.
Arguments info_upper {R} _.
Arguments info_scale {R} _.
Arguments info_addToPyOpt {R} _.

Class ComponentDVs (R C : Type) `{Component R C} := {
  comp_DV_infos : C → gmap string (DVInfo R);
  comp_DV_infos_value : ∀ c, info_value <$> comp_DV_infos c = comp_DVs c
}.

(** The reference component gives every DV the scale 1, no bounds, and
    hands it to the optimizer. *)
Definition plain_DV_infos (c : PlainComponent) : gmap string (DVInfo Q) :=
  (fun v => mk_DVInfo v None None 1%Q true) <$> pc_DVs c.

#[global, refine] Instance PlainComponent_DVs : ComponentDVs Q PlainComponent := {|
  comp_DV_infos := plain_DV_infos
|}.
Proof.
  intros c. unfold plain_DV_infos. rewrite <- map_fmap_compose. apply map_fmap_id.
Defined.

(** The optimizer object as far as addVariablesPyOpt drives it: the list of
    the [addVar] calls it has received, each with the name, the type
    (['c'], continuous) and the keyword arguments of the call. *)
Record Var (R : Type) := mk_Var {
  var_name : string;
  var_type : string;
  var_value : R;
  var_lower : option R;
  var_upper : option R;
  var_scale : R
}.
Arguments mk_Var {R} _ _ _ _ _ _.
Arguments var_name {R} _.
Arguments var_type {R} _.
Arguments var_value {R} _.
Arguments var_lower {R} _.
Arguments var_upper {R} _.
Arguments var_scale {R} _.

Section Variables.
Context {R : Type} `{Scalar R} {C : Type} `{ComponentDVs R C}.

Definition addVar (optProb : list (Var R)) (v : Var R) : list (Var R) :=
  optProb ++ [v].

Definition fuelCaseDV_info (dv : fuelCaseDV R) : DVInfo R :=
  mk_DVInfo (dv_value dv) (dv_lower dv) (dv_upper dv) (dv_scale dv)
    (dv_addToPyOpt dv).

(** [o.DVs], each entry with what addVariablesPyOpt reads of it. *)
Definition entity_DV_infos (o : obj R C) : option (gmap string (DVInfo R)) :=
  match o with
  | OComp c => Some (comp_DV_infos c)
  | OCase fc => Some (fuelCaseDV_info <$> DVs fc)
  | OObject | OForeign _ => None
  end.

(** The body of the inner loops of addVariablesPyOpt, for one entry of
    [DVs]. *)
Definition addVariables_key (pname : string) (entry : string * DVInfo R)
    (optProb : list (Var R)) : outcome (list (Var R)) :=
  let '(key, dv) := entry in
  let dvName := (pname +:+ "_") +:+ key in
  if info_addToPyOpt dv then
    Done (addVar optProb
            (mk_Var dvName "c" (info_value dv) (info_lower dv) (info_upper dv)
               (info_scale dv)))
  else Done optProb.

(** The body of the outer loops, for the entity at [l]. *)
Definition addVariables_entity (st : state R C) (l : loc)
    (optProb : list (Var R)) : outcome (list (Var R)) :=
  match entity_DV_infos (st.2 l) with
  | None => Raised AttributeError optProb
  | Some infos => for_each (map_to_list infos) (addVariables_key (name st.1)) optProb
  end.

(** WeightProblem.addVariablesPyOpt (lines 150-176); the state here is the
    optimizer object. *)
Definition addVariablesPyOpt (st : state R C) (optProb : list (Var R))
    : outcome (list (Var R)) :=
  for_each (map_to_list (components st.1)).*2 (addVariables_entity st) optProb
  >>> for_each (fuelcases st.1) (addVariables_entity st).

(** The variables that the entity at [l] hands to the optimizer. *)
Definition exported_key (pname : string) (entry : string * DVInfo R)
    : option (Var R) :=
  if info_addToPyOpt entry.2 then
    Some (mk_Var ((pname +:+ "_") +:+ entry.1) "c" (info_value entry.2)
            (info_lower entry.2) (info_upper entry.2) (info_scale entry.2))
  else None.

Definition exported (st : state R C) (l : loc) : list (Var R) :=
  match entity_DV_infos (st.2 l) with
  | Some infos => omap (exported_key (name st.1)) (map_to_list infos)
  | None => []
  end.

(** A fuel case whose DVs were registered by calls of [addDV] on a new
    case, each call without [name] and [axis] and with [addToPyOpt] left
    true. *)
Definition plainly_registered (fc : FuelCase R) : Prop :=
  ∃ (cname : string) (ff rf : R) (calls : list (DVCall R)),
    fc = addDV_calls calls (FuelCase_init cname ff rf)
    ∧ ∀ c, c ∈ calls → c_name c = None ∧ c_axis c = None ∧ c_addToPyOpt c = true.

End Variables.

(** ** The box of an Error

    [Error.__init__] (lines 30-42) builds the string [msg], the message in
    a box, prints it and calls [Exception.__init__] without arguments.
    Strings are byte strings; [split] is [str.split()] without
    arguments, which cuts at runs of the six whitespace characters (space,
    tab, line feed, vertical tab, form feed, carriage return); [times] is
    the product of a character and a number, empty when the number is not
    positive, the numbers here being naturals with truncated subtraction. *)
Definition newline : string := String (ascii_of_nat 10) EmptyString.

Definition is_whitespace (c : ascii) : bool :=
  let n := nat_of_ascii c in
  Nat.eqb n 32 || (Nat.leb 9 n && Nat.leb n 13).

Fixpoint split_words (s word : string) : list string :=
  match s with
  | EmptyString => match word with EmptyString => [] | _ => [word] end
  | String c s' =>
      if is_whitespace c then
        match word with
        | EmptyString => split_words s' EmptyString
        | _ => word :: split_words s' EmptyString
        end
      else split_words s' (word +:+ String c EmptyString)
  end.

Definition split (s : string) : list string := split_words s EmptyString.

Fixpoint times (c : ascii) (n : nat) : string :=
  match n with
  | O => EmptyString
  | S n' => String c (times c n')
  end.

(** The body of the loop over the words; the state is [(msg, i)]. *)
Definition Error_init_body (st : string * nat) (word : string) : string * nat :=
  let '(msg, i) := st in
  if Nat.ltb 78 (String.length word + i + 1) then
    (msg +:+ (times " " (78 - i) +:+ "|" +:+ newline +:+ "| " +:+ word +:+ " "),
     1 + String.length word + 1)
  else
    (msg +:+ (word +:+ " "), i + (String.length word + 1)).

(** The string [msg] when line 41 is reached. *)
Definition Error_msg (message : string) : string :=
  let msg := newline +:+ "+" +:+ times "-" 78 +:+ "+" +:+ newline
             +:+ "| WeightProblem Error: " in
  let i := 23 in
  let '(msg, i) := foldl Error_init_body (msg, i) (split message) in
  msg +:+ (times " " (78 - i) +:+ "|" +:+ newline
           +:+ "+" +:+ times "-" 78 +:+ "+" +:+ newline).

(** [print(x)] writes [x] and a line feed to the standard output. *)
Definition print (x : string) (stdout : string) : string :=
  stdout +:+ x +:+ newline.

(** [Error.__init__]: the standard output after the call. *)
Definition Error_init (message : string) (stdout : string) : string :=
  print (Error_msg message) stdout.

(** The lines of a box: [unlines ls] is every line followed by a line feed;
    [join_words ws] is every word followed by a space; [box_line d head ws] is a
    line that starts with [head], holds the words [ws], and is closed by
    ['|'] after blanks up to the column [79 + d]. *)
Definition unlines (ls : list string) : string :=
  foldr (fun l rest => l +:+ newline +:+ rest) EmptyString ls.

Definition join_words (ws : list string) : string :=
  foldr (fun w rest => w +:+ " " +:+ rest) EmptyString ws.

Definition box_line (d : nat) (head : string) (ws : list string) : string :=
  head +:+ join_words ws
  +:+ times " " (78 + d - String.length (head +:+ join_words ws)) +:+ "|".

Definition box_border : string := "+" +:+ times "-" 78 +:+ "+".

(** ** The round trip of a design variable, as the specification words it

    For every DV in the [DVs] of a registered fuel case, stored under
    [dvName] with the key [dv_key], [setDesignVars] with the one-entry
    vector that gives [v2] to [problemName_dvName] sets the attribute
    [dv_key] to [v2 + offset], the value of the DV to [v2] and the entry of
    [currentDVs] to [v2]. *)
Definition round_trip_of_every_DV {R C : Type} `{Scalar R} `{Component R C}
    (st : state R C) : Prop :=
  ∀ (l : loc) (fc : FuelCase R) (dvName : string) (dv : fuelCaseDV R) (v2 : R),
    l ∈ fuelcases st.1 → st.2 l = OCase fc → DVs fc !! dvName = Some dv →
    ∃ st' fc' dv',
      setDesignVars {[variable_name (name st.1) dvName := v2]} st = Done st'
      ∧ st'.2 l = OCase fc'
      ∧ getattr fc' (dv_key dv) = Some (s_add v2 (dv_offset dv))
      ∧ DVs fc' !! dvName = Some dv' ∧ dv_value dv' = v2
      ∧ currentDVs st'.1 !! variable_name (name st.1) dvName = Some v2.

(** The fuel case [climb] after [addDV('fuelFraction')] and
    [addDV('fuelFraction', name='shared')], registered in [prob]. *)
Definition renamed_climb : FuelCase Q :=
  addDV_calls
    [mk_DVCall "fuelFraction" None None None 1%Q None 0%Q None true;
     mk_DVCall "fuelFraction" None None None 1%Q (Some "shared") 0%Q None true]
    (FuelCase_init "climb" 0.9%Q 0.1%Q).

Definition renamed_heap : Heap Q PlainComponent :=
  fun l =>
    match l with
    | 1 => OCase renamed_climb
    | _ => OObject
    end.

Definition renamed_state : state Q PlainComponent :=
  after (addFuelCases (AList [1]) (WeightProblem_init "prob" "SI" None, renamed_heap)).

(** * Properties *)


(** Projections of a state and of an updated problem, without touching the
    heap. *)
Ltac simpl_state :=
  cbn [fst snd name units components fuelcases currentDVs set_currentDVs
       set_components set_fuelcases] in *.

(** ** Loops, strings and attributes *)

Lemma for_each_app {A S : Type} (xs ys : list A) (body : A → S → outcome S) s :
  for_each (xs ++ ys)%list body s = for_each xs body s >>> for_each ys body.
Proof.
  revert s. induction xs as [|x xs IH]; intros s; simpl; [done|].
  destruct (body x s); simpl; [apply IH | done].
Qed.

(** A loop whose body keeps an invariant and never raises returns in a
    state that satisfies the invariant. *)
Lemma for_each_invariant {A S : Type} (Inv : S → Prop) (xs : list A)
    (body : A → S → outcome S) :
  (∀ x s, x ∈ xs → Inv s → ∃ s', body x s = Done s' ∧ Inv s') →
  ∀ s, Inv s → ∃ s', for_each xs body s = Done s' ∧ Inv s'.
Proof.
  induction xs as [|x xs IH]; intros Hbody s Hs; simpl; [eauto|].
  destruct (Hbody x s) as (s1 & -> & Hs1); [left | done |]. simpl.
  apply IH; [|done]. intros y t Hy. apply Hbody. by right.
Qed.

(** The same, with a goal [G] that the iteration at [x0] establishes and
    every other iteration keeps. *)
Lemma for_each_establishes {A S : Type} (Inv G : S → Prop) (x0 : A)
    (xs : list A) (body : A → S → outcome S) :
  (∀ x s, x ∈ xs → Inv s →
     ∃ s', body x s = Done s' ∧ Inv s' ∧ (G s → G s') ∧ (x = x0 → G s')) →
  ∀ s, Inv s →
    ∃ s', for_each xs body s = Done s' ∧ Inv s' ∧ (G s ∨ x0 ∈ xs → G s').
Proof.
  induction xs as [|x xs IH]; intros Hbody s Hs; simpl.
  - exists s. split_and!; [done..|]. intros [?|Hin]; [done|]. by inversion Hin.
  - destruct (Hbody x s) as (s1 & -> & Hs1 & Hkeep & Hest); [left | done |].
    simpl. destruct (IH (fun y t Hy => Hbody y t (list_elem_of_further _ _ _ Hy)) s1 Hs1)
      as (s2 & Hrun & Hs2 & HG).
    exists s2. split_and!; [done..|]. intros [Hg|Hin]; apply HG.
    + left. by apply Hkeep.
    + apply elem_of_cons in Hin as [->|Hin]; [left; by apply Hest | by right].
Qed.

(** A loop whose body does nothing does nothing. *)
Lemma for_each_skip {A S : Type} (xs : list A) (body : A → S → outcome S) s :
  (∀ x, x ∈ xs → body x s = Done s) → for_each xs body s = Done s.
Proof.
  induction xs as [|x xs IH]; intros Hbody; simpl; [done|].
  rewrite Hbody; [|left]. simpl. apply IH. intros y Hy. apply Hbody. by right.
Qed.

Lemma string_app_assoc (a b c : string) : (a +:+ b) +:+ c = a +:+ (b +:+ c).
Proof.
  induction a as [|ch a IH]; [done|].
  change (String ch ((a +:+ b) +:+ c) = String ch (a +:+ (b +:+ c))).
  by rewrite IH.
Qed.

Lemma substring_of_intro (before needle after : string) :
  substring_of needle (before +:+ needle +:+ after).
Proof. by exists before, after. Qed.

Lemma elem_of_possibleDVs (key : string) :
  key ∈ possibleDVs ↔ key = "fuelFraction" ∨ key = "reserveFraction".
Proof. unfold possibleDVs. rewrite !elem_of_cons, elem_of_nil. tauto. Qed.

Lemma elem_of_keys {V : Type} (m : gmap string V) (k : string) :
  k ∈ (map_to_list m).*1 ↔ is_Some (m !! k).
Proof.
  rewrite list_elem_of_fmap. split.
  - intros ([k' v] & -> & Hin). apply elem_of_map_to_list in Hin. eauto.
  - intros [v Hv]. exists (k, v). split; [done|]. by apply elem_of_map_to_list.
Qed.

Section FuelCaseFacts.
Context {R : Type} `{Scalar R}.
Implicit Types (fc self : FuelCase R) (x : gmap string R).

Lemma getattr_possible self key : key ∈ possibleDVs → is_Some (getattr self key).
Proof.
  rewrite elem_of_possibleDVs. unfold getattr. intros [->| ->]; simpl; eauto.
Qed.

Lemma getattr_setattr_eq self key v :
  key ∈ possibleDVs → getattr (setattr self key v) key = Some v.
Proof.
  rewrite elem_of_possibleDVs. unfold getattr, setattr. by intros [->| ->].
Qed.

Lemma getattr_setattr_ne self key key' v :
  key ≠ key' → getattr (setattr self key' v) key = getattr self key.
Proof.
  intros Hne. unfold getattr, setattr.
  repeat (case_decide; simplify_eq/=); done.
Qed.

(** What a call of [addDV] with an admitted key does. *)
Lemma addDV_admitted self key value lower upper scale name offset axis addToPyOpt :
  key ∈ possibleDVs →
  ∃ v, match value with Some v' => v = v' | None => getattr self key = Some v end
     ∧ addDV self key value lower upper scale name offset axis addToPyOpt
       = Done (mk_FuelCase (fc_name self) (fuelFraction self) (reserveFraction self)
                 (<[addDV_dvName self key name axis :=
                      mk_fuelCaseDV key v lower upper scale offset addToPyOpt]> (DVs self))
                 (<[key := addDV_dvName self key name axis]> (DVNames self))).
Proof.
  intros Hkey. unfold addDV. rewrite bool_decide_eq_false_2; [|by intros []].
  destruct value as [v|].
  - by exists v.
  - destruct (getattr_possible self key Hkey) as [v Hv]. exists v. by rewrite Hv.
Qed.

Lemma addDV_refused self key value lower upper scale name offset axis addToPyOpt :
  key ∉ possibleDVs →
  addDV self key value lower upper scale name offset axis addToPyOpt
  = Raised (Error (addDV_message key)) self.
Proof. intros Hkey. unfold addDV. by rewrite bool_decide_eq_true_2. Qed.

(** The flags of [addLinearConstraint] say whether some key of [DVNames]
    is one of the two fractions, whatever the case of its letters. *)
Lemma fraction_flags_existsb keys :
  fraction_flags keys
  = (existsb (fun key => bool_decide (lower key = "reservefraction")) keys,
     existsb (fun key => bool_decide (lower key = "fuelfraction")) keys).
Proof.
  unfold fraction_flags.
  enough (∀ a b,
    foldl (fun '(reserveDV, fuelDV) key =>
             let fuelDV :=
               if decide (lower key = "fuelfraction") then true else fuelDV in
             let reserveDV :=
               if decide (lower key = "reservefraction") then true else reserveDV in
             (reserveDV, fuelDV)) (a, b) keys
    = (a || existsb (fun key => bool_decide (lower key = "reservefraction")) keys,
       b || existsb (fun key => bool_decide (lower key = "fuelfraction")) keys))
    as Hgen by apply Hgen.
  induction keys as [|k keys IH]; intros a b; simpl.
  - by rewrite !orb_false_r.
  - rewrite IH. f_equal.
    + case_decide; [rewrite bool_decide_eq_true_2 by done
                   | rewrite bool_decide_eq_false_2 by done];
        simpl; by rewrite ?orb_true_r.
    + case_decide; [rewrite bool_decide_eq_true_2 by done
                   | rewrite bool_decide_eq_false_2 by done];
        simpl; by rewrite ?orb_true_r.
Qed.

Lemma flag_registered (target key : string) keys :
  key ∈ keys → lower key = target →
  existsb (fun key => bool_decide (lower key = target)) keys = true.
Proof.
  intros Hin Hlow. apply existsb_exists. exists key.
  split; [by apply list_elem_of_In | by apply bool_decide_eq_true_2].
Qed.

Lemma flag_not_registered (target key : string) keys :
  (∀ k, k ∈ keys → k ∈ possibleDVs) → key ∈ possibleDVs → lower key = target →
  key ∉ keys →
  existsb (fun key => bool_decide (lower key = target)) keys = false.
Proof.
  intros Hwf Hkey Hlow Hnin. apply not_true_is_false. intros Hex.
  apply existsb_exists in Hex as (k & Hin & Hk).
  apply list_elem_of_In in Hin. apply bool_decide_eq_true_1 in Hk.
  apply Hnin. enough (k = key) by by subst.
  specialize (Hwf k Hin). apply elem_of_possibleDVs in Hwf, Hkey.
  destruct Hwf as [->| ->], Hkey as [->| ->]; subst; done.
Qed.

End FuelCaseFacts.

(** ** The whitelist of addDV *)

Section Whitelist.
Context {R : Type} `{Scalar R}.

(** C3.  For every fuel case, key and other arguments, [addDV] raises the
    module's [Error] exactly when the key is neither [fuelFraction] nor
    [reserveFraction].  Whenever it raises, the message contains the key and
    the printed whitelist, and the case is as it was before the call: its
    [DVs] and [DVNames] are unchanged. *)
Theorem addDV_rejects_unlisted_key (self : FuelCase R) (key : string)
    (value lower upper : option R) (scale : R) (name : option string)
    (offset : R) (axis : option string) (addToPyOpt : bool) :
  let result := addDV self key value lower upper scale name offset axis addToPyOpt in
  (raises_Error result ↔ key ≠ "fuelFraction" ∧ key ≠ "reserveFraction")
  ∧ (∀ e self', result = Raised e self' →
       e = Error (addDV_message key)
       ∧ substring_of key (addDV_message key)
       ∧ substring_of "['fuelFraction', 'reserveFraction']" (addDV_message key)
       ∧ DVs self' = DVs self ∧ DVNames self' = DVNames self ∧ self' = self).
Proof.
  intros result. subst result.
  destruct (decide (key ∈ possibleDVs)) as [Hin|Hnin].
  - destruct (addDV_admitted self key value lower upper scale name offset axis
                addToPyOpt Hin) as (v & _ & ->).
    apply elem_of_possibleDVs in Hin. split.
    + split; [intros (m & s & ?); discriminate | intros [? ?]; by destruct Hin].
    + intros e self' ?; discriminate.
  - rewrite (addDV_refused _ _ _ _ _ _ _ _ _ _ Hnin).
    rewrite elem_of_possibleDVs in Hnin. split.
    + split; [tauto | intros _; by eexists _, _].
    + intros e self' [= <- <-]. split_and!; try done.
      * apply (substring_of_intro "The DV '").
      * unfold addDV_message.
        exists ("The DV '" +:+ key
                +:+ "' could not be added.  The list of possible DVs are: "), ".".
        by rewrite !string_app_assoc.
Qed.

End Whitelist.

(** The call [addDV('thrust')] of the specification's test, on a case with
    one registered variable. *)
Lemma addDV_rejects_unlisted_key_witness :
  let self : FuelCase Q :=
    after (addDV (FuelCase_init "climb" 0.9%Q 0.1%Q) "fuelFraction" None None None
             1%Q None 0%Q None true) in
  addDV self "thrust" None None None 1%Q None 0%Q None true
    = Raised (Error (addDV_message "thrust")) self
  ∧ ∀ e self',
      addDV self "thrust" None None None 1%Q None 0%Q None true = Raised e self' →
      e = Error (addDV_message "thrust")
      ∧ substring_of "thrust" (addDV_message "thrust")
      ∧ substring_of "['fuelFraction', 'reserveFraction']" (addDV_message "thrust")
      ∧ DVs self' = DVs self ∧ DVNames self' = DVNames self ∧ self' = self.
Proof.
  intros self. split; [reflexivity|].
  exact (proj2 (addDV_rejects_unlisted_key self "thrust" None None None 1%Q None
                  0%Q None true)).
Defined.

(** ** The linear constraint of a fuel case *)

Section Constraint.
Context {R : Type} `{Scalar R} {C : Type} `{Component R C}.
Implicit Types (fc : FuelCase R) (optProb : list (Con R)).

Lemma flags_of_case fc :
  fraction_flags (map_to_list (DVNames fc)).*1
  = (existsb (fun key => bool_decide (lower key = "reservefraction"))
       (map_to_list (DVNames fc)).*1,
     existsb (fun key => bool_decide (lower key = "fuelfraction"))
       (map_to_list (DVNames fc)).*1).
Proof. apply fraction_flags_existsb. Qed.

Lemma flag_of_registered_key fc (target key : string) :
  lower key = target → is_Some (DVNames fc !! key) →
  existsb (fun k => bool_decide (lower k = target)) (map_to_list (DVNames fc)).*1
  = true.
Proof.
  intros Hlow Hreg. apply (flag_registered _ key); [by apply elem_of_keys | done].
Qed.

Lemma flag_of_missing_key fc (target key : string) :
  lower key = target →
  (∀ k, is_Some (DVNames fc !! k) → k ∈ possibleDVs) → key ∈ possibleDVs →
  DVNames fc !! key = None →
  existsb (fun k => bool_decide (lower k = target)) (map_to_list (DVNames fc)).*1
  = false.
Proof.
  intros Hlow Hwf Hkey Hnone. apply (flag_not_registered _ key); [|done..|].
  - intros k Hk. by apply Hwf, elem_of_keys.
  - rewrite elem_of_keys, Hnone. by intros [? ?].
Qed.

(** C4.  When both [fuelFraction] and [reserveFraction] are registered as
    DVs of a fuel case (whether or not they are handed to the optimizer),
    [addLinearConstraint] makes exactly one [addCon] call: the constraint is
    named [prefix_caseName_fuelcase], is linear with lower bound 0 and upper
    bound 1, and has the coefficient 1 on each of the variables
    [prefix_caseName_fuelFraction] and [prefix_caseName_reserveFraction].
    [addConstraintsPyOpt] passes the problem's name as the prefix. *)
Theorem both_fractions_one_constraint fc optProb (prefix : string) :
  is_Some (DVNames fc !! "fuelFraction") →
  is_Some (DVNames fc !! "reserveFraction") →
  let constraint (prefix : string) :=
    let var1Name := ((prefix +:+ "_") +:+ fc_name fc) +:+ "_fuelFraction" in
    let var2Name := ((prefix +:+ "_") +:+ fc_name fc) +:+ "_reserveFraction" in
    mk_Con (((prefix +:+ "_") +:+ fc_name fc) +:+ "_fuelcase") (s_int 0) (s_int 1)
      (s_int 1) true [var1Name; var2Name]
      (<[var2Name := [[s_int 1]]]> (<[var1Name := [[s_int 1]]]> ∅)) in
  addLinearConstraint fc optProb prefix = (optProb ++ [constraint prefix])%list
  ∧ ∀ (p : WeightProblem R) (h : Heap R C) (l : loc),
      fuelcases p = [l] → h l = OCase fc →
      addConstraintsPyOpt (p, h) optProb
      = Done (optProb ++ [constraint (name p)])%list.
Proof.
  intros Hfuel Hreserve constraint.
  assert (∀ pre, addLinearConstraint fc optProb pre
                 = (optProb ++ [constraint pre])%list) as Hone.
  { intros pre. unfold addLinearConstraint. rewrite flags_of_case.
    rewrite (flag_of_registered_key fc "fuelfraction" "fuelFraction" eq_refl Hfuel).
    by rewrite (flag_of_registered_key fc "reservefraction" "reserveFraction" eq_refl Hreserve). }
  split; [apply Hone|].
  intros p h l Hcases Hl. unfold addConstraintsPyOpt. rewrite Hcases. simpl.
  by rewrite Hl, Hone.
Qed.

(** C5.  In a fuel case whose registered keys are among the two fractions:
    when only [reserveFraction] is a DV, [addLinearConstraint] makes one
    [addCon] call, on the reserve variable alone, with lower bound 0,
    coefficient 1 and upper bound [1 - fuelFraction]; when only
    [fuelFraction] is a DV, one call on the fuel variable alone with upper
    bound [1 - reserveFraction]; when neither is a DV, no call at all. *)
Theorem one_fraction_degenerate_constraint fc optProb (prefix : string) :
  (∀ k, is_Some (DVNames fc !! k) → k ∈ possibleDVs) →
  let conName := ((prefix +:+ "_") +:+ fc_name fc) +:+ "_fuelcase" in
  let var1Name := ((prefix +:+ "_") +:+ fc_name fc) +:+ "_fuelFraction" in
  let var2Name := ((prefix +:+ "_") +:+ fc_name fc) +:+ "_reserveFraction" in
  (is_Some (DVNames fc !! "reserveFraction") → DVNames fc !! "fuelFraction" = None →
     addLinearConstraint fc optProb prefix
     = (optProb ++
        [mk_Con conName (s_int 0) (s_sub (s_int 1) (fuelFraction fc)) (s_int 1) true
           [var2Name] (<[var2Name := [[s_int 1]]]> ∅)])%list)
  ∧ (is_Some (DVNames fc !! "fuelFraction") → DVNames fc !! "reserveFraction" = None →
     addLinearConstraint fc optProb prefix
     = (optProb ++
        [mk_Con conName (s_int 0) (s_sub (s_int 1) (reserveFraction fc)) (s_int 1) true
           [var1Name] (<[var1Name := [[s_int 1]]]> ∅)])%list)
  ∧ (DVNames fc !! "fuelFraction" = None → DVNames fc !! "reserveFraction" = None →
     addLinearConstraint fc optProb prefix = optProb).
Proof.
  intros Hwf conName var1Name var2Name.
  assert ("fuelFraction" ∈ possibleDVs) as Hf by (apply elem_of_possibleDVs; auto).
  assert ("reserveFraction" ∈ possibleDVs) as Hr by (apply elem_of_possibleDVs; auto).
  split_and!.
  - intros Hreserve Hfuel. unfold addLinearConstraint. rewrite flags_of_case.
    rewrite (flag_of_registered_key fc "reservefraction" "reserveFraction" eq_refl Hreserve).
    by rewrite (flag_of_missing_key fc "fuelfraction" "fuelFraction" eq_refl Hwf Hf Hfuel).
  - intros Hfuel Hreserve. unfold addLinearConstraint. rewrite flags_of_case.
    rewrite (flag_of_registered_key fc "fuelfraction" "fuelFraction" eq_refl Hfuel).
    by rewrite (flag_of_missing_key fc "reservefraction" "reserveFraction" eq_refl Hwf Hr Hreserve).
  - intros Hfuel Hreserve. unfold addLinearConstraint. rewrite flags_of_case.
    rewrite (flag_of_missing_key fc "fuelfraction" "fuelFraction" eq_refl Hwf Hf Hfuel).
    by rewrite (flag_of_missing_key fc "reservefraction" "reserveFraction" eq_refl Hwf Hr Hreserve).
Qed.

End Constraint.

(** ** Fuel cases built by calls of addDV *)

Section CallFacts.
Context {R : Type} `{Scalar R}.
Implicit Types (fc : FuelCase R) (c : DVCall R) (calls : list (DVCall R)).

(** One call, as the caller sees it. *)
Lemma after_call_addDV fc c :
  ((c_key c ∉ possibleDVs) ∧ after (call_addDV fc c) = fc)
  ∨ (c_key c ∈ possibleDVs
     ∧ ∃ v, after (call_addDV fc c)
            = mk_FuelCase (fc_name fc) (fuelFraction fc) (reserveFraction fc)
                (<[addDV_dvName fc (c_key c) (c_name c) (c_axis c) :=
                     mk_fuelCaseDV (c_key c) v (c_lower c) (c_upper c) (c_scale c)
                       (c_offset c) (c_addToPyOpt c)]> (DVs fc))
                (<[c_key c := addDV_dvName fc (c_key c) (c_name c) (c_axis c)]>
                   (DVNames fc))).
Proof.
  unfold call_addDV. destruct (decide (c_key c ∈ possibleDVs)) as [Hin|Hnin].
  - right. split; [done|].
    destruct (addDV_admitted fc (c_key c) (c_value c) (c_lower c) (c_upper c)
                (c_scale c) (c_name c) (c_offset c) (c_axis c) (c_addToPyOpt c) Hin)
      as (v & _ & ->).
    by exists v.
  - left. split; [done|]. by rewrite addDV_refused.
Qed.

Lemma addDV_calls_snoc calls c fc :
  addDV_calls (calls ++ [c])%list fc = after (call_addDV (addDV_calls calls fc) c).
Proof. unfold addDV_calls. by rewrite foldl_app. Qed.

(** Induction on the calls made so far. *)
Lemma addDV_calls_ind (P : list (DVCall R) → FuelCase R → Prop) fc0 :
  P [] fc0 →
  (∀ calls c fc, P calls fc → P (calls ++ [c])%list (after (call_addDV fc c))) →
  ∀ calls, P calls (addDV_calls calls fc0).
Proof.
  intros Hnil Hstep calls. induction calls as [|c calls IH] using rev_ind.
  - done.
  - rewrite addDV_calls_snoc. by apply Hstep.
Qed.


Lemma names_resolve_step fc c :
  names_resolve fc → names_resolve (after (call_addDV fc c)).
Proof.
  intros Hwf. destruct (after_call_addDV fc c) as [[_ ->]|[Hkey [v ->]]]; [done|].
  intros k n. simpl. rewrite lookup_insert. case_decide as Hk.
  - intros [= <-]. subst k. split; [done|]. rewrite lookup_insert_eq. eauto.
  - intros Hkn. destruct (Hwf k n Hkn) as [Hin [dv Hdv]]. split; [done|].
    rewrite lookup_insert. case_decide; eauto.
Qed.

Lemma addDV_calls_names_resolve calls (name : string) (ff rf : R) :
  names_resolve (addDV_calls calls (FuelCase_init name ff rf)).
Proof.
  apply (addDV_calls_ind (fun _ fc => names_resolve fc)).
  - intros k n Hkn. simpl in Hkn. by rewrite lookup_empty in Hkn.
  - intros _ c fc. apply names_resolve_step.
Qed.


Lemma size_whitelisted (m : gmap string string) :
  (∀ k, is_Some (m !! k) → k ∈ possibleDVs) → (size m ≤ 2)%nat.
Proof.
  intros Hwf. rewrite <- size_dom.
  transitivity (size (list_to_set possibleDVs : gset string)).
  - apply subseteq_size. intros k Hk. apply elem_of_list_to_set, Hwf.
    by apply elem_of_dom.
  - by vm_compute.
Qed.

(** C8, as the code has it.  After any sequence of [addDV] calls on a new
    fuel case, every key of [DVNames] is one of the two fractions, so
    [DVNames] holds at most two entries, one variable name per key, and each
    of these names has an entry in [DVs].  A further call with an admitted
    key overwrites [DVNames[key]] and writes the entry of [DVs] under the
    name it resolves to: it replaces the earlier DV of that key only when
    that DV was stored under the same name, and leaves every entry stored
    under another name in place. *)
Theorem addDV_one_name_per_key (name : string) (ff rf : R) calls c :
  let fc := addDV_calls calls (FuelCase_init name ff rf) in
  let fc' := after (call_addDV fc c) in
  let dvName := addDV_dvName fc (c_key c) (c_name c) (c_axis c) in
  (∀ k n, DVNames fc !! k = Some n → k ∈ possibleDVs ∧ is_Some (DVs fc !! n))
  ∧ (size (DVNames fc) ≤ 2)%nat
  ∧ (c_key c ∈ possibleDVs →
       DVNames fc' = <[c_key c := dvName]> (DVNames fc)
       ∧ (∃ dv, DVs fc' = <[dvName := dv]> (DVs fc) ∧ dv_key dv = c_key c)
       ∧ (DVNames fc !! c_key c = Some dvName → dom (DVs fc') = dom (DVs fc))
       ∧ (∀ n, n ≠ dvName → DVs fc' !! n = DVs fc !! n)).
Proof.
  intros fc fc' dvName.
  pose proof (addDV_calls_names_resolve calls name ff rf) as Hwf. fold fc in Hwf.
  split_and!.
  - exact Hwf.
  - apply size_whitelisted. intros k [n Hn]. by destruct (Hwf k n Hn).
  - intros Hkey. subst fc'.
    destruct (after_call_addDV fc c) as [[Hnin _]|[_ [v ->]]]; [done|]. simpl.
    fold dvName. split_and!.
    + done.
    + by eexists.
    + intros Hsame. destruct (Hwf _ _ Hsame) as [_ Hsome].
      rewrite dom_insert_L. apply subseteq_union_1_L.
      by apply singleton_subseteq_l, elem_of_dom.
    + intros n Hn. by rewrite lookup_insert_ne.
Qed.

End CallFacts.

(** C8, as the claim has it, fails: after [addDV('fuelFraction')] and
    [addDV('fuelFraction', name='shared')] the entries of [DVs] under
    [climb_fuelFraction] and under [shared] both carry the key
    [fuelFraction]. *)
Lemma addDV_two_entries_same_key :
  ¬ one_DV_per_key
      (addDV_calls
         [mk_DVCall "fuelFraction" None None None 1%Q None 0%Q None true;
          mk_DVCall "fuelFraction" None None None 1%Q (Some "shared") 0%Q None true]
         (FuelCase_init "climb" 0.9%Q 0.1%Q)).
Proof.
  intros Hone.
  specialize (Hone "climb_fuelFraction" "shared"
    (mk_fuelCaseDV "fuelFraction" 0.9%Q None None 1%Q 0%Q true)
    (mk_fuelCaseDV "fuelFraction" 0.9%Q None None 1%Q 0%Q true)).
  discriminate Hone; reflexivity.
Qed.

Lemma addDV_one_name_per_key_witness :
  let fc : FuelCase Q :=
    addDV_calls [mk_DVCall "fuelFraction" None None None 1%Q None 0%Q None true]
      (FuelCase_init "climb" 0.9%Q 0.1%Q) in
  let c := mk_DVCall "fuelFraction" None None None 1%Q (Some "shared") 0%Q None true in
  c_key c ∈ possibleDVs
  ∧ DVNames (after (call_addDV fc c)) = <[c_key c := "shared"]> (DVNames fc)
  ∧ DVs (after (call_addDV fc c)) !! "climb_fuelFraction"
    = DVs fc !! "climb_fuelFraction".
Proof.
  intros fc c.
  assert (c_key c ∈ possibleDVs) as Hkey by (apply elem_of_possibleDVs; by left).
  split; [exact Hkey|].
  destruct (addDV_one_name_per_key "climb" 0.9%Q 0.1%Q
              [mk_DVCall "fuelFraction" None None None 1%Q None 0%Q None true] c)
    as (_ & _ & Hcall).
  destruct (Hcall Hkey) as (Hnames & _ & _ & Hkeep).
  split; [exact Hnames | by apply Hkeep].
Defined.

(** ** The variable names of the constraint *)

Section ConstraintNames.
Context {R : Type} `{Scalar R}.
Implicit Types (fc : FuelCase R) (c : DVCall R) (calls : list (DVCall R))
  (optProb : list (Con R)).





End ConstraintNames.

(** ** The constraint on concrete fuel cases *)

(** Both fractions registered, in the problem [prob]. *)
Lemma both_fractions_one_constraint_witness :
  let fc : FuelCase Q :=
    addDV_calls
      [mk_DVCall "fuelFraction" None (Some 0%Q) (Some 1%Q) 1%Q None 0%Q None true;
       mk_DVCall "reserveFraction" None (Some 0%Q) (Some 1%Q) 1%Q None 0%Q None true]
      (FuelCase_init "climb" 0.9%Q 0.1%Q) in
  addLinearConstraint fc [] "prob"
  = [mk_Con "prob_climb_fuelcase" 0%Q 1%Q 1%Q true
       ["prob_climb_fuelFraction"; "prob_climb_reserveFraction"]
       (<["prob_climb_reserveFraction" := [[1%Q]]]>
          (<["prob_climb_fuelFraction" := [[1%Q]]]> ∅))].
Proof.
  intros fc.
  refine (proj1 (both_fractions_one_constraint (C := PlainComponent) fc [] "prob"
                   _ _)); vm_compute; eauto.
Defined.

(** The specification's test: [fuelFraction] fixed at 0.9,
    [reserveFraction] a DV. *)
Lemma one_fraction_degenerate_constraint_witness :
  let fc : FuelCase Q :=
    addDV_calls
      [mk_DVCall "reserveFraction" None (Some 0%Q) (Some 1%Q) 1%Q None 0%Q None true]
      (FuelCase_init "climb" 0.9%Q 0.1%Q) in
  addLinearConstraint fc [] "prob"
  = [mk_Con "prob_climb_fuelcase" 0%Q 0.1%Q 1%Q true
       ["prob_climb_reserveFraction"]
       (<["prob_climb_reserveFraction" := [[1%Q]]]> ∅)].
Proof.
  intros fc.
  refine (proj1 (one_fraction_degenerate_constraint fc [] "prob" _) _ _).
  - intros k [n Hn]. by destruct (addDV_calls_names_resolve _ _ _ _ k n Hn).
  - vm_compute. eauto.
  - reflexivity.
Defined.


(** ** Registration *)

Section Registration.
Context {R : Type} `{Scalar R} {C : Type} `{Component R C}.
Implicit Types (p : WeightProblem R) (h : Heap R C) (l : loc).

(** C1, on the code.  A component or a fuel case passed bare, not in a
    list, is refused: its type is its class, which is neither [list] nor
    [object], so both methods raise [Error] and register nothing.  The same
    entity in a one-element list is registered. *)
Theorem bare_entity_is_refused p h l :
  (∀ fc, h l = OCase fc →
     addFuelCases (ARef l) (p, h) = Raised (Error addFuelCases_message) (p, h)
     ∧ ∃ p', addFuelCases (AList [l]) (p, h) = Done (p', h)
             ∧ fuelcases p' = (fuelcases p ++ [l])%list)
  ∧ (∀ c, h l = OComp c →
     addComponents (ARef l) (p, h) = Raised (Error addComponents_message) (p, h)
     ∧ ∃ p' h', addComponents (AList [l]) (p, h) = Done (p', h')
                ∧ components p'
                  = <[comp_name (setUnitSystem (units p) c) := l]> (components p)).
Proof.
  split.
  - intros fc Hl. split.
    + unfold addFuelCases, check_argument. simpl. by rewrite Hl.
    + unfold addFuelCases, check_argument. simpl. rewrite Hl. simpl. eauto.
  - intros c Hl. split.
    + unfold addComponents, check_argument. simpl. by rewrite Hl.
    + unfold addComponents, check_argument. simpl. rewrite Hl. simpl. eauto.
Qed.

End Registration.

(** [prob.addFuelCases(climb)] and [prob.addComponents(wing)] raise. *)
Lemma bare_entity_is_refused_witness :
  addFuelCases (ARef 1) demo_fresh = Raised (Error addFuelCases_message) demo_fresh
  ∧ addComponents (ARef 0) demo_fresh
    = Raised (Error addComponents_message) demo_fresh.
Proof.
  destruct (bare_entity_is_refused (WeightProblem_init "prob" "SI" None) demo_heap 1)
    as [Hcase _].
  destruct (bare_entity_is_refused (WeightProblem_init "prob" "SI" None) demo_heap 0)
    as [_ Hcomp].
  split.
  - exact (proj1 (Hcase demo_climb eq_refl)).
  - exact (proj1 (Hcomp demo_wing eq_refl)).
Defined.

(** ** setDesignVars *)

Section Apply.
Context {R : Type} `{Scalar R} {C : Type} `{Component R C}.
Implicit Types (p : WeightProblem R) (h : Heap R C) (l : loc)
  (x : gmap string R) (fc : FuelCase R).

Lemma registered_component p l :
  l ∈ (map_to_list (components p)).*2 → registered p l.
Proof.
  intros ([k' l'] & -> & Hin)%list_elem_of_fmap. left. exists k'.
  by apply elem_of_map_to_list.
Qed.

(** C7.  When no registered component or fuel case has a DV whose variable
    name [problemName_key] is in [x], [setDesignVars] returns without an
    exception and the whole state is as before: the problem with its
    [currentDVs], and every object of the heap with its attributes and DV
    values. *)
Theorem setDesignVars_unrelated_names p h x :
  (∀ l, registered p l →
     ∃ dvs, entity_DVs (h l) = Some dvs
       ∧ ∀ key, is_Some (dvs !! key) → x !! ((name p +:+ "_") +:+ key) = None) →
  setDesignVars x (p, h) = Done (p, h).
Proof.
  intros Hnone.
  assert (∀ l, registered p l → setDesignVars_entity x l (p, h) = Done (p, h))
    as Hentity.
  { intros l Hl. destruct (Hnone l Hl) as (dvs & Hdvs & Hkeys).
    unfold setDesignVars_entity. simpl. rewrite Hdvs.
    apply for_each_skip. intros key Hkey%elem_of_keys.
    unfold setDesignVars_key. by rewrite (Hkeys key Hkey). }
  unfold setDesignVars. simpl.
  rewrite for_each_skip; simpl.
  - apply for_each_skip. intros l Hl. apply Hentity. by right.
  - intros l Hl. by apply Hentity, (registered_component p).
Qed.

End Apply.

(** A vector with names of another problem only. *)
Lemma setDesignVars_unrelated_names_witness :
  setDesignVars ({["other_climb_fuelFraction" := 0.5%Q]} : gmap string Q) demo_state
  = Done demo_state.
Proof.
  apply (setDesignVars_unrelated_names demo_state.1 demo_state.2).
  intros l [[k Hk]|Hl].
  - assert (l = 0) as ->.
    { change (components demo_state.1) with ({["wing" := 0]} : gmap string loc) in Hk.
      apply lookup_singleton_Some in Hk. by destruct Hk. }
    eexists. split; [reflexivity|]. intros key [v Hv]. simpl in Hv.
    apply lookup_singleton_Some in Hv as [<- _]. reflexivity.
  - apply list_elem_of_singleton in Hl as ->.
    eexists. split; [reflexivity|]. intros key [v Hv].
    change (dv_value <$> DVs demo_climb) with
      ({["climb_fuelFraction" := 0.9%Q]} : gmap string Q) in Hv.
    apply lookup_singleton_Some in Hv as [<- _]. reflexivity.
Defined.

(** ** _getComponentKeys *)

Section SelectionFacts.
Context {R : Type} `{Scalar R} {C : Type} `{Component R C}.
Implicit Types (st : state R C) (ts : list string).

(** The loop of the [includeType] filter adds the keys of matching type. *)
Lemma include_type_loop st ts (keys : list string) (acc : gset string) :
  (∀ key, key ∈ keys → ∃ t, compType_at st key = inr t) →
  for_each keys
    (fun key weightKeysTmp =>
       match compType_at st key with
       | inl e => Raised e weightKeysTmp
       | inr t =>
           if bool_decide (t ∈ ts)
           then Done ({[key]} ∪ weightKeysTmp)
           else Done weightKeysTmp
       end) acc
  = Done (acc ∪ filter (has_type_in st ts) (list_to_set keys)).
Proof.
  revert acc. induction keys as [|k keys IH]; intros acc Htyped; simpl.
  - f_equal. apply set_eq. intros y.
    rewrite elem_of_union, elem_of_filter, elem_of_empty. tauto.
  - destruct (Htyped k) as [t Ht]; [left|]. rewrite Ht.
    assert (∀ key, key ∈ keys → ∃ t, compType_at st key = inr t) as Htail.
    { intros key Hkey. apply Htyped. by right. }
    case_bool_decide as Hin; simpl; rewrite (IH _ Htail); f_equal;
      apply set_eq; intros y;
      rewrite !elem_of_union, !elem_of_filter, elem_of_union, elem_of_singleton.
    + split; [|tauto]. intros [[->|?]|?]; [|tauto..].
      right. split; [|by left]. exists t. done.
    + split; [tauto|]. intros [?|[Hy [->|?]]]; [tauto| |tauto].
      destruct Hy as (t' & Ht' & Hin'). congruence.
Qed.

(** The loop of the [excludeType] filter removes them. *)
Lemma exclude_type_loop st ts (keys : list string) (acc : gset string) :
  (∀ key, key ∈ keys → ∃ t, compType_at st key = inr t) →
  for_each keys
    (fun key weightKeysTmp =>
       match compType_at st key with
       | inl e => Raised e weightKeysTmp
       | inr t =>
           if bool_decide (t ∈ ts)
           then Done (weightKeysTmp ∖ {[key]})
           else Done weightKeysTmp
       end) acc
  = Done (acc ∖ filter (has_type_in st ts) (list_to_set keys)).
Proof.
  revert acc. induction keys as [|k keys IH]; intros acc Htyped; simpl.
  - f_equal. apply set_eq. intros y.
    rewrite elem_of_difference, elem_of_filter, elem_of_empty. tauto.
  - destruct (Htyped k) as [t Ht]; [left|]. rewrite Ht.
    assert (∀ key, key ∈ keys → ∃ t, compType_at st key = inr t) as Htail.
    { intros key Hkey. apply Htyped. by right. }
    case_bool_decide as Hin; simpl; rewrite (IH _ Htail); f_equal;
      apply set_eq; intros y;
      rewrite !elem_of_difference, !elem_of_filter, elem_of_union,
        elem_of_singleton.
    + split.
      * intros [[Hy Hne] Hnot]. split; [done|]. intros [Hty [Heq|?]]; [done|tauto].
      * intros [Hy Hnot]. split_and!; [done| |tauto].
        intros ->. apply Hnot. split; [|by left]. by exists t.
    + split; [|tauto]. intros [Hy Hnot]. split; [done|].
      intros [Hty [->|?]]; [|tauto].
      destruct Hty as (t' & Ht' & Hin'). congruence.
Qed.

(** C6.  When every registered name refers to a component,
    [_getComponentKeys] returns, without an exception, the set obtained
    from all registered names by the four filters in the order [includeType],
    [include], [exclude], [excludeType]; a filter given as a string acts as
    the one-element collection of that string.  For components [A] and [B]
    of type [wing] and [C] of type [fuel], [includeType="wing"] with
    [exclude="A"] gives the set [{B}]. *)
Theorem getComponentKeys_filters_in_order st
    (include exclude includeType excludeType : option names) :
  (∀ key, key ∈ dom (components st.1) → ∃ t, compType_at st key = inr t) →
  _getComponentKeys st include exclude includeType excludeType
  = Done (selectComponentKeys st include exclude includeType excludeType)
  ∧ _getComponentKeys st include exclude includeType excludeType
    = _getComponentKeys st (Coll ∘ as_list <$> include) (Coll ∘ as_list <$> exclude)
        (Coll ∘ as_list <$> includeType) (Coll ∘ as_list <$> excludeType)
  ∧ (dom (components st.1) = {["A"; "B"; "C"]} →
     compType_at st "A" = inr "wing" → compType_at st "B" = inr "wing" →
     compType_at st "C" = inr "fuel" →
     _getComponentKeys st None (Some (Str "A")) (Some (Str "wing")) None
     = Done {["B"]}).
Proof.
  intros Htyped.
  assert (∀ (K : gset string) key, K ⊆ dom (components st.1) → key ∈ elements K →
            ∃ t, compType_at st key = inr t) as Hsub.
  { intros K key HK Hkey. apply Htyped, HK. by apply elem_of_elements. }
  assert (∀ inc exc incT excT,
            _getComponentKeys st inc exc incT excT
            = Done (selectComponentKeys st inc exc incT excT)) as Hrun.
  { intros inc exc incT excT. unfold _getComponentKeys, selectComponentKeys.
    set (all := dom (components st.1)).
    set (narrowed := match incT with
                     | Some ts => filter (has_type_in st (as_list ts)) all
                     | None => all
                     end).
    assert (narrowed ⊆ all) as Hnarrowed.
    { subst narrowed. destruct incT; [|done]. intros y Hy.
      by apply elem_of_filter in Hy as [_ ?]. }
    assert (match incT with
            | Some ts =>
                for_each (elements all)
                  (fun key weightKeysTmp =>
                     match compType_at st key with
                     | inl e => Raised e weightKeysTmp
                     | inr t =>
                         if bool_decide (t ∈ as_list ts)
                         then Done ({[key]} ∪ weightKeysTmp)
                         else Done weightKeysTmp
                     end) ∅
            | None => Done all
            end = Done narrowed) as ->.
    { subst narrowed. destruct incT as [ts|]; [|done].
      rewrite include_type_loop by (intros key; by apply (Hsub all)).
      f_equal. by rewrite list_to_set_elements_L, (left_id_L ∅ (∪)). }
    simpl.
    set (subtracted := match exc with
                       | Some ns => _
                       | None => _
                       end).
    assert (subtracted ⊆ all) as Hsubtracted.
    { subst subtracted. intros y Hy. apply Hnarrowed.
      destruct exc, inc;
        repeat (apply elem_of_difference in Hy as [Hy _]
                || apply elem_of_intersection in Hy as [Hy _]); done. }
    destruct excT as [ts|]; [|done].
    rewrite exclude_type_loop by (intros key; by apply (Hsub subtracted)).
    f_equal. rewrite list_to_set_elements_L. apply set_eq. intros y.
    rewrite elem_of_difference, !elem_of_filter. tauto. }
  split_and!.
  - apply Hrun.
  - by destruct include as [[]|], exclude as [[]|], includeType as [[]|],
      excludeType as [[]|].
  - intros Hdom HA HB HC. rewrite Hrun. f_equal.
    unfold selectComponentKeys. rewrite Hdom. simpl.
    apply set_eq. intros y.
    rewrite elem_of_difference, elem_of_filter, !elem_of_union,
      !elem_of_singleton, elem_of_empty.
    unfold has_type_in. split.
    + intros [[(t & Ht & Hin) [[->| ->]| ->]] Hne]; [tauto|done|].
      rewrite HC in Ht. injection Ht as <-.
      by apply list_elem_of_singleton in Hin.
    + intros ->. split_and!; [|auto|intros [[=]|[]]].
      exists "wing". split; [done|]. by apply list_elem_of_singleton.
Qed.

End SelectionFacts.

(** The specification's test of the filters. *)
Lemma getComponentKeys_filters_in_order_witness :
  _getComponentKeys abc_state None (Some (Str "A")) (Some (Str "wing")) None
  = Done {["B"]}.
Proof.
  assert (dom (components abc_state.1) = ({["A"; "B"; "C"]} : gset string)) as Hdom
    by (by vm_compute).
  refine (proj2 (proj2 (getComponentKeys_filters_in_order abc_state None None None
                          None _)) Hdom eq_refl eq_refl eq_refl).
  intros key. rewrite Hdom, !elem_of_union, !elem_of_singleton.
  intros [[->| ->]| ->]; eexists; reflexivity.
Defined.

(** ** The cache of current values *)

Section Cache.
Context {R : Type}.
Implicit Types (cur dvs : gmap string R) (l : list (string * R)).

Lemma cache_fold_other (pname key : string) l cur :
  (∀ d v, (d, v) ∈ l → key ≠ (pname +:+ "_") +:+ d) →
  foldl (fun cur '(dvName, v) => <[(pname +:+ "_") +:+ dvName := v]> cur) cur l
    !! key = cur !! key.
Proof.
  revert cur. induction l as [|[d v] l IH]; intros cur Hother; simpl; [done|].
  rewrite IH.
  - apply lookup_insert_ne. intros Heq. apply (Hother d v); [left | done].
  - intros d' v' Hin. apply (Hother d' v'). by right.
Qed.

Lemma cache_fold_own (pname d : string) (v : R) l cur :
  NoDup l.*1 → (d, v) ∈ l →
  foldl (fun cur '(dvName, v) => <[(pname +:+ "_") +:+ dvName := v]> cur) cur l
    !! ((pname +:+ "_") +:+ d) = Some v.
Proof.
  revert cur. induction l as [|[d0 v0] l IH]; intros cur Hnodup Hin; simpl.
  - by inversion Hin.
  - simpl in Hnodup. apply NoDup_cons in Hnodup as [Hfresh Hnodup].
    apply elem_of_cons in Hin as [[= <- <-]|Hin].
    + rewrite cache_fold_other; [apply lookup_insert_eq|].
      intros d' v' Hin' Heq%(inj _). subst d'. apply Hfresh.
      apply list_elem_of_fmap. by exists (d, v').
    + by apply IH.
Qed.

Lemma cache_fold_dom (pname : string) l cur :
  dom (foldl (fun cur '(dvName, v) => <[(pname +:+ "_") +:+ dvName := v]> cur) cur l)
  = list_to_set ((fun d => (pname +:+ "_") +:+ d) <$> l.*1) ∪ dom cur.
Proof.
  revert cur. induction l as [|[d v] l IH]; intros cur; simpl.
  - by rewrite (left_id_L ∅ (∪)).
  - rewrite IH, dom_insert_L. apply set_eq. intros y.
    rewrite !elem_of_union. tauto.
Qed.

(** An entry of the cache after the registration loop: the value of the
    entity's DV for a name of the entity, the earlier entry otherwise. *)
Lemma cache_DVs_own (pname d : string) (v : R) dvs cur :
  dvs !! d = Some v → cache_DVs pname dvs cur !! ((pname +:+ "_") +:+ d) = Some v.
Proof.
  intros Hd. apply cache_fold_own.
  - apply NoDup_fst_map_to_list.
  - by apply elem_of_map_to_list.
Qed.

Lemma cache_DVs_other (pname key : string) dvs cur :
  (∀ d, is_Some (dvs !! d) → key ≠ (pname +:+ "_") +:+ d) →
  cache_DVs pname dvs cur !! key = cur !! key.
Proof.
  intros Hother. apply cache_fold_other. intros d v Hin%elem_of_map_to_list.
  apply Hother. eauto.
Qed.

Lemma cache_DVs_dom (pname : string) dvs cur :
  dom (cache_DVs pname dvs cur)
  = set_map (fun d => (pname +:+ "_") +:+ d) (dom dvs) ∪ dom cur.
Proof.
  unfold cache_DVs. rewrite cache_fold_dom. f_equal. apply set_eq. intros y.
  rewrite elem_of_list_to_set, elem_of_map, list_elem_of_fmap.
  split; intros (d & -> & Hd); exists d; (split; [done|]).
  - by apply elem_of_dom, elem_of_keys.
  - by apply elem_of_keys, elem_of_dom.
Qed.

Lemma cache_DVs_twice (pname : string) dvs cur :
  cache_DVs pname dvs (cache_DVs pname dvs cur) = cache_DVs pname dvs cur.
Proof.
  apply map_eq. intros key.
  destruct (decide (key ∈ (set_map (fun d => (pname +:+ "_") +:+ d) (dom dvs)
                            : gset string))) as [Hin|Hnin].
  - apply elem_of_map in Hin as (d & -> & [v Hv]%elem_of_dom).
    by rewrite !(cache_DVs_own _ _ v).
  - apply cache_DVs_other. intros d Hd ->. apply Hnin, elem_of_map.
    exists d. split; [done|]. by apply elem_of_dom.
Qed.

End Cache.

Section Reregistration.
Context {R : Type} `{Scalar R} {C : Type} `{Component R C}.
Implicit Types (p : WeightProblem R) (h : Heap R C) (l : loc).

(** C9.  Registering the component at [l] a second time, when its
    [setUnitSystem] keeps its name and the names of its DVs: both calls
    return; the second leaves [components] as the first left it, with the
    one entry for the component's name, and [fuelcases] too; [currentDVs]
    has the same keys as after the first call, and every entry that is not
    a variable of this component has the same value.  If the second
    [setUnitSystem] also keeps the DV values, the problem after the second
    call is the problem after the first. *)
Theorem addComponents_again p h l (c : C) :
  h l = OComp c →
  let c1 := setUnitSystem (units p) c in
  let c2 := setUnitSystem (units p) c1 in
  comp_name c2 = comp_name c1 →
  dom (comp_DVs c2) = dom (comp_DVs c1) →
  ∃ p1 h1 p2 h2,
    addComponents (AList [l]) (p, h) = Done (p1, h1)
    ∧ addComponents (AList [l]) (p1, h1) = Done (p2, h2)
    ∧ components p1 !! comp_name c1 = Some l
    ∧ components p2 = components p1
    ∧ fuelcases p2 = fuelcases p1
    ∧ dom (currentDVs p2) = dom (currentDVs p1)
    ∧ (∀ key, (∀ d, is_Some (comp_DVs c1 !! d) → key ≠ (name p +:+ "_") +:+ d) →
         currentDVs p2 !! key = currentDVs p1 !! key)
    ∧ (comp_DVs c2 = comp_DVs c1 → p2 = p1).
Proof.
  intros Hl c1 c2 Hname Hdom.
  eexists _, _, _, _. split_and!.
  - unfold addComponents, check_argument. simpl. rewrite Hl. simpl. reflexivity.
  - unfold addComponents, check_argument. simpl. unfold heap_set at 1.
    rewrite decide_True by done. simpl. reflexivity.
  - simpl. apply lookup_insert_eq.
  - simpl. fold c1 c2. rewrite Hname. apply insert_insert_eq.
  - done.
  - simpl. fold c1 c2. rewrite !cache_DVs_dom, Hdom. apply set_eq. intros y.
    rewrite !elem_of_union. tauto.
  - intros key Hother. simpl. fold c1 c2. apply cache_DVs_other.
    intros d Hd. apply Hother. by rewrite <- elem_of_dom, <- Hdom, elem_of_dom.
  - intros Hsame. simpl. fold c1 c2.
    rewrite Hname, Hsame, insert_insert_eq, cache_DVs_twice. done.
Qed.

End Reregistration.

(** The wing registered twice in [prob]. *)
Lemma addComponents_again_witness :
  ∃ st1 st2,
    addComponents (AList [0]) demo_fresh = Done st1
    ∧ addComponents (AList [0]) st1 = Done st2
    ∧ components st1.1 !! "wing" = Some 0
    ∧ st2.1 = st1.1.
Proof.
  destruct (addComponents_again (WeightProblem_init "prob" "SI" None) demo_heap 0
              demo_wing)
    as (p1 & h1 & p2 & h2 & Hfirst & Hsecond & Hentry & _ & _ & _ & _ & Hidem);
    [reflexivity..|].
  exists (p1, h1), (p2, h2). split_and!; [done..|]. by apply Hidem.
Defined.

(** ** A value vector applied to a fuel case *)

Section ApplyCase.
Context {R : Type} `{Scalar R}.
Implicit Types (fc s : FuelCase R) (k key dvName : string) (o xv : R).

(** One iteration of FuelCase.setDesignVars with the one-entry vector
    [{key: xv}] that the problem passes, on an entry of [DVNames]. *)
Lemma setDesignVars_body_single key xv (k' n' : string) s :
  is_Some (DVs s !! key) →
  (n' ≠ key ∧ setDesignVars_body {[key := xv]} (k', n') s = Done s)
  ∨ (n' = key
     ∧ ∃ dv, DVs s !! key = Some dv
         ∧ setDesignVars_body {[key := xv]} (k', n') s
           = Done (set_DVs (setattr s k' (s_add xv (dv_offset dv)))
                     (<[key := set_value dv xv]> (DVs s)))).
Proof.
  intros [dv Hdv]. unfold setDesignVars_body.
  destruct (decide (n' = key)) as [->|Hne].
  - right. split; [done|]. exists dv. split; [done|].
    rewrite lookup_singleton_eq.
    assert (DVs (setattr s k' (s_add xv (dv_offset dv))) = DVs s) as Hsame.
    { unfold setattr. by repeat case_decide. }
    by rewrite Hdv, Hsame.
  - left. split; [done|]. by rewrite lookup_singleton_ne.
Qed.

Lemma setattr_fields s (k' : string) (v : R) :
  fc_name (setattr s k' v) = fc_name s ∧ DVs (setattr s k' v) = DVs s
  ∧ DVNames (setattr s k' v) = DVNames s.
Proof. unfold setattr. by repeat case_decide. Qed.

Lemma dom_insert_present {V : Type} (m : gmap string V) (i : string) (v : V) :
  is_Some (m !! i) → dom (<[i := v]> m) = dom m.
Proof.
  intros Hi. rewrite dom_insert_L. apply subseteq_union_1_L.
  by apply singleton_subseteq_l, elem_of_dom.
Qed.

(** FuelCase.setDesignVars with [{key: xv}], for a name [key] of [DVs]:
    it returns, and keeps the names, the keys and the entries of [DVs]
    present. *)
Lemma FuelCase_setDesignVars_single fc key xv :
  is_Some (DVs fc !! key) →
  ∃ fc', FuelCase_setDesignVars fc {[key := xv]} = Done fc'
    ∧ fc_name fc' = fc_name fc ∧ DVNames fc' = DVNames fc
    ∧ dom (DVs fc') = dom (DVs fc).
Proof.
  intros Hkey. unfold FuelCase_setDesignVars.
  destruct (for_each_invariant
    (fun s => fc_name s = fc_name fc ∧ DVNames s = DVNames fc
              ∧ dom (DVs s) = dom (DVs fc))
    (map_to_list (DVNames fc)) (setDesignVars_body {[key := xv]}))
    with (s := fc) as (fc' & Hrun & Hinv); [|done|by exists fc'].
  intros [k' n'] s _ (Hname & Hnames & Hdom).
  assert (is_Some (DVs s !! key)) as Hs by by rewrite <- elem_of_dom, Hdom, elem_of_dom.
  destruct (setDesignVars_body_single key xv k' n' s Hs)
    as [[_ ->]|[_ (dv & Hdv & ->)]]; [by exists s|].
  eexists. split; [done|]. simpl.
  destruct (setattr_fields s k' (s_add xv (dv_offset dv))) as (-> & _ & ->).
  split_and!; [done..|]. by rewrite dom_insert_present.
Qed.

(** The same call on a case that tracks the key [k]: the tracking stays;
    a call for another name keeps [k] in sync; the call for the name of [k]
    brings it in sync with the value of the vector. *)
Lemma FuelCase_setDesignVars_tracked fc key xv k dvName o v2 :
  k ∈ possibleDVs → tracks k dvName o fc → is_Some (DVs fc !! key) →
  ∃ fc', FuelCase_setDesignVars fc {[key := xv]} = Done fc'
    ∧ dom (DVs fc') = dom (DVs fc)
    ∧ tracks k dvName o fc'
    ∧ (key ≠ dvName → synced k dvName o v2 fc → synced k dvName o v2 fc')
    ∧ (key = dvName → xv = v2 → synced k dvName o v2 fc').
Proof.
  intros Hk Htracks Hkey. unfold FuelCase_setDesignVars.
  (* one iteration, on a state that has the names and DV names of [fc] *)
  assert (∀ (k' n' : string) s,
    (k', n') ∈ map_to_list (DVNames fc) →
    DVNames s = DVNames fc ∧ dom (DVs s) = dom (DVs fc) ∧ tracks k dvName o s →
    ∃ s', setDesignVars_body {[key := xv]} (k', n') s = Done s'
      ∧ (DVNames s' = DVNames fc ∧ dom (DVs s') = dom (DVs fc) ∧ tracks k dvName o s')
      ∧ (key ≠ dvName → synced k dvName o v2 s → synced k dvName o v2 s')
      ∧ (key = dvName → xv = v2 →
           (synced k dvName o v2 s → synced k dvName o v2 s')
           ∧ ((k', n') = (k, dvName) → synced k dvName o v2 s'))) as Hbody.
  { intros k' n' s Hentry (Hnames & Hdom & Hks & dv0 & Hdv0 & Ho).
    apply elem_of_map_to_list in Hentry.
    assert (is_Some (DVs s !! key)) as Hs
      by by rewrite <- elem_of_dom, Hdom, elem_of_dom.
    destruct (setDesignVars_body_single key xv k' n' s Hs)
      as [[Hne ->]|[-> (dv & Hdv & ->)]].
    - exists s. split; [done|]. split; [by repeat split; try exists dv0|].
      split; [done|]. intros -> _. split; [done|]. intros [= -> ->]. done.
    - destruct (setattr_fields s k' (s_add xv (dv_offset dv))) as (Hn & Hd & Hdn).
      eexists. split; [done|]. split_and!.
      + simpl. by rewrite Hdn.
      + simpl. by rewrite dom_insert_present.
      + split; [simpl; by rewrite Hdn|]. simpl.
        destruct (decide (key = dvName)) as [->|Hne].
        * rewrite lookup_insert_eq. eexists. split; [done|]. simpl. congruence.
        * rewrite lookup_insert_ne by done. by exists dv0.
      + intros Hne [Hattr (dv1 & Hdv1 & Hval)]. split.
        * assert (k ≠ k') as Hkk by (intros ->; congruence).
          rewrite <- Hattr. apply (getattr_setattr_ne s k k' _ Hkk).
        * simpl. rewrite lookup_insert_ne by done. by exists dv1.
      + intros -> ->. assert (dv = dv0) as -> by congruence.
        assert (∃ dv1, DVs (set_DVs (setattr s k' (s_add v2 (dv_offset dv0)))
                              (<[dvName := set_value dv0 v2]> (DVs s))) !! dvName
                       = Some dv1 ∧ dv_value dv1 = v2) as Hval.
        { simpl. rewrite lookup_insert_eq. by eexists. }
        split.
        * intros [Hattr _]. split; [|done].
          destruct (decide (k = k')) as [<-|Hkk].
          -- rewrite <- Ho. apply (getattr_setattr_eq s k _ Hk).
          -- rewrite <- Hattr. apply (getattr_setattr_ne s k k' _ Hkk).
        * intros [= ->]. split; [|done].
          rewrite <- Ho. apply (getattr_setattr_eq s k _ Hk). }
  destruct Htracks as (Hks & dv0 & Hdv0 & Ho).
  assert (tracks k dvName o fc) as Htracks by (split; [done|by exists dv0]).
  destruct (decide (key = dvName)) as [Heq|Hne].
  - destruct (for_each_establishes
      (fun s => DVNames s = DVNames fc ∧ dom (DVs s) = dom (DVs fc)
                ∧ tracks k dvName o s)
      (fun s => xv = v2 → synced k dvName o v2 s) (k, dvName)
      (map_to_list (DVNames fc)) (setDesignVars_body {[key := xv]}))
      with (s := fc) as (fc' & Hrun & (_ & Hdom & Htr) & HG); [|done|].
    { intros [k' n'] s Hentry Hinv.
      destruct (Hbody k' n' s Hentry Hinv) as (s' & Hs' & Hinv' & _ & Hest).
      exists s'. split; [done|]. split; [done|]. split.
      - intros Hsync Hxv. destruct (Hest Heq Hxv) as [Hkeep _]. by apply Hkeep, Hsync.
      - intros Hx0 Hxv. destruct (Hest Heq Hxv) as [_ Hset]. by apply Hset. }
    exists fc'. split_and!; try done. intros _ Hxv. apply HG; [|done]. right.
    by apply elem_of_map_to_list.
  - destruct (for_each_invariant
      (fun s => (DVNames s = DVNames fc ∧ dom (DVs s) = dom (DVs fc)
                 ∧ tracks k dvName o s)
                ∧ (synced k dvName o v2 fc → synced k dvName o v2 s))
      (map_to_list (DVNames fc)) (setDesignVars_body {[key := xv]}))
      with (s := fc) as (fc' & Hrun & ((_ & Hdom & Htr) & Hsync)); [|done|].
    { intros [k' n'] s Hentry [Hinv Hsync].
      destruct (Hbody k' n' s Hentry Hinv) as (s' & Hs' & Hinv' & Hkeep & _).
      exists s'. split; [done|]. split; [done|]. intros Hfc.
      by apply (Hkeep Hne), Hsync. }
    exists fc'. split_and!; [done..|].
    intros Heq. by destruct Hne.
Qed.

End ApplyCase.

(** ** A value vector applied to a problem *)

Section ApplyProblem.
Context {R : Type} `{Scalar R} {C : Type} `{Component R C}.
Implicit Types (p : WeightProblem R) (h : Heap R C) (l : loc)
  (x : gmap string R) (st : state R C) (k key dvName : string).

Lemma heap_set_same h l (o : obj R C) : heap_set h l o l = o.
Proof. unfold heap_set. by rewrite decide_True. Qed.

Lemma heap_set_other h l l' (o : obj R C) : l' ≠ l → heap_set h l o l' = h l'.
Proof. intros Hne. unfold heap_set. by rewrite decide_False. Qed.

Lemma registry_ok_heap_set p h l (o : obj R C) :
  is_Some (entity_DVs o) → registry_ok p h → registry_ok p (heap_set h l o).
Proof.
  intros Ho Hreg l' Hl'. unfold heap_set. case_decide; [done | by apply Hreg].
Qed.

(** One iteration of an inner loop of setDesignVars. *)
Lemma setDesignVars_key_step p0 l k dvName (o v2 : R) x (l' : loc)
    (ks : list string) key st :
  k ∈ possibleDVs → x !! variable_name (name p0) dvName = Some v2 →
  key ∈ ks →
  apply_inv p0 l k dvName o st → is_Some (entity_DVs (st.2 l')) →
  keys_present l' ks st →
  ∃ st', setDesignVars_key x l' key st = Done st'
    ∧ apply_inv p0 l k dvName o st' ∧ is_Some (entity_DVs (st'.2 l'))
    ∧ keys_present l' ks st'
    ∧ (apply_goal p0 l k dvName o v2 st → apply_goal p0 l k dvName o v2 st')
    ∧ (l' = l → key = dvName → apply_goal p0 l k dvName o v2 st').
Proof.
  intros Hk Hv2 Hkey Hinv Hent Hkeys. destruct st as [p h].
  destruct Hinv as (Hname & Hcomps & Hcases & Hreg & fc & Hl & Htr).
  simpl in *. unfold setDesignVars_key. rewrite Hname.
  unfold variable_name in Hv2.
  destruct (x !! ((name p0 +:+ "_") +:+ key)) as [xv|] eqn:Hx.
  2:{ exists (p, h). split_and!; try done.
      - split_and!; try done. by exists fc.
      - intros -> ->. congruence. }
  assert (∀ cur : gmap string R,
            cur !! ((name p0 +:+ "_") +:+ dvName) = Some v2 ∨ key = dvName →
            <[(name p0 +:+ "_") +:+ key := xv]> cur
              !! ((name p0 +:+ "_") +:+ dvName) = Some v2) as Hcache.
  { intros cur Hcur. rewrite lookup_insert. case_decide as Heq.
    - rewrite Heq in Hx. congruence.
    - destruct Hcur as [?| ->]; done. }
  destruct (h l') as [c|fc'| |t] eqn:Hl'; simpl in Hent;
    try (by destruct Hent as [? [=]]); simpl.
  - (* a component *)
    assert (l ≠ l') as Hne by (intros ->; congruence).
    eexists. split; [done|]. split_and!.
    + split_and!; try done;
      simpl_state.
      * by apply registry_ok_heap_set.
      * exists fc. by rewrite heap_set_other.
    + simpl_state. by rewrite heap_set_same.
    + intros fc'' Hfc''. simpl_state. by rewrite heap_set_same in Hfc''.
    + intros [(fc1 & Hfc1 & Hsync) Hcur]. split; simpl_state.
      * exists fc1. by rewrite heap_set_other.
      * simpl_state. apply Hcache. by left.
    + intros ->. congruence.
  - (* a fuel case *)
    pose proof (Hkeys fc' Hl' key Hkey) as Hsome.
    destruct (decide (l' = l)) as [->|Hne].
    + assert (fc' = fc) as -> by congruence.
      destruct (FuelCase_setDesignVars_tracked fc key xv k dvName o v2 Hk Htr Hsome)
        as (fc'' & -> & Hdom & Htr' & Hkeep & Hest).
      eexists. split; [done|]. split_and!.
      * split_and!; try done;
      simpl_state.
        -- by apply registry_ok_heap_set.
        -- exists fc''. by rewrite heap_set_same.
      * simpl_state. by rewrite heap_set_same.
      * intros fc1 Hfc1 key' Hkey'. simpl_state. rewrite heap_set_same in Hfc1.
        injection Hfc1 as <-. rewrite <- elem_of_dom, Hdom, elem_of_dom.
        by apply (Hkeys fc Hl).
      * intros [(fc1 & Hfc1 & Hsync) Hcur]. simpl_state.
        assert (fc1 = fc) as -> by congruence. split; simpl_state.
        -- exists fc''. rewrite heap_set_same. split; [done|].
           destruct (decide (key = dvName)) as [->|Hkd].
           ++ apply Hest; [done|]. congruence.
           ++ by apply Hkeep.
        -- simpl_state. apply Hcache. by left.
      * intros _ ->. split;
      simpl_state.
        -- exists fc''. rewrite heap_set_same. split; [done|].
           apply Hest; [done|]. congruence.
        -- apply Hcache. by right.
    + destruct (FuelCase_setDesignVars_single fc' key xv Hsome)
        as (fc'' & -> & _ & _ & Hdom).
      eexists. split; [done|]. split_and!.
      * split_and!; try done;
      simpl_state.
        -- by apply registry_ok_heap_set.
        -- exists fc. by rewrite heap_set_other.
      * simpl_state. by rewrite heap_set_same.
      * intros fc1 Hfc1 key' Hkey'. simpl_state. rewrite heap_set_same in Hfc1.
        injection Hfc1 as <-. rewrite <- elem_of_dom, Hdom, elem_of_dom.
        by apply (Hkeys fc' Hl').
      * intros [(fc1 & Hfc1 & Hsync) Hcur]. split; simpl_state.
        -- exists fc1. by rewrite heap_set_other.
        -- simpl_state. apply Hcache. by left.
      * intros ->. done.
Qed.

(** One iteration of an outer loop of setDesignVars. *)
Lemma setDesignVars_entity_step p0 l k dvName (o v2 : R) x (l' : loc) st :
  k ∈ possibleDVs → x !! variable_name (name p0) dvName = Some v2 →
  registered p0 l' → apply_inv p0 l k dvName o st →
  ∃ st', setDesignVars_entity x l' st = Done st'
    ∧ apply_inv p0 l k dvName o st'
    ∧ (apply_goal p0 l k dvName o v2 st → apply_goal p0 l k dvName o v2 st')
    ∧ (l' = l → apply_goal p0 l k dvName o v2 st').
Proof.
  intros Hk Hv2 Hl' Hinv.
  pose proof Hinv as (_ & _ & _ & Hreg & fc & Hl & Htr).
  destruct (Hreg l' Hl') as [dvs Hdvs].
  unfold setDesignVars_entity. rewrite Hdvs.
  destruct (for_each_establishes
    (fun s => apply_inv p0 l k dvName o s ∧ is_Some (entity_DVs (s.2 l'))
              ∧ keys_present l' (map_to_list dvs).*1 s
              ∧ (apply_goal p0 l k dvName o v2 st → apply_goal p0 l k dvName o v2 s))
    (fun s => l' = l → apply_goal p0 l k dvName o v2 s) dvName
    (map_to_list dvs).*1 (setDesignVars_key x l'))
    with (s := st) as (st' & Hrun & (Hinv' & _ & _ & Hkeep) & Hest).
  - intros key s Hkey (Hs & Hent & Hkeys & Hgoal).
    destruct (setDesignVars_key_step p0 l k dvName o v2 x l' _ key s Hk Hv2 Hkey Hs
                Hent Hkeys) as (s' & Hs' & Hinv' & Hent' & Hkeys' & Hkeep & Hest).
    exists s'. split; [done|]. split; [|split].
    + split_and!; try done. intros Hst. by apply Hkeep, Hgoal.
    + intros Hg Hll. by apply Hkeep, Hg.
    + intros -> ->. by apply Hest.
  - split; [done|]. split; [by rewrite Hdvs|]. split; [|done].
    intros fc' Hfc' key Hkey. rewrite Hfc' in Hdvs. injection Hdvs as <-.
    apply elem_of_keys in Hkey. rewrite lookup_fmap in Hkey.
    by apply fmap_is_Some in Hkey.
  - exists st'. split_and!; try done. intros ->. apply Hest; [|done]. right.
    destruct Htr as (_ & dv & Hdv & _). rewrite Hl in Hdvs. injection Hdvs as <-.
    apply elem_of_keys. rewrite lookup_fmap, Hdv. by eexists.
Qed.

(** C2, as the code has it.  In a problem whose registered objects are
    components and fuel cases, take a registered fuel case whose [DVNames]
    gives the key [k] the name [dvName], and let [dv] be the DV stored under
    that name.  [setDesignVars] with a vector that gives [v2]
    to the variable [problemName_dvName] (the vector may hold other names
    too) returns; afterwards the attribute [k] of the case is
    [v2 + dv.offset], the DV holds the value [v2] with its offset unchanged,
    and [currentDVs] holds [v2] for the variable. *)
Theorem setDesignVars_reaches_fuel_case p h x l (fc : FuelCase R) k dvName
    (dv : fuelCaseDV R) (v2 : R) :
  registry_ok p h → l ∈ fuelcases p → h l = OCase fc →
  k ∈ possibleDVs → DVNames fc !! k = Some dvName → DVs fc !! dvName = Some dv →
  x !! variable_name (name p) dvName = Some v2 →
  ∃ p' h' fc' dv',
    setDesignVars x (p, h) = Done (p', h')
    ∧ h' l = OCase fc'
    ∧ getattr fc' k = Some (s_add v2 (dv_offset dv))
    ∧ DVs fc' !! dvName = Some dv' ∧ dv_value dv' = v2
    ∧ dv_offset dv' = dv_offset dv
    ∧ currentDVs p' !! variable_name (name p) dvName = Some v2.
Proof.
  intros Hreg Hcase Hl Hk Hname Hdv Hv2.
  assert (apply_inv p l k dvName (dv_offset dv) (p, h)) as Hinv.
  { split_and!; try done. exists fc. split; [done|]. split; [done|]. by exists dv. }
  unfold setDesignVars.
  destruct (for_each_establishes (apply_inv p l k dvName (dv_offset dv))
    (apply_goal p l k dvName (dv_offset dv) v2) l
    (map_to_list (components (p, h).1)).*2 (setDesignVars_entity x))
    with (s := (p, h)) as (st1 & -> & Hinv1 & Hgoal1); [|done|].
  { intros l' st Hl' Hst.
    by apply setDesignVars_entity_step; [..|apply registered_component|]. }
  cbn [bind]. pose proof Hinv1 as (_ & _ & Hcases1 & _).
  destruct (for_each_establishes (apply_inv p l k dvName (dv_offset dv))
    (apply_goal p l k dvName (dv_offset dv) v2) l
    (fuelcases st1.1) (setDesignVars_entity x))
    with (s := st1) as ([p' h'] & -> & Hinv2 & Hgoal2); [|done|].
  { intros l' st Hl' Hst. rewrite Hcases1 in Hl'.
    by apply setDesignVars_entity_step; [..|right|]. }
  destruct Hgoal2 as [(fc' & Hfc' & Hattr & dv' & Hdv' & Hval) Hcur].
  { right. by rewrite Hcases1. }
  destruct Hinv2 as (_ & _ & _ & _ & fc2 & Hfc2 & _ & dv2 & Hdv2 & Hoff).
  simpl in *. assert (fc2 = fc') as -> by congruence.
  assert (dv2 = dv') as -> by congruence.
  by exists p', h', fc', dv'.
Qed.

End ApplyProblem.

(** The vector [{prob_climb_fuelFraction: 0.5}] on [prob]: the DV has the
    offset 0.1, so the attribute becomes 0.6. *)
Lemma setDesignVars_reaches_fuel_case_witness :
  ∃ p' h' fc' dv',
    setDesignVars ({["prob_climb_fuelFraction" := 0.5%Q]} : gmap string Q) demo_state
    = Done (p', h')
    ∧ h' 1 = OCase fc'
    ∧ getattr fc' "fuelFraction" = Some (3 # 5)%Q
    ∧ DVs fc' !! "climb_fuelFraction" = Some dv' ∧ dv_value dv' = 0.5%Q
    ∧ dv_offset dv' = 0.1%Q
    ∧ currentDVs p' !! "prob_climb_fuelFraction" = Some 0.5%Q.
Proof.
  refine (setDesignVars_reaches_fuel_case demo_state.1 demo_state.2
            {["prob_climb_fuelFraction" := 0.5%Q]} 1 demo_climb "fuelFraction"
            "climb_fuelFraction"
            (mk_fuelCaseDV "fuelFraction" 0.9%Q (Some 0%Q) (Some 1%Q) 1%Q 0.1%Q true)
            0.5%Q _ _ _ _ _ _ _); try reflexivity.
  - intros l [[k Hk]|Hl].
    + change (components demo_state.1) with ({["wing" := 0]} : gmap string loc) in Hk.
      apply lookup_singleton_Some in Hk as [_ <-]. by eexists.
    + apply list_elem_of_singleton in Hl as ->. by eexists.
  - apply list_elem_of_here.
  - apply elem_of_possibleDVs. by left.
Defined.

(** C2, as the claim has it, fails.  After [addDV('fuelFraction')] and
    [addDV('fuelFraction', name='shared')] the DV under
    [climb_fuelFraction] is still in [DVs], with the key [fuelFraction],
    and [DVNames] names [shared] for that key.  [setDesignVars] with
    [{prob_climb_fuelFraction: 0.5}] returns and writes 0.5 to
    [currentDVs], and the fuel case is as before: the attribute
    [fuelFraction] and the value of the DV are still 0.9. *)
Lemma setDesignVars_misses_renamed_DV : ¬ round_trip_of_every_DV renamed_state.
Proof.
  intros Hall.
  assert (1 ∈ fuelcases renamed_state.1) as Hcases by (vm_compute; left).
  assert (renamed_state.2 1 = OCase renamed_climb) as Hobj
    by (vm_compute; reflexivity).
  assert (DVs renamed_climb !! "climb_fuelFraction"
          = Some (mk_fuelCaseDV "fuelFraction" 0.9%Q None None 1%Q 0%Q true))
    as Hdv by (vm_compute; reflexivity).
  destruct (Hall 1 renamed_climb "climb_fuelFraction"
              (mk_fuelCaseDV "fuelFraction" 0.9%Q None None 1%Q 0%Q true) 0.5%Q
              Hcases Hobj Hdv)
    as (st' & fc' & dv' & Hrun & Hfc' & Hattr & _).
  change (variable_name (name renamed_state.1) "climb_fuelFraction")
    with "prob_climb_fuelFraction" in Hrun.
  assert (setDesignVars ({["prob_climb_fuelFraction" := 0.5%Q]} : gmap string Q)
            renamed_state
          = Done (after (setDesignVars
                           ({["prob_climb_fuelFraction" := 0.5%Q]} : gmap string Q)
                           renamed_state))) as Hdone
    by (vm_compute; reflexivity).
  rewrite Hdone in Hrun. apply (f_equal after) in Hrun. cbn [after] in Hrun.
  subst st'.
  assert ((after (setDesignVars
                    ({["prob_climb_fuelFraction" := 0.5%Q]} : gmap string Q)
                    renamed_state)).2 1 = OCase renamed_climb) as Hcase
    by (vm_compute; reflexivity).
  rewrite Hcase in Hfc'.
  assert (fc' = renamed_climb) as -> by congruence.
  vm_compute in Hattr. discriminate Hattr.
Qed.

(** The same call, as it runs: the cache holds 0.5 for the variable, the
    fuel case still has the fraction 0.9. *)
Lemma setDesignVars_renamed_DV_run :
  ∃ p' h',
    setDesignVars ({["prob_climb_fuelFraction" := 0.5%Q]} : gmap string Q)
      renamed_state = Done (p', h')
    ∧ currentDVs p' !! "prob_climb_fuelFraction" = Some 0.5%Q
    ∧ h' 1 = OCase renamed_climb
    ∧ getattr renamed_climb "fuelFraction" = Some 0.9%Q
    ∧ DVNames renamed_climb !! "fuelFraction" = Some "shared".
Proof. eexists _, _. split_and!; vm_compute; reflexivity. Qed.

(** * Further properties of the registration methods *)

Lemma for_each_raises_at {A S : Type} (xs1 xs2 : list A) (x : A)
    (body : A → S → outcome S) (s s1 s2 : S) (e : exn) :
  for_each xs1 body s = Done s1 → body x s1 = Raised e s2 →
  for_each (xs1 ++ x :: xs2)%list body s = Raised e s2.
Proof. intros Hrun Hx. rewrite for_each_app, Hrun. simpl. by rewrite Hx. Qed.

(** What a loop that returns keeps, when each iteration that returns keeps
    it. *)
Lemma for_each_preserves {A S : Type} (Inv : S → Prop) (xs : list A)
    (body : A → S → outcome S) :
  (∀ x s s', x ∈ xs → Inv s → body x s = Done s' → Inv s') →
  ∀ s s', Inv s → for_each xs body s = Done s' → Inv s'.
Proof.
  induction xs as [|x xs IH]; intros Hbody s s' Hs; simpl.
  - by intros [= <-].
  - destruct (body x s) as [s1|e s1] eqn:Hx; simpl; [|done].
    apply IH; [|by apply (Hbody x s); [left|..]].
    intros y t t' Hy. apply Hbody. by right.
Qed.

Section RegistrationFacts.
Context {R : Type} `{Scalar R} {C : Type} `{Component R C}.
Implicit Types (p : WeightProblem R) (h : Heap R C) (l : loc) (ls : list loc)
  (st : state R C).

Lemma addComponents_AList ls st :
  addComponents (AList ls) st = for_each ls addComponents_body st.
Proof. done. Qed.

Lemma addFuelCases_AList ls st :
  addFuelCases (AList ls) st = for_each ls addFuelCases_body st.
Proof. done. Qed.

(** One iteration of addComponents changes the heap at its component only
    and replaces this component by a component. *)
Lemma addComponents_body_heap l st st' l' :
  addComponents_body l st = Done st' →
  (l' ≠ l → st'.2 l' = st.2 l')
  ∧ ((∃ c, st.2 l' = OComp c) ↔ (∃ c, st'.2 l' = OComp c)).
Proof.
  destruct st as [p h]. unfold addComponents_body.
  destruct (h l) as [c| | |] eqn:Hl; try done. intros [= <-]. simpl. split.
  - intros Hne. unfold heap_set. by rewrite decide_False.
  - unfold heap_set. case_decide as Hll; [|done]. subst l'.
    split; intros _; eauto.
Qed.

(** X1.  A list with an object that is no component: the components before it
    are registered as by a call with them alone, then AttributeError is
    raised; the object and everything after it are not registered. *)
Theorem addComponents_stops_at_non_component p h ls1 l ls2 st1 :
  addComponents (AList ls1) (p, h) = Done st1 →
  (∀ c, h l ≠ OComp c) →
  addComponents (AList (ls1 ++ l :: ls2)) (p, h) = Raised AttributeError st1.
Proof.
  rewrite !addComponents_AList. intros Hrun Hl.
  apply (for_each_raises_at _ _ _ _ _ _ _ _ Hrun).
  assert (∀ c, st1.2 l ≠ OComp c) as Hl1.
  { apply (for_each_preserves (fun st => ∀ c, st.2 l ≠ OComp c) ls1
             addComponents_body) with (s := (p, h)); [|done|done].
    intros l0 s s' _ Hs Hbody c Hc.
    destruct (addComponents_body_heap l0 s s' l Hbody) as [_ Hkind].
    destruct (proj2 Hkind (ex_intro _ c Hc)) as [c0 Hc0]. by apply (Hs c0). }
  destruct st1 as [p1 h1]. unfold addComponents_body. simpl in Hl1.
  destruct (h1 l) as [c| | |] eqn:Hh1; try done. by destruct (Hl1 c).
Qed.

(** X2.  addFuelCases with a list that holds an object without [DVs]: the
    cases before it are registered as by a call with them alone, then
    AttributeError is raised; the object is already in [fuelcases] by then,
    and everything after it is not registered. *)
Theorem addFuelCases_appends_before_failing p h ls1 l ls2 p1 h1 :
  addFuelCases (AList ls1) (p, h) = Done (p1, h1) →
  entity_DVs (h l) = None →
  h1 = h
  ∧ addFuelCases (AList (ls1 ++ l :: ls2)) (p, h)
    = Raised AttributeError (set_fuelcases p1 (fuelcases p1 ++ [l]), h).
Proof.
  rewrite !addFuelCases_AList. intros Hrun Hl.
  assert (h1 = h) as ->.
  { apply (for_each_preserves (fun st : state R C => st.2 = h) ls1
             addFuelCases_body) with (s := (p, h)) (s' := (p1, h1)); [|done|done].
    intros l0 [p0 h0] s' _ Hs. simpl in Hs. subst h0. unfold addFuelCases_body.
    destruct (entity_DVs (h l0)); [|done]. by intros [= <-]. }
  split; [done|].
  apply (for_each_raises_at _ _ _ _ _ _ _ _ Hrun).
  unfold addFuelCases_body. by rewrite Hl.
Qed.

(** X3.  An argument that is not a list is never registered: both methods raise
    Error, or, for a direct instance of [object], AttributeError, and
    addFuelCases has then appended the object to [fuelcases]. *)
Theorem bare_argument_never_registered p h l :
  (∃ e, addComponents (ARef l) (p, h) = Raised e (p, h)
        ∧ (h l = OObject → e = AttributeError)
        ∧ (h l ≠ OObject → e = Error addComponents_message))
  ∧ (∃ e p', addFuelCases (ARef l) (p, h) = Raised e (p', h)
        ∧ components p' = components p ∧ currentDVs p' = currentDVs p
        ∧ (h l = OObject →
             e = AttributeError ∧ fuelcases p' = (fuelcases p ++ [l])%list)
        ∧ (h l ≠ OObject → e = Error addFuelCases_message ∧ p' = p)).
Proof.
  split.
  - unfold addComponents, check_argument. simpl.
    destruct (h l) as [c|fc| |t] eqn:Hl; simpl.
    + eexists. split; [done|]. by split.
    + eexists. split; [done|]. by split.
    + rewrite Hl. eexists. split; [done|]. by split.
    + eexists. split; [done|]. by split.
  - unfold addFuelCases, check_argument. simpl.
    destruct (h l) as [c|fc| |t] eqn:Hl; simpl.
    + eexists _, _. split; [done|]. by split_and!.
    + eexists _, _. split; [done|]. by split_and!.
    + rewrite Hl. simpl. eexists _, _. split; [done|]. by split_and!.
    + eexists _, _. split; [done|]. by split_and!.
Qed.

End RegistrationFacts.

Section RegistrationLists.
Context {R : Type} `{Scalar R} {C : Type} `{Component R C}.
Implicit Types (p : WeightProblem R) (h : Heap R C) (l : loc) (ls : list loc)
  (st : state R C).

Lemma variable_name_inj (pname d1 d2 : string) :
  variable_name pname d1 = variable_name pname d2 → d1 = d2.
Proof. unfold variable_name. apply (inj _). Qed.

(** One iteration of addFuelCases on an object with [DVs]. *)
Lemma addFuelCases_body_entity l p h (dvs : gmap string R) :
  entity_DVs (h l) = Some dvs →
  addFuelCases_body l (p, h)
  = Done (mk_WeightProblem (name p) (units p) (components p)
            (fuelcases p ++ [l])%list (cache_DVs (name p) dvs (currentDVs p))
            (solveFailed p) (evalFuncs p), h).
Proof. intros Hl. unfold addFuelCases_body. by rewrite Hl. Qed.

(** X4.  addFuelCases with a list of objects that have [DVs] (fuel cases, or
    components): it returns; the references are appended to [fuelcases] in
    the order of the list, duplicates included; the heap and [components] are
    as before; an entry of [currentDVs] that is no variable of a listed
    object is as before, and a variable of a listed object holds the value
    of its DV, the last listed object with that variable winning. *)
Theorem addFuelCases_list p h ls :
  (∀ l, l ∈ ls → is_Some (entity_DVs (h l))) →
  ∃ p', addFuelCases (AList ls) (p, h) = Done (p', h)
    ∧ name p' = name p ∧ units p' = units p ∧ components p' = components p
    ∧ fuelcases p' = (fuelcases p ++ ls)%list
    ∧ (∀ key,
         (∀ l dvs d, l ∈ ls → entity_DVs (h l) = Some dvs → is_Some (dvs !! d) →
            key ≠ variable_name (name p) d) →
         currentDVs p' !! key = currentDVs p !! key)
    ∧ (∀ ls1 l ls2 dvs d v,
         ls = (ls1 ++ l :: ls2)%list → entity_DVs (h l) = Some dvs →
         dvs !! d = Some v →
         (∀ l2 dvs2, l2 ∈ ls2 → entity_DVs (h l2) = Some dvs2 → dvs2 !! d = None) →
         currentDVs p' !! variable_name (name p) d = Some v).
Proof.
  rewrite addFuelCases_AList. revert p.
  induction ls as [|l0 ls IH]; intros p Hall.
  - exists p. simpl. split_and!; try done.
    + by rewrite app_nil_r.
    + intros ls1 l ls2 dvs d v Hls. by destruct ls1.
  - destruct (Hall l0) as [dvs0 Hdvs0]; [left|].
    cbn [for_each]. rewrite (addFuelCases_body_entity l0 p h dvs0 Hdvs0). cbn [bind].
    set (p0 := mk_WeightProblem _ _ _ _ _ _ _).
    destruct (IH p0) as (p' & -> & Hname & Hunits & Hcomps & Hcases & Hother & Hown).
    { intros l Hl. apply Hall. by right. }
    exists p'. split; [done|]. split_and!; try done.
    + rewrite Hcases. simpl. by rewrite <- app_assoc.
    + intros key Hkey. rewrite Hother.
      * simpl. apply cache_DVs_other. intros d Hd. apply (Hkey l0 dvs0 d); [left|..];
          done.
      * intros l dvs d Hl. apply Hkey. by right.
    + intros ls1 l ls2 dvs d v Hls Hdvs Hd Hlater.
      destruct ls1 as [|l1 ls1]; simpl in Hls; injection Hls as <- ->.
      * rewrite Hother.
        -- simpl. rewrite Hdvs0 in Hdvs. injection Hdvs as <-.
           by apply cache_DVs_own.
        -- intros l2 dvs2 d2 Hl2 Hdvs2 Hd2 Heq. apply variable_name_inj in Heq.
           subst d2. rewrite (Hlater l2 dvs2 Hl2 Hdvs2) in Hd2. by destruct Hd2.
      * by apply (Hown ls1 l ls2 dvs d v).
Qed.

(** One iteration of addComponents on a component. *)
Lemma addComponents_body_component l p h (c : C) :
  h l = OComp c →
  addComponents_body l (p, h)
  = Done (mk_WeightProblem (name p) (units p)
            (<[comp_name (setUnitSystem (units p) c) := l]> (components p))
            (fuelcases p)
            (cache_DVs (name p) (comp_DVs (setUnitSystem (units p) c)) (currentDVs p))
            (solveFailed p) (evalFuncs p),
          heap_set h l (OComp (setUnitSystem (units p) c))).
Proof. intros Hl. unfold addComponents_body. by rewrite Hl. Qed.

(** The run of addComponents over a list of components. *)
Lemma addComponents_run_of_list p h ls :
  (∀ u (c : C), comp_name (setUnitSystem u c) = comp_name c) →
  (∀ l, l ∈ ls → ∃ c, h l = OComp c) →
  ∃ p' h', addComponents (AList ls) (p, h) = Done (p', h')
    ∧ name p' = name p ∧ units p' = units p ∧ fuelcases p' = fuelcases p
    ∧ (∀ l, l ∉ ls → h' l = h l)
    ∧ (∀ l c, h l = OComp c →
         ∃ c', h' l = OComp c' ∧ comp_name c' = comp_name c
           ∧ (l ∈ ls → ∃ c'', c' = setUnitSystem (units p) c''))
    ∧ (∀ ls1 l ls2 c,
         ls = (ls1 ++ l :: ls2)%list → h l = OComp c →
         (∀ l2 c2, l2 ∈ ls2 → h l2 = OComp c2 → comp_name c2 ≠ comp_name c) →
         components p' !! comp_name c = Some l)
    ∧ (∀ n, (∀ l c, l ∈ ls → h l = OComp c → comp_name c ≠ n) →
         components p' !! n = components p !! n)
    ∧ dom (components p') = dom (components p) ∪ list_to_set (component_names h ls).
Proof.
  intros Hkeep. rewrite addComponents_AList. revert p h.
  induction ls as [|l0 ls IH]; intros p h Hall.
  - exists p, h. simpl. split_and!; try done.
    + intros l c Hl. exists c. split_and!; [done..|]. intros Hin. by inversion Hin.
    + intros ls1 l ls2 c Hls. by destruct ls1.
    + unfold component_names. simpl. by rewrite (right_id_L ∅ (∪)).
  - destruct (Hall l0) as [c0 Hc0]; [left|].
    cbn [for_each]. rewrite (addComponents_body_component l0 p h c0 Hc0). cbn [bind].
    set (u := units p). set (c0' := setUnitSystem u c0).
    set (h0 := heap_set h l0 (OComp c0')).
    set (p0 := mk_WeightProblem _ _ _ _ _ _ _).
    (* the heap after the first iteration has the components of [h], with
       their names *)
    assert (∀ l c, h l = OComp c → ∃ c1, h0 l = OComp c1 ∧ comp_name c1 = comp_name c)
      as Hfwd.
    { intros l c Hl. subst h0. unfold heap_set. case_decide as Hll.
      - subst l. exists c0'. split; [done|]. subst c0'. rewrite Hkeep. congruence.
      - by exists c. }
    assert (∀ l c1, h0 l = OComp c1 → ∃ c, h l = OComp c ∧ comp_name c1 = comp_name c)
      as Hbwd.
    { intros l c1. subst h0. unfold heap_set. case_decide as Hll.
      - subst l. intros [= <-]. exists c0. split; [done|]. subst c0'. by rewrite Hkeep.
      - intros Hl. by exists c1. }
    destruct (IH p0 h0) as (p' & h' & -> & Hname & Hunits & Hcases & Hout & Hin
                            & Hlast & Hother & Hdom).
    { intros l Hl. destruct (Hall l) as [c Hc]; [by right|].
      destruct (Hfwd l c Hc) as (c1 & Hc1 & _). by exists c1. }
    exists p', h'. split; [done|]. split_and!; try done.
    + intros l Hl. apply not_elem_of_cons in Hl as [Hne Hl].
      rewrite (Hout l Hl). subst h0. unfold heap_set. by rewrite decide_False.
    + intros l c Hl. destruct (Hfwd l c Hl) as (c1 & Hc1 & Hn1).
      destruct (Hin l c1 Hc1) as (c' & Hc' & Hn' & Hset).
      exists c'. split_and!; [done|congruence|].
      intros [->|Hls]%elem_of_cons; [|by apply Hset].
      destruct (decide (l0 ∈ ls)) as [Hl0|Hl0]; [by apply Hset|].
      rewrite (Hout l0 Hl0) in Hc'. subst h0. unfold heap_set in Hc'.
      rewrite decide_True in Hc' by done. injection Hc' as <-. by exists c0.
    + intros ls1 l ls2 c Hls Hl Hlater.
      destruct (Hfwd l c Hl) as (c1 & Hc1 & Hn1).
      destruct ls1 as [|l1 ls1]; simpl in Hls; injection Hls as <- ->.
      * rewrite Hother.
        -- subst p0. simpl. assert (c = c0) as -> by congruence.
           subst c0'. rewrite Hkeep. apply lookup_insert_eq.
        -- intros l2 c2 Hl2 Hc2 Heq. destruct (Hbwd l2 c2 Hc2) as (c2' & Hc2' & Hn2).
           apply (Hlater l2 c2' Hl2 Hc2'). congruence.
      * rewrite <- Hn1. apply (Hlast ls1 l ls2 c1 eq_refl Hc1).
        intros l2 c2 Hl2 Hc2 Heq. destruct (Hbwd l2 c2 Hc2) as (c2' & Hc2' & Hn2).
        apply (Hlater l2 c2' Hl2 Hc2'). congruence.
    + intros n Hn. rewrite Hother.
      * subst p0. simpl. apply lookup_insert_ne. subst c0'. rewrite Hkeep.
        apply (Hn l0 c0); [left|done].
      * intros l c1 Hl Hc1. destruct (Hbwd l c1 Hc1) as (c & Hc & Hnc).
        rewrite Hnc. apply (Hn l c); [by right|done].
    + rewrite Hdom. subst p0. simpl. rewrite dom_insert_L.
      assert (component_names h0 ls = component_names h ls) as ->.
      { unfold component_names. clear -Hfwd Hbwd Hkeep.
        induction ls as [|l ls IHls]; [done|]. csimpl. rewrite IHls. f_equal.
        destruct (h l) as [c| | |] eqn:Hl.
        - destruct (Hfwd l c Hl) as (c1 & -> & ->). done.
        - destruct (h0 l) as [c1| | |] eqn:Hl0; try done.
          destruct (Hbwd l c1 Hl0) as (c & Hc & _). congruence.
        - destruct (h0 l) as [c1| | |] eqn:Hl0; try done.
          destruct (Hbwd l c1 Hl0) as (c & Hc & _). congruence.
        - destruct (h0 l) as [c1| | |] eqn:Hl0; try done.
          destruct (Hbwd l c1 Hl0) as (c & Hc & _). congruence. }
      unfold component_names at 2. csimpl. rewrite Hc0. csimpl.
      subst c0'. rewrite Hkeep. fold (component_names h ls).
      apply set_eq. intros y. rewrite !elem_of_union. tauto.
Qed.

Lemma component_names_length h ls :
  (∀ l, l ∈ ls → ∃ c, h l = OComp c) → length (component_names h ls) = length ls.
Proof.
  unfold component_names. induction ls as [|l ls IH]; intros Hall; [done|].
  csimpl. destruct (Hall l) as [c ->]; [left|]. simpl. f_equal.
  apply IH. intros l' Hl'. apply Hall. by right.
Qed.

(** X5.  addComponents with a list of components whose [setUnitSystem] keeps
    their names: it returns; every listed component has received the
    problem's unit system and keeps its name, the other objects are as
    before; a listed component is registered under its name unless a later
    one of the list has the same name; the other names are as before; and
    when the names of the list are distinct and new, _getNumComponents grows
    by the length of the list. *)
Theorem addComponents_list p h ls :
  (∀ u (c : C), comp_name (setUnitSystem u c) = comp_name c) →
  (∀ l, l ∈ ls → ∃ c, h l = OComp c) →
  ∃ p' h', addComponents (AList ls) (p, h) = Done (p', h')
    ∧ name p' = name p ∧ units p' = units p ∧ fuelcases p' = fuelcases p
    ∧ (∀ l, l ∉ ls → h' l = h l)
    ∧ (∀ l c, h l = OComp c →
         ∃ c', h' l = OComp c' ∧ comp_name c' = comp_name c
           ∧ (l ∈ ls → ∃ c'', c' = setUnitSystem (units p) c''))
    ∧ (∀ ls1 l ls2 c,
         ls = (ls1 ++ l :: ls2)%list → h l = OComp c →
         (∀ l2 c2, l2 ∈ ls2 → h l2 = OComp c2 → comp_name c2 ≠ comp_name c) →
         components p' !! comp_name c = Some l)
    ∧ (∀ n, (∀ l c, l ∈ ls → h l = OComp c → comp_name c ≠ n) →
         components p' !! n = components p !! n)
    ∧ (NoDup (component_names h ls) →
       (∀ n, n ∈ component_names h ls → components p !! n = None) →
       _getNumComponents p' = (_getNumComponents p + length ls)%nat).
Proof.
  intros Hkeep Hall.
  destruct (addComponents_run_of_list p h ls Hkeep Hall)
    as (p' & h' & Hrun & Hname & Hunits & Hcases & Hout & Hin & Hlast & Hother & Hdom).
  exists p', h'. split_and!; try done.
  intros Hnodup Hfresh. unfold _getNumComponents.
  rewrite <- !size_dom, Hdom, size_union.
  - by rewrite size_list_to_set, component_names_length.
  - intros n Hn Hn'. apply elem_of_list_to_set in Hn'. apply elem_of_dom in Hn.
    rewrite (Hfresh n Hn') in Hn. by destruct Hn.
Qed.

End RegistrationLists.

(** [prob.addComponents([wing, climb])]: the wing is registered, the fuel
    case stops the call. *)
Lemma addComponents_stops_at_non_component_witness :
  addComponents (AList [0; 1]) demo_fresh
  = Raised AttributeError (after (addComponents (AList [0]) demo_fresh)).
Proof.
  apply (addComponents_stops_at_non_component (WeightProblem_init "prob" "SI" None)
           demo_heap [0] 1 []); [reflexivity|].
  intros c. discriminate.
Defined.

(** [prob.addFuelCases([climb, 'str'])]: the string is in [fuelcases] when
    the call raises. *)
Lemma addFuelCases_appends_before_failing_witness :
  ∃ p1, addFuelCases (AList [1]) demo_fresh = Done (p1, demo_heap)
    ∧ addFuelCases (AList [1; 3]) demo_fresh
      = Raised AttributeError (set_fuelcases p1 [1; 3], demo_heap).
Proof.
  eexists. split; [reflexivity|].
  refine (proj2 (addFuelCases_appends_before_failing
                   (WeightProblem_init "prob" "SI" None) demo_heap [1] 3 [] _
                   demo_heap _ _)); reflexivity.
Defined.

(** [prob.addFuelCases([climb, climb])]: two entries in [fuelcases], the
    value 0.9 of the DV in the cache. *)
Lemma addFuelCases_list_witness :
  ∃ p', addFuelCases (AList [1; 1]) demo_fresh = Done (p', demo_heap)
    ∧ fuelcases p' = [1; 1]
    ∧ currentDVs p' !! "prob_climb_fuelFraction" = Some 0.9%Q.
Proof.
  destruct (addFuelCases_list (WeightProblem_init "prob" "SI" None) demo_heap [1; 1])
    as (p' & Hrun & _ & _ & _ & Hcases & _ & Hown).
  { intros l [->|[->|[]%elem_of_nil]%elem_of_cons]%elem_of_cons; by eexists. }
  exists p'. split_and!; [done..|].
  apply (Hown [1] 1 [] _ "climb_fuelFraction" 0.9%Q eq_refl eq_refl); [reflexivity|].
  intros l2 dvs2 []%elem_of_nil.
Defined.

(** [prob.addComponents([A, B, C])] on a new problem: three components. *)
Lemma addComponents_list_witness :
  ∃ p' h', addComponents (AList [0; 1; 2]) (WeightProblem_init "prob" "SI" None, abc_heap)
           = Done (p', h')
    ∧ components p' !! "B" = Some 1
    ∧ _getNumComponents p' = 3.
Proof.
  destruct (addComponents_list (WeightProblem_init "prob" "SI" None) abc_heap
              [0; 1; 2])
    as (p' & h' & Hrun & _ & _ & _ & _ & _ & Hlast & _ & Hcount).
  { done. }
  { intros l [->|[->|[->|[]%elem_of_nil]%elem_of_cons]%elem_of_cons]%elem_of_cons;
      by eexists. }
  exists p', h'. split_and!; [done| |].
  - apply (Hlast [0] 1 [2] (mk_PlainComponent "B" "wing" ∅ "") eq_refl eq_refl).
    intros l2 c2 ->%list_elem_of_singleton [= <-]. discriminate.
  - apply Hcount.
    + by apply (bool_decide_unpack _).
    + intros n Hn. reflexivity.
Defined.

(** * Further properties of setDesignVars *)

Section ApplyTotal.
Context {R : Type} `{Scalar R} {C : Type} `{Component R C}.
Implicit Types (p : WeightProblem R) (h : Heap R C) (l : loc)
  (x : gmap string R) (st : state R C).

Lemma entity_of_type (o1 o2 : obj R C) :
  type_of_obj o1 = type_of_obj o2 →
  is_Some (entity_DVs o1) → is_Some (entity_DVs o2).
Proof. destruct o1, o2; simpl; try done; by intros _ [? [=]]. Qed.

(** One iteration of an inner loop of setDesignVars, on any registered
    entity. *)
Lemma setDesignVars_key_frame p h x (l' : loc) (ks : list string)
    (key : string) st :
  is_Some (entity_DVs (h l')) → registered p l' → key ∈ ks →
  apply_frame x p h st → keys_present l' ks st →
  ∃ st', setDesignVars_key x l' key st = Done st'
    ∧ apply_frame x p h st' ∧ keys_present l' ks st'.
Proof.
  intros Hreg Hl' Hkey Hinv Hkeys. destruct st as [p1 h1].
  destruct Hinv as (Hname & Hunits & Hcomps & Hcases & Hkind & Hout & Hcache).
  simpl in *. unfold setDesignVars_key.
  destruct (x !! ((name p1 +:+ "_") +:+ key)) as [xv|] eqn:Hx.
  2:{ exists (p1, h1). by split_and!. }
  assert (is_Some (entity_DVs (h1 l'))) as Hent.
  { apply (entity_of_type (h l')); [by rewrite Hkind | done]. }
  assert (∀ n, <[(name p1 +:+ "_") +:+ key := xv]> (currentDVs p1) !! n
               = currentDVs p !! n
               ∨ (is_Some (x !! n)
                  ∧ <[(name p1 +:+ "_") +:+ key := xv]> (currentDVs p1) !! n
                    = x !! n)) as Hcache'.
  { intros n. rewrite lookup_insert. case_decide as Hn; [|apply Hcache].
    subst n. right. by rewrite Hx. }
  assert (∀ o, type_of_obj o = type_of_obj (h1 l') →
            apply_frame x p h
              (set_currentDVs p1
                 (<[(name p1 +:+ "_") +:+ key := xv]> (currentDVs p1)),
               heap_set h1 l' o)) as Hframe.
  { intros o Ho. split_and!; simpl_state; try done.
    - intros l. unfold heap_set. case_decide as Hl; [|done]. subst l.
      by rewrite Ho.
    - intros l Hl. unfold heap_set. case_decide as Hll; [by subst l|].
      by apply Hout. }
  destruct (h1 l') as [c|fc'| |t] eqn:Hh1; simpl in Hent;
    try (by destruct Hent as [? [=]]); simpl.
  - eexists. split; [done|]. split; [by apply Hframe|].
    intros fc'' Hfc''. simpl_state. by rewrite heap_set_same in Hfc''.
  - pose proof (Hkeys fc' Hh1 key Hkey) as Hsome.
    destruct (FuelCase_setDesignVars_single fc' key xv Hsome)
      as (fc'' & -> & _ & _ & Hdom).
    eexists. split; [done|]. split; [by apply Hframe|].
    intros fc1 Hfc1 key' Hkey'. simpl_state. rewrite heap_set_same in Hfc1.
    injection Hfc1 as <-. rewrite <- elem_of_dom, Hdom, elem_of_dom.
    by apply (Hkeys fc' Hh1).
Qed.

Lemma setDesignVars_entity_frame p h x (l' : loc) st :
  is_Some (entity_DVs (h l')) → registered p l' → apply_frame x p h st →
  ∃ st', setDesignVars_entity x l' st = Done st' ∧ apply_frame x p h st'.
Proof.
  intros Hreg Hl' Hinv.
  assert (is_Some (entity_DVs (st.2 l'))) as [dvs Hdvs].
  { destruct Hinv as (_ & _ & _ & _ & Hkind & _).
    apply (entity_of_type (h l')); [by rewrite Hkind | done]. }
  unfold setDesignVars_entity. rewrite Hdvs.
  destruct (for_each_invariant
    (fun s => apply_frame x p h s ∧ keys_present l' (map_to_list dvs).*1 s)
    (map_to_list dvs).*1 (setDesignVars_key x l'))
    with (s := st) as (st' & Hrun & Hinv' & _).
  - intros key s Hkey [Hs Hkeys].
    destruct (setDesignVars_key_frame p h x l' _ key s Hreg Hl' Hkey Hs Hkeys)
      as (s' & Hs' & Hinv' & Hkeys'). by exists s'.
  - split; [done|]. intros fc' Hfc' key Hkey. rewrite Hfc' in Hdvs.
    injection Hdvs as <-. apply elem_of_keys in Hkey. rewrite lookup_fmap in Hkey.
    by apply fmap_is_Some in Hkey.
  - by exists st'.
Qed.

(** X6.  setDesignVars on a problem whose registered objects are components and
    fuel cases, with any vector: it returns, without KeyError or
    AttributeError.  The problem keeps its name, units, components and fuel
    cases; every object keeps its kind and the objects that are not
    registered are untouched; an entry of [currentDVs] is as before or has
    the value that [x] gives to its name, so names that are not in [x] keep
    their entry. *)
Theorem setDesignVars_returns p h x :
  registry_ok p h →
  ∃ p' h', setDesignVars x (p, h) = Done (p', h')
    ∧ name p' = name p ∧ units p' = units p
    ∧ components p' = components p ∧ fuelcases p' = fuelcases p
    ∧ registry_ok p' h'
    ∧ (∀ l, type_of_obj (h' l) = type_of_obj (h l))
    ∧ (∀ l, ¬ registered p l → h' l = h l)
    ∧ (∀ n, currentDVs p' !! n = currentDVs p !! n
            ∨ (is_Some (x !! n) ∧ currentDVs p' !! n = x !! n))
    ∧ (∀ n, x !! n = None → currentDVs p' !! n = currentDVs p !! n).
Proof.
  intros Hreg.
  assert (apply_frame x p h (p, h)) as Hinv by (split_and!; try done; by left).
  unfold setDesignVars.
  destruct (for_each_invariant (apply_frame x p h)
    (map_to_list (components (p, h).1)).*2 (setDesignVars_entity x))
    with (s := (p, h)) as (st1 & -> & Hinv1); [|done|].
  { intros l' st Hl' Hst. apply registered_component in Hl'.
    apply setDesignVars_entity_frame; [by apply Hreg|done..]. }
  cbn [bind]. pose proof Hinv1 as (_ & _ & _ & Hcases1 & _).
  destruct (for_each_invariant (apply_frame x p h)
    (fuelcases st1.1) (setDesignVars_entity x))
    with (s := st1) as ([p' h'] & -> & Hinv2); [|done|].
  { intros l' st Hl' Hst. rewrite Hcases1 in Hl'.
    assert (registered p l') as Hreg' by by right.
    apply setDesignVars_entity_frame; [by apply Hreg|done..]. }
  destruct Hinv2 as (Hname & Hunits & Hcomps & Hcases & Hkind & Hout & Hcache).
  simpl in *. exists p', h'. split_and!; try done.
  - intros l Hl. apply (entity_of_type (h l)); [by rewrite Hkind|].
    apply Hreg. unfold registered in *. by rewrite <- Hcomps, <- Hcases.
  - intros n Hn. destruct (Hcache n) as [?|[Hsome _]]; [done|].
    rewrite Hn in Hsome. by destruct Hsome.
Qed.

(** A loop whose iterations return and keep an invariant, or raise [e]:
    so does the loop; and it raises [e] when the list holds an element
    whose iteration raises [e] in every state of the invariant. *)
Lemma for_each_reaches {A S : Type} (Inv : S → Prop) (e : exn) (a0 : A)
    (xs : list A) (body : A → S → outcome S) :
  (∀ a s, a ∈ xs → Inv s →
     (∃ s', body a s = Done s' ∧ Inv s') ∨ (∃ s', body a s = Raised e s')) →
  (∀ s, Inv s → ∃ s', body a0 s = Raised e s') →
  ∀ s, Inv s →
    ((∃ s', for_each xs body s = Done s' ∧ Inv s')
     ∨ (∃ s', for_each xs body s = Raised e s'))
    ∧ (a0 ∈ xs → ∃ s', for_each xs body s = Raised e s').
Proof.
  intros Hbody Ha0. induction xs as [|a xs IH]; intros s Hs; simpl.
  - split; [left; eauto|]. intros Hin. by inversion Hin.
  - assert (∀ a' s', a' ∈ xs → Inv s' →
              (∃ s'', body a' s' = Done s'' ∧ Inv s'')
              ∨ (∃ s'', body a' s' = Raised e s'')) as Htail.
    { intros a' s' Ha'. apply Hbody. by right. }
    destruct (Hbody a s) as [(s1 & Hs1 & Hinv1)|(s1 & Hs1)]; [left|done| |].
    + rewrite Hs1. simpl. destruct (IH Htail s1 Hinv1) as [Hout Hreach].
      split; [done|]. intros [->|Hin]%elem_of_cons; [|by apply Hreach].
      destruct (Ha0 s Hs) as (s2 & Hs2). congruence.
    + rewrite Hs1. simpl. split; [right|]; eauto.
Qed.

(** X7.  A registered object without [DVs] (one that a failed addFuelCases has
    left in [fuelcases], for instance) makes setDesignVars raise
    AttributeError whatever the vector, and getVarNames too. *)
Theorem setDesignVars_raises_on_non_entity p h x l :
  registered p l → entity_DVs (h l) = None →
  (∃ st', setDesignVars x (p, h) = Raised AttributeError st')
  ∧ getVarNames (p, h) = None.
Proof.
  intros Hl Hnone. split.
  - assert (apply_frame x p h (p, h)) as Hinv by (split_and!; try done; by left).
    assert (∀ l' st, registered p l' → apply_frame x p h st →
              (∃ st', setDesignVars_entity x l' st = Done st' ∧ apply_frame x p h st')
              ∨ (∃ st', setDesignVars_entity x l' st = Raised AttributeError st'))
      as Hbody.
    { intros l' st Hl' Hst. destruct (entity_DVs (h l')) as [dvs|] eqn:Hdvs.
      - left. apply setDesignVars_entity_frame; [by rewrite Hdvs|done..].
      - right. exists st. unfold setDesignVars_entity.
        destruct (entity_DVs (st.2 l')) as [dvs'|] eqn:Hdvs'; [|done].
        destruct Hst as (_ & _ & _ & _ & Hkind & _).
        destruct (entity_of_type (st.2 l') (h l')) as [? Hsome];
          [done | by rewrite Hdvs' | congruence]. }
    assert (∀ st, apply_frame x p h st →
              ∃ st', setDesignVars_entity x l st = Raised AttributeError st')
      as Hraise.
    { intros st Hst. exists st. unfold setDesignVars_entity.
      destruct (entity_DVs (st.2 l)) as [dvs'|] eqn:Hdvs'; [|done].
      destruct Hst as (_ & _ & _ & _ & Hkind & _).
      destruct (entity_of_type (st.2 l) (h l)) as [? Hsome];
        [done | by rewrite Hdvs' | congruence]. }
    unfold setDesignVars.
    destruct (for_each_reaches (apply_frame x p h) AttributeError l
                (map_to_list (components (p, h).1)).*2 (setDesignVars_entity x))
      with (s := (p, h)) as [Hout Hreach]; [|done|done|].
    { intros l' st Hl'. apply Hbody. by apply registered_component. }
    destruct Hout as [(st1 & Hrun1 & Hinv1)|(st1 & Hrun1)].
    2:{ rewrite Hrun1. simpl. eauto. }
    rewrite Hrun1. cbn [bind]. pose proof Hinv1 as (_ & _ & Hcomps1 & Hcases1 & _).
    destruct (for_each_reaches (apply_frame x p h) AttributeError l
                (fuelcases st1.1) (setDesignVars_entity x))
      with (s := st1) as [_ Hreach2]; [|done|done|].
    { intros l' st Hl'. apply Hbody. right. by rewrite <- Hcases1. }
    destruct Hl as [[k Hk]|Hl].
    + destruct Hreach as (st' & Hst').
      { apply list_elem_of_fmap. exists (k, l). split; [done|].
        by apply elem_of_map_to_list. }
      simpl in Hrun1, Hst'. congruence.
    + apply Hreach2. by rewrite Hcases1.
  - unfold getVarNames.
    set (names_of := fun l0 : loc =>
           dvs ← entity_DVs (h l0);
           Some ((fun key => (name p +:+ "_") +:+ key) <$> (map_to_list dvs).*1)).
    assert (names_of l = None) as Hl0 by (subst names_of; simpl; by rewrite Hnone).
    destruct Hl as [[k Hk]|Hl].
    + rewrite (mapM_None_2 names_of (map_to_list (components p)).*2); [done|].
      apply Exists_exists. exists l. split; [|done].
      apply list_elem_of_fmap. exists (k, l). split; [done|].
      by apply elem_of_map_to_list.
    + destruct (mapM names_of (map_to_list (components p)).*2); [|done]. simpl.
      rewrite (mapM_None_2 names_of (fuelcases p)); [done|].
      apply Exists_exists. by exists l.
Qed.

End ApplyTotal.

Lemma demo_state_registry_ok : registry_ok demo_state.1 demo_state.2.
Proof.
  intros l [[k Hk]|Hl].
  - change (components demo_state.1) with ({["wing" := 0]} : gmap string loc) in Hk.
    apply lookup_singleton_Some in Hk as [_ <-]. by eexists.
  - apply list_elem_of_singleton in Hl as ->. by eexists.
Qed.

(** A vector with a variable of [prob] and one of another problem. *)
Lemma setDesignVars_returns_witness :
  ∃ p' h',
    setDesignVars ({["prob_wing_span" := 31%Q; "other_x" := 1%Q]} : gmap string Q)
      demo_state = Done (p', h')
    ∧ fuelcases p' = [1]
    ∧ currentDVs p' !! "prob_climb_fuelFraction" = Some 0.9%Q.
Proof.
  destruct (setDesignVars_returns demo_state.1 demo_state.2
              {["prob_wing_span" := 31%Q; "other_x" := 1%Q]} demo_state_registry_ok)
    as (p' & h' & Hrun & _ & _ & _ & Hcases & _ & _ & _ & _ & Hkeep).
  exists p', h'. split_and!; [done..|]. by rewrite Hkeep.
Defined.

(** [prob] after the failed [addFuelCases([climb, 'str'])]. *)
Lemma setDesignVars_raises_on_non_entity_witness :
  ∃ st', setDesignVars (∅ : gmap string Q)
           (after (addFuelCases (AList [1; 3]) demo_fresh))
         = Raised AttributeError st'.
Proof.
  refine (proj1 (setDesignVars_raises_on_non_entity
                   (after (addFuelCases (AList [1; 3]) demo_fresh)).1 demo_heap ∅ 3
                   _ _)).
  - right. by apply (bool_decide_unpack _).
  - reflexivity.
Defined.

(** * Further properties of FuelCase.setDesignVars *)

Section ApplyCaseVector.
Context {R : Type} `{Scalar R}.
Implicit Types (fc s : FuelCase R) (x : gmap string R) (k n : string).

Lemma getattr_set_DVs s (d : gmap string (fuelCaseDV R)) k :
  getattr (set_DVs s d) k = getattr s k.
Proof. done. Qed.

Lemma getattr_not_possible s k : k ∉ possibleDVs → getattr s k = None.
Proof.
  rewrite elem_of_possibleDVs. intros Hk. unfold getattr.
  repeat case_decide; tauto.
Qed.

Lemma FuelCase_setDesignVars_loop x (es : list (string * string)) s :
  NoDup es.*1 →
  (∀ k n, (k, n) ∈ es → is_Some (x !! n) → is_Some (DVs s !! n)) →
  ∃ s', for_each es (setDesignVars_body x) s = Done s'
    ∧ fc_name s' = fc_name s ∧ DVNames s' = DVNames s
    ∧ (∀ n, DVs s' !! n = applied x es n <$> DVs s !! n)
    ∧ (∀ k, k ∈ possibleDVs →
         (∀ n xv dv, (k, n) ∈ es → x !! n = Some xv → DVs s !! n = Some dv →
            getattr s' k = Some (s_add xv (dv_offset dv)))
         ∧ ((∀ n, (k, n) ∈ es → x !! n = None) → getattr s' k = getattr s k)).
Proof.
  revert s. induction es as [|[k0 n0] es IH]; intros s Hnodup Hpresent.
  - exists s. simpl. split_and!; try done.
    + intros n. unfold applied. destruct (DVs s !! n); simpl; [|done].
      by destruct (x !! n).
    + intros k Hk. split; [|done]. intros n xv dv Hin. by inversion Hin.
  - simpl in Hnodup. apply NoDup_cons in Hnodup as [Hfresh Hnodup].
    cbn [for_each]. unfold setDesignVars_body at 1.
    destruct (x !! n0) as [xv0|] eqn:Hx0.
    + destruct (Hpresent k0 n0) as [dv0 Hdv0]; [left|by rewrite Hx0|].
      rewrite Hdv0. cbn [bind].
      set (s1 := set_DVs (setattr s k0 (s_add xv0 (dv_offset dv0)))
                   (<[n0 := set_value dv0 xv0]>
                      (DVs (setattr s k0 (s_add xv0 (dv_offset dv0)))))).
      destruct (setattr_fields s k0 (s_add xv0 (dv_offset dv0))) as (Hn & Hd & Hdn).
      assert (DVs s1 = <[n0 := set_value dv0 xv0]> (DVs s)) as HDVs1
        by (subst s1; simpl; by rewrite Hd).
      destruct (IH s1 Hnodup) as (s' & -> & Hname & Hnames & HDVs & Hattr).
      { intros k n Hin Hx. rewrite HDVs1, lookup_insert. case_decide; [done|].
        apply (Hpresent k n); [by right|done]. }
      exists s'. split; [done|]. split_and!.
      * by rewrite Hname.
      * by rewrite Hnames.
      * intros n. rewrite HDVs, HDVs1, lookup_insert. unfold applied.
        rewrite fmap_cons. cbn [snd]. case_decide as Hn0.
        -- subst n. rewrite Hdv0, Hx0. simpl. f_equal.
           rewrite (bool_decide_eq_true_2 (n0 ∈ n0 :: es.*2)) by left.
           by destruct (bool_decide (n0 ∈ es.*2)).
        -- destruct (DVs s !! n) as [dv|]; simpl; [|done]. f_equal.
           destruct (x !! n); [|done].
           assert (bool_decide (n ∈ es.*2) = bool_decide (n ∈ n0 :: es.*2)) as ->; [|done].
           apply bool_decide_ext. rewrite elem_of_cons.
           split; [by right | by intros [?|?]].
      * intros k Hk. destruct (Hattr k Hk) as [Hset Hkeep]. split.
        -- intros n xv dv [[= -> ->]|Hin]%elem_of_cons Hx Hdv.
           ++ rewrite Hkeep.
              ** subst s1. rewrite getattr_set_DVs.
                 assert (xv = xv0) as -> by congruence.
                 assert (dv = dv0) as -> by congruence.
                 by apply getattr_setattr_eq.
              ** intros n Hin. exfalso. apply Hfresh.
                 apply list_elem_of_fmap. by exists (k0, n).
           ++ destruct (decide (n = n0)) as [->|Hne].
              ** assert (dv = dv0) as -> by congruence.
                 apply (Hset n0 xv (set_value dv0 xv0)); [done..|].
                 rewrite HDVs1. apply lookup_insert_eq.
              ** apply (Hset n xv dv); [done..|].
                 by rewrite HDVs1, lookup_insert_ne.
        -- intros Hnone. rewrite Hkeep.
           ++ subst s1. rewrite getattr_set_DVs. apply getattr_setattr_ne.
              intros ->. rewrite (Hnone n0) in Hx0; [done|left].
           ++ intros n Hin. apply Hnone. by right.
    + cbn [bind].
      destruct (IH s Hnodup) as (s' & -> & Hname & Hnames & HDVs & Hattr).
      { intros k n Hin. apply (Hpresent k n). by right. }
      exists s'. split; [done|]. split_and!; try done.
      * intros n. rewrite HDVs. destruct (DVs s !! n) as [dv|]; simpl; [|done].
        f_equal. unfold applied. rewrite fmap_cons. cbn [snd].
        destruct (x !! n) eqn:Hx; [|done].
        assert (bool_decide (n ∈ es.*2) = bool_decide (n ∈ n0 :: es.*2)) as ->; [|done].
        apply bool_decide_ext. rewrite elem_of_cons. split; [by right|].
        intros [->|?]; [congruence|done].
      * intros k Hk. destruct (Hattr k Hk) as [Hset Hkeep]. split.
        -- intros n xv dv [[= -> ->]|Hin]%elem_of_cons Hx Hdv; [congruence|].
           by apply (Hset n xv dv).
        -- intros Hnone. apply Hkeep. intros n Hin. apply Hnone. by right.
Qed.

Lemma applied_offset x (es : list (string * string)) n (dv : fuelCaseDV R) :
  dv_offset (applied x es n dv) = dv_offset dv.
Proof. unfold applied. destruct (x !! n); [|done]. by case_bool_decide. Qed.

Lemma applied_twice x (es : list (string * string)) n (dv : fuelCaseDV R) :
  applied x es n (applied x es n dv) = applied x es n dv.
Proof. unfold applied. destruct (x !! n); [|done]. by case_bool_decide. Qed.

Lemma FuelCase_eq fc1 fc2 :
  fc_name fc1 = fc_name fc2 → DVNames fc1 = DVNames fc2 → DVs fc1 = DVs fc2 →
  (∀ k, k ∈ possibleDVs → getattr fc1 k = getattr fc2 k) → fc1 = fc2.
Proof.
  intros Hname Hnames HDVs Hattr.
  assert (Some (fuelFraction fc1) = Some (fuelFraction fc2)) as [= Hfuel].
  { apply (Hattr "fuelFraction"), elem_of_possibleDVs. by left. }
  assert (Some (reserveFraction fc1) = Some (reserveFraction fc2)) as [= Hreserve].
  { apply (Hattr "reserveFraction"), elem_of_possibleDVs. by right. }
  destruct fc1, fc2. simpl in *. by subst.
Qed.

(** X8.  FuelCase.setDesignVars with any vector, on a case whose registered
    names have their entry in [DVs] (as after any calls of addDV): it
    returns, without KeyError.  A key registered under a name that [x] holds
    gets the attribute [x[name] + offset] and its DV the value [x[name]];
    a key whose name is not in [x], and a key that is not registered, keep
    their attribute; a DV whose name no key is registered under is
    untouched.  Applying the same vector again changes nothing. *)
Theorem FuelCase_setDesignVars_applies fc x :
  (∀ k n, DVNames fc !! k = Some n → is_Some (DVs fc !! n)) →
  ∃ fc', FuelCase_setDesignVars fc x = Done fc'
    ∧ fc_name fc' = fc_name fc ∧ DVNames fc' = DVNames fc
    ∧ dom (DVs fc') = dom (DVs fc)
    ∧ (∀ k n dv xv,
         DVNames fc !! k = Some n → DVs fc !! n = Some dv → x !! n = Some xv →
         DVs fc' !! n = Some (set_value dv xv)
         ∧ (k ∈ possibleDVs → getattr fc' k = Some (s_add xv (dv_offset dv))))
    ∧ (∀ k n, DVNames fc !! k = Some n → x !! n = None →
         DVs fc' !! n = DVs fc !! n ∧ getattr fc' k = getattr fc k)
    ∧ (∀ k, DVNames fc !! k = None → getattr fc' k = getattr fc k)
    ∧ (∀ n, (∀ k, DVNames fc !! k ≠ Some n) → DVs fc' !! n = DVs fc !! n)
    ∧ FuelCase_setDesignVars fc' x = Done fc'.
Proof.
  intros Hres. unfold FuelCase_setDesignVars.
  set (es := map_to_list (DVNames fc)).
  assert (∀ k n, (k, n) ∈ es ↔ DVNames fc !! k = Some n) as Hes.
  { intros k n. apply elem_of_map_to_list. }
  assert (∀ n, n ∈ es.*2 ↔ ∃ k, DVNames fc !! k = Some n) as Hes2.
  { intros n. rewrite list_elem_of_fmap. split.
    - intros ([k n'] & -> & Hin). exists k. by apply Hes.
    - intros [k Hk]. exists (k, n). split; [done|]. by apply Hes. }
  assert (NoDup es.*1) as Hnodup by apply NoDup_fst_map_to_list.
  destruct (FuelCase_setDesignVars_loop x es fc Hnodup)
    as (fc' & Hrun & Hname & Hnames & HDVs & Hattr).
  { intros k n Hin _. apply (Hres k). by apply Hes. }
  assert (∀ k, getattr fc' k
               = match DVNames fc !! k with
                 | Some n =>
                     match x !! n, DVs fc !! n with
                     | Some xv, Some dv =>
                         if bool_decide (k ∈ possibleDVs)
                         then Some (s_add xv (dv_offset dv)) else None
                     | _, _ => getattr fc k
                     end
                 | None => getattr fc k
                 end) as Hget.
  { intros k. destruct (decide (k ∈ possibleDVs)) as [Hk|Hk].
    2:{ rewrite !(getattr_not_possible _ k Hk), (bool_decide_eq_false_2 _ Hk).
        by repeat case_match. }
    rewrite (bool_decide_eq_true_2 _ Hk). destruct (Hattr k Hk) as [Hset Hkeep].
    destruct (DVNames fc !! k) as [n|] eqn:Hkn.
    - destruct (x !! n) as [xv|] eqn:Hx.
      + destruct (Hres k n Hkn) as [dv Hdv]. rewrite Hdv.
        apply (Hset n xv dv); [by apply Hes|done..].
      + apply Hkeep. intros n' Hin%Hes. congruence.
    - apply Hkeep. intros n' Hin%Hes. congruence. }
  exists fc'. split; [done|]. split_and!; try done.
  - apply set_eq. intros n. rewrite !elem_of_dom, HDVs. apply fmap_is_Some.
  - intros k n dv xv Hkn Hdv Hx. split.
    + rewrite HDVs, Hdv. simpl. f_equal. unfold applied. rewrite Hx.
      rewrite bool_decide_eq_true_2; [done|]. apply Hes2. by exists k.
    + intros Hk. by rewrite Hget, Hkn, Hx, Hdv, (bool_decide_eq_true_2 _ Hk).
  - intros k n Hkn Hx. split.
    + rewrite HDVs. destruct (DVs fc !! n); simpl; [|done]. unfold applied.
      by rewrite Hx.
    + by rewrite Hget, Hkn, Hx.
  - intros k Hk. by rewrite Hget, Hk.
  - intros n Hn. rewrite HDVs. destruct (DVs fc !! n); simpl; [|done].
    f_equal. unfold applied. destruct (x !! n); [|done].
    rewrite bool_decide_eq_false_2; [done|]. rewrite Hes2. intros [k Hk].
    by apply (Hn k).
  - rewrite Hnames. fold es.
    destruct (FuelCase_setDesignVars_loop x es fc' Hnodup)
      as (fc'' & -> & Hname' & Hnames' & HDVs' & Hattr').
    { intros k n Hin _. rewrite HDVs. apply fmap_is_Some, (Hres k).
      by apply Hes. }
    f_equal. apply FuelCase_eq; try done.
    + apply map_eq. intros n. rewrite HDVs', HDVs.
      destruct (DVs fc !! n); simpl; [|done]. by rewrite applied_twice.
    + intros k Hk. destruct (Hattr' k Hk) as [Hset' Hkeep'].
      destruct (DVNames fc !! k) as [n|] eqn:Hkn.
      * destruct (x !! n) as [xv|] eqn:Hx.
        -- destruct (Hres k n Hkn) as [dv Hdv].
           rewrite (Hset' n xv (applied x es n dv)); [|by apply Hes|done|].
           ++ by rewrite applied_offset, Hget, Hkn, Hx, Hdv,
                (bool_decide_eq_true_2 _ Hk).
           ++ by rewrite HDVs, Hdv.
        -- apply Hkeep'. intros n' Hin%Hes. congruence.
      * apply Hkeep'. intros n' Hin%Hes. congruence.
Qed.

End ApplyCaseVector.

(** [climb.setDesignVars({'climb_fuelFraction': 0.5, 'other': 1})] *)
Lemma FuelCase_setDesignVars_applies_witness :
  ∃ fc',
    FuelCase_setDesignVars demo_climb
      ({["climb_fuelFraction" := 0.5%Q; "other" := 1%Q]} : gmap string Q) = Done fc'
    ∧ getattr fc' "fuelFraction" = Some (3 # 5)%Q
    ∧ getattr fc' "reserveFraction" = Some 0.1%Q.
Proof.
  destruct (FuelCase_setDesignVars_applies demo_climb
              {["climb_fuelFraction" := 0.5%Q; "other" := 1%Q]})
    as (fc' & Hrun & _ & _ & _ & Hset & _ & Hkeep & _).
  { intros k n Hkn. by destruct (addDV_calls_names_resolve _ _ _ _ k n Hkn). }
  exists fc'. split_and!; [done| |].
  - apply (Hset "fuelFraction" "climb_fuelFraction"
             (mk_fuelCaseDV "fuelFraction" 0.9%Q (Some 0%Q) (Some 1%Q) 1%Q 0.1%Q true)
             0.5%Q); try reflexivity.
    apply elem_of_possibleDVs. by left.
  - by rewrite Hkeep.
Defined.

(** * The cache after registration *)

Lemma for_each_after {A S : Type} (Inv : S → Prop) (xs : list A)
    (body : A → S → outcome S) :
  (∀ a s, Inv s → Inv (after (body a s))) →
  ∀ s, Inv s → Inv (after (for_each xs body s)).
Proof.
  intros Hbody. induction xs as [|a xs IH]; intros s Hs; simpl; [done|].
  specialize (Hbody a s Hs). destruct (body a s) as [s1|e s1]; simpl in *.
  - by apply IH.
  - done.
Qed.

Section CacheCovers.
Context {R : Type} `{Scalar R} {C : Type} `{Component R C}.
Implicit Types (p : WeightProblem R) (h : Heap R C) (l : loc) (st : state R C).

Lemma cache_DVs_monotone (pname key : string) (dvs cur : gmap string R) :
  is_Some (cur !! key) → is_Some (cache_DVs pname dvs cur !! key).
Proof.
  rewrite <- !elem_of_dom, cache_DVs_dom, elem_of_union. by right.
Qed.

Lemma cache_DVs_covers (pname d : string) (dvs cur : gmap string R) :
  is_Some (dvs !! d) → is_Some (cache_DVs pname dvs cur !! variable_name pname d).
Proof. intros [v Hv]. exists v. by apply cache_DVs_own. Qed.

Lemma cache_covers_addComponents_body l st :
  cache_covers st → cache_covers (after (addComponents_body l st)).
Proof.
  destruct st as [p h]. intros Hinv. unfold addComponents_body.
  destruct (h l) as [c| | |] eqn:Hl; try done. simpl.
  intros l1 dvs d Hreg Hdvs Hd. simpl_state.
  unfold heap_set in Hdvs. case_decide as Hl1.
  - subst l1. injection Hdvs as <-. by apply cache_DVs_covers.
  - apply cache_DVs_monotone, (Hinv l1 dvs d); [|done..].
    destruct Hreg as [[k Hk]|Hcase]; simpl_state; [|by right].
    apply lookup_insert_Some in Hk as [[_ <-]|[_ Hk]]; [done|].
    left. by exists k.
Qed.

Lemma cache_covers_addFuelCases_body l st :
  cache_covers st → cache_covers (after (addFuelCases_body l st)).
Proof.
  destruct st as [p h]. intros Hinv. unfold addFuelCases_body.
  destruct (entity_DVs (h l)) as [dvs0|] eqn:Hl; simpl.
  - intros l1 dvs d Hreg Hdvs Hd. unfold registered in Hreg. simpl_state.
    destruct Hreg as [Hcomp|[Hcase| ->%list_elem_of_singleton]%elem_of_app].
    + apply cache_DVs_monotone, (Hinv l1 dvs d); [by left|done..].
    + apply cache_DVs_monotone, (Hinv l1 dvs d); [by right|done..].
    + assert (dvs = dvs0) as -> by congruence. by apply cache_DVs_covers.
  - intros l1 dvs d Hreg Hdvs Hd. unfold registered in Hreg. simpl_state.
    destruct Hreg as [Hcomp|[Hcase| ->%list_elem_of_singleton]%elem_of_app].
    + apply (Hinv l1 dvs d); [by left|done..].
    + apply (Hinv l1 dvs d); [by right|done..].
    + congruence.
Qed.

Lemma cache_covers_register_call (c : RegCall) st :
  cache_covers st → cache_covers (after (register_call c st)).
Proof.
  intros Hinv. destruct c as [a|a]; simpl.
  - unfold addComponents. destruct (check_argument st.2 a); [|done].
    apply for_each_after; [|done]. intros l0 s. apply cache_covers_addComponents_body.
  - unfold addFuelCases. destruct (check_argument st.2 a); [|done].
    apply for_each_after; [|done]. intros l0 s. apply cache_covers_addFuelCases_body.
Qed.

(** The names that getVarNames lists are the variable names of the
    registered objects. *)
Lemma getVarNames_elem st (names : list string) (n : string) :
  getVarNames st = Some names → n ∈ names →
  ∃ l dvs d, registered st.1 l ∧ entity_DVs (st.2 l) = Some dvs
             ∧ is_Some (dvs !! d) ∧ n = variable_name (name st.1) d.
Proof.
  destruct st as [p h]. unfold getVarNames.
  set (names_of := fun l0 : loc =>
         dvs ← entity_DVs (h l0);
         Some ((fun key => (name p +:+ "_") +:+ key) <$> (map_to_list dvs).*1)).
  assert (∀ (ls : list loc) (css : list (list string)),
            mapM names_of ls = Some css → n ∈ List.concat css →
            ∃ l dvs d, l ∈ ls ∧ entity_DVs (h l) = Some dvs
                       ∧ is_Some (dvs !! d) ∧ n = variable_name (name p) d) as Hin.
  { intros ls css Hm%mapM_Some_1. induction Hm as [|l cs ls css Hl _ IH]; simpl.
    - intros Hn. by inversion Hn.
    - intros [Hn|Hn]%elem_of_app.
      + subst names_of. simpl in Hl.
        destruct (entity_DVs (h l)) as [dvs|] eqn:Hdvs; [|done].
        simpl in Hl. injection Hl as <-.
        apply list_elem_of_fmap in Hn as (d & -> & Hd%elem_of_keys).
        exists l, dvs, d. split_and!; [left|done..].
      + destruct (IH Hn) as (l' & dvs & d & Hl' & Hrest).
        exists l', dvs, d. split; [by right|done]. }
  destruct (mapM names_of (map_to_list (components p)).*2) as [cs|] eqn:Hcs;
    [|done]. simpl.
  destruct (mapM names_of (fuelcases p)) as [fs|] eqn:Hfs; [|done]. simpl.
  intros [= <-] [Hn|Hn]%elem_of_app.
  - destruct (Hin _ _ Hcs Hn) as (l & dvs & d & Hl & Hrest).
    exists l, dvs, d. split; [|done]. by apply registered_component.
  - destruct (Hin _ _ Hfs Hn) as (l & dvs & d & Hl & Hrest).
    exists l, dvs, d. split; [by right|done].
Qed.

(** X9.  After any calls of addComponents and addFuelCases on a new problem,
    whatever their arguments and whether they returned or raised, every
    variable of a registered object has an entry in [currentDVs]: the names
    that getVarNames lists are keys of the cache. *)
Theorem registration_caches_every_variable (pname punits : string)
    (kw : option (list string)) h (calls : list RegCall) :
  let st := register_calls calls (WeightProblem_init pname punits kw, h) in
  cache_covers st
  ∧ ∀ names n, getVarNames st = Some names → n ∈ names →
      is_Some (currentDVs st.1 !! n).
Proof.
  intros st.
  assert (cache_covers st) as Hinv.
  { subst st. unfold register_calls.
    induction calls as [|c calls IH] using rev_ind.
    - intros l dvs d [[k Hk]|Hl]; simpl in *; [by rewrite lookup_empty in Hk|].
      by inversion Hl.
    - rewrite foldl_app. simpl. by apply cache_covers_register_call. }
  split; [done|]. intros names n Hnames Hn.
  destruct (getVarNames_elem st names n Hnames Hn) as (l & dvs & d & Hl & Hdvs & Hd & ->).
  by apply (Hinv l dvs d).
Qed.

End CacheCovers.

(** * Further properties of the constraints *)

Lemma string_length_app (a b : string) :
  String.length (a +:+ b) = (String.length a + String.length b)%nat.
Proof.
  induction a as [|ch a IH]; [done|].
  change (S (String.length (a +:+ b)) = S (String.length a + String.length b)).
  by rewrite IH.
Qed.

Lemma string_app_inj_r (a b s : string) : a +:+ s = b +:+ s → a = b.
Proof.
  revert b. induction a as [|ch a IH]; intros b Heq.
  - destruct b as [|ch' b]; [done|].
    apply (f_equal String.length) in Heq. rewrite !string_length_app in Heq.
    simpl in Heq. exfalso. lia.
  - destruct b as [|ch' b].
    + apply (f_equal String.length) in Heq. rewrite !string_length_app in Heq.
      simpl in Heq. exfalso. lia.
    + change (String ch (a +:+ s) = String ch' (b +:+ s)) in Heq.
      injection Heq as -> Heq. f_equal. by apply IH.
Qed.

Section ConstraintsOfProblem.
Context {R : Type} `{Scalar R} {C : Type} `{Component R C}.
Implicit Types (p : WeightProblem R) (h : Heap R C) (l : loc) (fc : FuelCase R)
  (optProb : list (Con R)).

(** What addLinearConstraint adds does not depend on the constraints the
    optimizer already has: at most one constraint, named after the case. *)
Lemma addLinearConstraint_appends fc optProb (prefix : string) :
  addLinearConstraint fc optProb prefix
  = (optProb ++ addLinearConstraint fc [] prefix)%list
  ∧ (length (addLinearConstraint fc [] prefix) ≤ 1)%nat
  ∧ ∀ con, con ∈ addLinearConstraint fc [] prefix →
      con_name con = ((prefix +:+ "_") +:+ fc_name fc) +:+ "_fuelcase".
Proof.
  unfold addLinearConstraint.
  destruct (fraction_flags _) as [[] []]; simpl; unfold addCon; simpl;
    (split; [by rewrite ?app_nil_r|]); (split; [lia|]); intros con Hcon;
    try (by apply list_elem_of_singleton in Hcon as ->); by inversion Hcon.
Qed.

Lemma constraints_of_names p h l con :
  con ∈ constraints_of p h l →
  ∃ fc, h l = OCase fc
        ∧ con_name con = ((name p +:+ "_") +:+ fc_name fc) +:+ "_fuelcase".
Proof.
  unfold constraints_of. destruct (h l) as [c|fc| |t]; try by intros Hin; inversion Hin.
  intros Hin. exists fc. split; [done|].
  by apply (addLinearConstraint_appends fc [] (name p)).
Qed.

(** X10.  addConstraintsPyOpt on a problem whose [fuelcases] are fuel cases: it
    returns, and adds to the optimizer, case by case in the order of
    [fuelcases], the constraint of each case, a case that is registered
    twice giving its constraint twice.  There is at most one constraint per
    entry, each is named [problemName_caseName_fuelcase], and the names of
    the added constraints are distinct when the names of the cases are. *)
Theorem addConstraintsPyOpt_per_case p h optProb :
  (∀ l, l ∈ fuelcases p → ∃ fc, h l = OCase fc) →
  let added := fuelcases p ≫= constraints_of p h in
  addConstraintsPyOpt (p, h) optProb = Done (optProb ++ added)%list
  ∧ (length added ≤ length (fuelcases p))%nat
  ∧ (∀ con, con ∈ added →
       ∃ l fc, l ∈ fuelcases p ∧ h l = OCase fc
         ∧ con_name con = ((name p +:+ "_") +:+ fc_name fc) +:+ "_fuelcase")
  ∧ (NoDup (case_names h (fuelcases p)) → NoDup (con_name <$> added)).
Proof.
  intros Hcases added. subst added. unfold addConstraintsPyOpt.
  generalize dependent optProb.
  induction (fuelcases p) as [|l ls IH]; intros optProb.
  - simpl. split; [by rewrite app_nil_r|]. split; [done|].
    split; [intros con Hcon; by inversion Hcon|]. intros _. constructor.
  - destruct (Hcases l) as [fc Hl]; [left|].
    assert (∀ l', l' ∈ ls → ∃ fc', h l' = OCase fc') as Htail.
    { intros l' Hl'. apply Hcases. by right. }
    destruct (addLinearConstraint_appends fc optProb (name p)) as (Happ & Hlen & Hnm).
    destruct (IH Htail (optProb ++ addLinearConstraint fc [] (name p))%list)
      as (Hrun & Hlen' & Hnames & Hnodup).
    assert (constraints_of p h l = addLinearConstraint fc [] (name p)) as Hof
      by (unfold constraints_of; by rewrite Hl).
    split_and!.
    + cbn [for_each]. rewrite Hl, Happ. cbn [bind]. rewrite Hrun.
      csimpl. by rewrite Hof, <- app_assoc.
    + csimpl. rewrite length_app, Hof. lia.
    + intros con. csimpl. intros [Hcon|Hcon]%elem_of_app.
      * exists l, fc. split_and!; [left|done|]. rewrite Hof in Hcon. by apply Hnm.
      * destruct (Hnames con Hcon) as (l' & fc' & Hl' & Hrest).
        exists l', fc'. split; [by right|done].
    + unfold case_names. csimpl. rewrite Hl. csimpl. fold (case_names h ls).
      intros [Hfresh Hnd]%NoDup_cons. rewrite fmap_app.
      apply NoDup_app. split_and!.
      * rewrite Hof. destruct (addLinearConstraint fc [] (name p)) as [|c1 [|c2 cs]];
          simpl in *; [constructor| |lia].
        apply NoDup_singleton.
      * intros nm Hnm1 Hnm2.
        apply list_elem_of_fmap in Hnm1 as (c1 & -> & Hc1).
        apply list_elem_of_fmap in Hnm2 as (c2 & Heq & Hc2).
        rewrite Hof in Hc1. rewrite (Hnm c1 Hc1) in Heq.
        apply list_elem_of_bind in Hc2 as (l' & Hc2 & Hl').
        destruct (constraints_of_names p h l' c2 Hc2) as (fc' & Hfc' & Hname').
        rewrite Hname' in Heq. apply string_app_inj_r, (inj _) in Heq.
        apply Hfresh. unfold case_names. apply list_elem_of_omap.
        exists l'. split; [done|]. by rewrite Hfc', Heq.
      * by apply Hnodup.
Qed.

End ConstraintsOfProblem.

(** * Properties of addVariablesPyOpt *)

Section VariablesFacts.
Context {R : Type} `{Scalar R} {C : Type} `{ComponentDVs R C}.
Implicit Types (p : WeightProblem R) (h : Heap R C) (l : loc) (st : state R C)
  (optProb : list (Var R)).

Lemma addVariables_keys_run (pname : string) (es : list (string * DVInfo R)) optProb :
  for_each es (addVariables_key pname) optProb
  = Done (optProb ++ omap (exported_key pname) es)%list.
Proof.
  revert optProb. induction es as [|[key dv] es IH]; intros optProb.
  - simpl. by rewrite app_nil_r.
  - cbn [for_each]. unfold addVariables_key at 1, exported_key at 1. csimpl.
    destruct (info_addToPyOpt dv); cbn [bind]; rewrite IH; [|done].
    unfold addVar. by rewrite <- app_assoc.
Qed.

(** The two views of [o.DVs] have the same names. *)
Lemma entity_DV_infos_keys (o : obj R C) (dvs : gmap string R) :
  entity_DVs o = Some dvs →
  ∃ infos, entity_DV_infos o = Some infos
           ∧ ∀ key, is_Some (infos !! key) ↔ is_Some (dvs !! key).
Proof.
  destruct o as [c|fc| |t]; simpl; try done; intros [= <-]; eexists;
    (split; [done|]); intros key.
  - by rewrite <- comp_DV_infos_value, lookup_fmap, fmap_is_Some.
  - by rewrite !lookup_fmap, !fmap_is_Some.
Qed.

Lemma addVariables_entity_run st l optProb :
  is_Some (entity_DVs (st.2 l)) →
  addVariables_entity st l optProb = Done (optProb ++ exported st l)%list.
Proof.
  intros [dvs Hdvs]. destruct (entity_DV_infos_keys _ _ Hdvs) as (infos & Hinfos & _).
  unfold addVariables_entity, exported. rewrite Hinfos.
  apply addVariables_keys_run.
Qed.

Lemma addVariables_entities_run st (ls : list loc) optProb :
  (∀ l, l ∈ ls → is_Some (entity_DVs (st.2 l))) →
  for_each ls (addVariables_entity st) optProb
  = Done (optProb ++ ls ≫= exported st)%list.
Proof.
  revert optProb. induction ls as [|l ls IH]; intros optProb Hall.
  - simpl. by rewrite app_nil_r.
  - cbn [for_each]. rewrite addVariables_entity_run by (apply Hall; left).
    cbn [bind]. rewrite IH by (intros l' Hl'; apply Hall; by right).
    csimpl. by rewrite <- app_assoc.
Qed.

Lemma elem_of_exported st l (v : Var R) :
  v ∈ exported st l ↔
  ∃ infos key dv, entity_DV_infos (st.2 l) = Some infos ∧ infos !! key = Some dv
    ∧ info_addToPyOpt dv = true
    ∧ v = mk_Var (variable_name (name st.1) key) "c" (info_value dv)
            (info_lower dv) (info_upper dv) (info_scale dv).
Proof.
  unfold exported. destruct (entity_DV_infos (st.2 l)) as [infos|]; split.
  - intros ([key dv] & Hin & Hv)%list_elem_of_omap.
    apply elem_of_map_to_list in Hin. unfold exported_key in Hv. simpl in Hv.
    destruct (info_addToPyOpt dv) eqn:Hflag; [|done]. injection Hv as <-.
    by exists infos, key, dv.
  - intros (infos' & key & dv & [= <-] & Hkey & Hflag & ->).
    apply list_elem_of_omap. exists (key, dv). split; [by apply elem_of_map_to_list|].
    unfold exported_key. simpl. by rewrite Hflag.
  - intros Hin. by inversion Hin.
  - by intros (infos' & key & dv & [=] & _).
Qed.

(** A variable name of a registered object is among the names of
    getVarNames. *)
Lemma getVarNames_lists st (names : list string) l (dvs : gmap string R) (d : string) :
  getVarNames st = Some names → registered st.1 l →
  entity_DVs (st.2 l) = Some dvs → is_Some (dvs !! d) →
  variable_name (name st.1) d ∈ names.
Proof.
  destruct st as [p h]. unfold getVarNames. simpl.
  set (names_of := fun l0 : loc =>
         dvs ← entity_DVs (h l0);
         Some ((fun key => (name p +:+ "_") +:+ key) <$> (map_to_list dvs).*1)).
  intros Hnames Hreg Hdvs Hd.
  assert (∀ (ls : list loc) (css : list (list string)),
            mapM names_of ls = Some css → l ∈ ls →
            variable_name (name p) d ∈ List.concat css) as Hin.
  { intros ls css Hm%mapM_Some_1. induction Hm as [|l0 cs ls css Hl0 _ IH]; simpl.
    - intros Hl. by inversion Hl.
    - intros [->|Hl]%elem_of_cons; apply elem_of_app; [left|right; by apply IH].
      subst names_of. simpl in Hl0. rewrite Hdvs in Hl0. simpl in Hl0.
      injection Hl0 as <-. apply list_elem_of_fmap. exists d.
      split; [done|]. by apply elem_of_keys. }
  destruct (mapM names_of (map_to_list (components p)).*2) as [cs|] eqn:Hcs;
    [|done]. simpl in Hnames.
  destruct (mapM names_of (fuelcases p)) as [fs|] eqn:Hfs; [|done].
  simpl in Hnames. injection Hnames as <-. apply elem_of_app.
  destruct Hreg as [[k Hk]|Hcase].
  - left. apply (Hin _ _ Hcs). apply list_elem_of_fmap. exists (k, l).
    split; [done|]. by apply elem_of_map_to_list.
  - right. by apply (Hin _ _ Hfs).
Qed.

(** X11.  addVariablesPyOpt on a problem whose registered objects are components
    and fuel cases: it returns, and makes one [addVar] call for every
    registered reference and every DV of its object that has [addToPyOpt]
    set, the components first, then the fuel cases in the order of
    [fuelcases] (an object that is registered twice has its variables added
    twice).  The calls are exactly those of the DVs with the flag set, each
    with the variable name [problemName_dvName], the type ['c'] and the
    value, bounds and scale the DV has at the time of the call; and every
    name added is one that getVarNames lists. *)
Theorem addVariablesPyOpt_adds_flagged p h optProb :
  registry_ok p h →
  let added :=
    ((map_to_list (components p)).*2 ++ fuelcases p)%list ≫= exported (p, h) in
  addVariablesPyOpt (p, h) optProb = Done (optProb ++ added)%list
  ∧ (∀ v, v ∈ added ↔
       ∃ l infos key dv,
         registered p l ∧ entity_DV_infos (h l) = Some infos
         ∧ infos !! key = Some dv ∧ info_addToPyOpt dv = true
         ∧ v = mk_Var (variable_name (name p) key) "c" (info_value dv)
                 (info_lower dv) (info_upper dv) (info_scale dv))
  ∧ (∀ v names, v ∈ added → getVarNames (p, h) = Some names → var_name v ∈ names).
Proof.
  intros Hreg added.
  assert (∀ v, v ∈ added ↔
       ∃ l infos key dv,
         registered p l ∧ entity_DV_infos (h l) = Some infos
         ∧ infos !! key = Some dv ∧ info_addToPyOpt dv = true
         ∧ v = mk_Var (variable_name (name p) key) "c" (info_value dv)
                 (info_lower dv) (info_upper dv) (info_scale dv)) as Hmem.
  { intros v. subst added. rewrite list_elem_of_bind. split.
    - intros (l & Hv & Hl). apply elem_of_exported in Hv
        as (infos & key & dv & Hinfos & Hkey & Hflag & ->).
      exists l, infos, key, dv. split_and!; try done.
      apply elem_of_app in Hl as [Hl|Hl]; [by apply registered_component|by right].
    - intros (l & infos & key & dv & Hl & Hinfos & Hkey & Hflag & ->).
      exists l. split.
      + apply elem_of_exported. by exists infos, key, dv.
      + apply elem_of_app. destruct Hl as [[k Hk]|Hl]; [left|by right].
        apply list_elem_of_fmap. exists (k, l). split; [done|].
        by apply elem_of_map_to_list. }
  split_and!.
  - unfold addVariablesPyOpt. simpl.
    rewrite addVariables_entities_run.
    2:{ intros l Hl. by apply Hreg, registered_component. }
    cbn [bind]. rewrite addVariables_entities_run.
    2:{ intros l Hl. apply Hreg. by right. }
    subst added. by rewrite bind_app, app_assoc.
  - done.
  - intros v names Hv Hnames.
    apply Hmem in Hv as (l & infos & key & dv & Hl & Hinfos & Hkey & Hflag & ->).
    simpl. destruct (Hreg l Hl) as [dvs Hdvs].
    destruct (entity_DV_infos_keys _ _ Hdvs) as (infos' & Hinfos' & Hkeys).
    apply (getVarNames_lists (p, h) names l dvs key); try done.
    apply Hkeys. simpl in *. assert (infos' = infos) as -> by congruence. eauto.
Qed.

End VariablesFacts.

(** * The constraints and the variables of a problem *)

Section ConstraintsAndVariables.
Context {R : Type} `{Scalar R} {C : Type} `{ComponentDVs R C}.
Implicit Types (p : WeightProblem R) (h : Heap R C) (l : loc) (fc : FuelCase R).

Lemma addConstraintsPyOpt_run p h (optProb : list (Con R)) :
  (∀ l, l ∈ fuelcases p → ∃ fc, h l = OCase fc) →
  addConstraintsPyOpt (p, h) optProb
  = Done (optProb ++ fuelcases p ≫= constraints_of p h)%list.
Proof.
  unfold addConstraintsPyOpt. simpl. revert optProb.
  induction (fuelcases p) as [|l ls IH]; intros optProb Hcases.
  - simpl. by rewrite app_nil_r.
  - destruct (Hcases l) as [fc Hl]; [left|].
    cbn [for_each]. rewrite Hl.
    destruct (addLinearConstraint_appends fc optProb (name p)) as (-> & _).
    cbn [bind]. rewrite IH by (intros l' Hl'; apply Hcases; by right).
    csimpl. unfold constraints_of at 2. rewrite Hl. by rewrite <- app_assoc.
Qed.

Lemma addVariablesPyOpt_run p h (optProb : list (Var R)) :
  registry_ok p h →
  addVariablesPyOpt (p, h) optProb
  = Done (optProb
          ++ ((map_to_list (components p)).*2 ++ fuelcases p) ≫= exported (p, h))%list.
Proof.
  intros Hreg. unfold addVariablesPyOpt. simpl.
  rewrite addVariables_entities_run.
  2:{ intros l Hl. by apply Hreg, registered_component. }
  cbn [bind]. rewrite addVariables_entities_run.
  2:{ intros l Hl. apply Hreg. by right. }
  by rewrite bind_app, app_assoc.
Qed.

(** After plain calls of [addDV], the DV of every registered key is stored
    under the default name and is handed to the optimizer. *)
Lemma plain_calls_DVs (cname : string) (ff rf : R) (calls : list (DVCall R)) :
  (∀ c, c ∈ calls → c_name c = None ∧ c_axis c = None ∧ c_addToPyOpt c = true) →
  let fc := addDV_calls calls (FuelCase_init cname ff rf) in
  fc_name fc = cname
  ∧ ∀ k, is_Some (DVNames fc !! k) →
      k ∈ possibleDVs
      ∧ ∃ dv, DVs fc !! ((cname +:+ "_") +:+ k) = Some dv ∧ dv_addToPyOpt dv = true.
Proof.
  induction calls as [|c calls IH] using rev_ind; intros Hplain fc.
  - split; [done|]. intros k [n Hn]. simpl in Hn. by rewrite lookup_empty in Hn.
  - subst fc. rewrite addDV_calls_snoc.
    destruct IH as [Hname IH].
    { intros c' Hc'. apply Hplain, elem_of_app. by left. }
    destruct (Hplain c) as (Hcn & Hca & Hflag).
    { apply elem_of_app. right. by apply list_elem_of_singleton. }
    set (fc := addDV_calls calls (FuelCase_init cname ff rf)) in *.
    destruct (after_call_addDV fc c) as [[_ ->]|[Hkey [v ->]]]; [done|].
    simpl. split; [done|].
    unfold addDV_dvName. rewrite Hcn, Hca, Hname, Hflag.
    intros k. rewrite lookup_insert. case_decide as Hk.
    + intros _. subst k. split; [done|]. rewrite lookup_insert_eq. by eexists.
    + intros Hsome. destruct (IH k Hsome) as (Hin & dv & Hdv & Hdvflag).
      split; [done|]. rewrite lookup_insert. case_decide; by eexists.
Qed.

(** Every variable of the constraint of a case with whitelisted keys is
    that of a registered key. *)
Lemma constraint_wrt_registered fc (prefix : string) (con : Con R) (v : string) :
  (∀ k, is_Some (DVNames fc !! k) → k ∈ possibleDVs) →
  con ∈ addLinearConstraint fc [] prefix → v ∈ con_wrt con →
  ∃ k, is_Some (DVNames fc !! k)
       ∧ v = ((prefix +:+ "_") +:+ fc_name fc) +:+ ("_" +:+ k).
Proof.
  intros Hwf.
  assert (∀ target key : string,
            lower key = target → key ∈ possibleDVs →
            existsb (fun k => bool_decide (lower k = target))
              (map_to_list (DVNames fc)).*1 = true →
            is_Some (DVNames fc !! key)) as Hflag.
  { intros target key Hlow Hkey Hex.
    destruct (DVNames fc !! key) eqn:Hlook; [by eexists|].
    by rewrite (flag_of_missing_key fc target key Hlow Hwf Hkey Hlook) in Hex. }
  assert ("fuelFraction" ∈ possibleDVs) as Hf by (apply elem_of_possibleDVs; by left).
  assert ("reserveFraction" ∈ possibleDVs) as Hr
    by (apply elem_of_possibleDVs; by right).
  unfold addLinearConstraint. rewrite flags_of_case.
  destruct (existsb (fun key => bool_decide (lower key = "reservefraction")) _)
    eqn:Hres;
    destruct (existsb (fun key => bool_decide (lower key = "fuelfraction")) _)
      eqn:Hfuel; simpl; unfold addCon; simpl.
  - intros ->%list_elem_of_singleton. simpl.
    intros [->|[->|[]%elem_of_nil]%elem_of_cons]%elem_of_cons.
    + exists "fuelFraction". split; [|done]. by apply (Hflag "fuelfraction").
    + exists "reserveFraction". split; [|done]. by apply (Hflag "reservefraction").
  - intros ->%list_elem_of_singleton. simpl.
    intros [->|[]%elem_of_nil]%elem_of_cons.
    exists "reserveFraction". split; [|done]. by apply (Hflag "reservefraction").
  - intros ->%list_elem_of_singleton. simpl.
    intros [->|[]%elem_of_nil]%elem_of_cons.
    exists "fuelFraction". split; [|done]. by apply (Hflag "fuelfraction").
  - intros Hcon. by inversion Hcon.
Qed.

(** X12.  The constraints refer to variables that addVariablesPyOpt adds.  In a
    problem whose registered objects are components and fuel cases, every
    fuel case with its DVs registered by plain calls of [addDV] (no [name],
    no [axis], [addToPyOpt] true), both methods return, and every variable
    that a constraint added by addConstraintsPyOpt lists in [wrt] is the name
    of a variable added by addVariablesPyOpt. *)
Theorem constraints_refer_to_added_variables p h (optCons : list (Con R))
    (optVars : list (Var R)) :
  registry_ok p h →
  (∀ l, l ∈ fuelcases p → ∃ fc, h l = OCase fc ∧ plainly_registered fc) →
  ∃ cons vars,
    addConstraintsPyOpt (p, h) optCons = Done (optCons ++ cons)%list
    ∧ addVariablesPyOpt (p, h) optVars = Done (optVars ++ vars)%list
    ∧ ∀ con v, con ∈ cons → v ∈ con_wrt con → v ∈ var_name <$> vars.
Proof.
  intros Hreg Hcases. eexists _, _. split_and!.
  - apply addConstraintsPyOpt_run. intros l Hl.
    destruct (Hcases l Hl) as (fc & Hfc & _). by exists fc.
  - by apply addVariablesPyOpt_run.
  - intros con v (l & Hcon & Hl)%list_elem_of_bind Hv.
    destruct (Hcases l Hl) as (fc & Hfc & cname & ff & rf & calls & -> & Hplain).
    destruct (plain_calls_DVs cname ff rf calls Hplain) as [Hname Hkeys].
    set (fc := addDV_calls calls (FuelCase_init cname ff rf)) in *.
    unfold constraints_of in Hcon. rewrite Hfc in Hcon.
    destruct (constraint_wrt_registered fc (name p) con v) as (k & Hk & ->);
      [intros k Hk; by apply Hkeys|done..|].
    destruct (Hkeys k Hk) as (_ & dv & Hdv & Hflag).
    apply list_elem_of_fmap.
    exists (mk_Var (variable_name (name p) ((cname +:+ "_") +:+ k)) "c"
              (dv_value dv) (dv_lower dv) (dv_upper dv) (dv_scale dv)).
    split.
    + simpl. unfold variable_name. rewrite Hname.
      by rewrite !string_app_assoc.
    + apply list_elem_of_bind. exists l. split.
      * apply elem_of_exported.
        exists (fuelCaseDV_info <$> DVs fc), ((cname +:+ "_") +:+ k),
          (fuelCaseDV_info dv).
        simpl. rewrite Hfc. split_and!; [done| |done|done].
        by rewrite lookup_fmap, Hdv.
      * apply elem_of_app. by right.
Qed.

End ConstraintsAndVariables.

(** * Variables reached through two registrations *)

Section VariablesTwice.
Context {R : Type} `{Scalar R} {C : Type} `{ComponentDVs R C}.
Implicit Types (p : WeightProblem R) (h : Heap R C) (l : loc).

(** X13.  addVariablesPyOpt does not look at the names it has already added.  When
    two entries of the registries (two components, two entries of
    [fuelcases], the same fuel case appended twice, ...) each have a DV
    under the same key with [addToPyOpt] set, [addVar] is called twice with
    the same variable name, once for each entry, in the order of the
    entries. *)
Theorem addVariablesPyOpt_adds_again p h (optProb : list (Var R))
    (before between behind : list loc) l1 l2
    (infos1 infos2 : gmap string (DVInfo R)) (key : string) (dv1 dv2 : DVInfo R) :
  registry_ok p h →
  ((map_to_list (components p)).*2 ++ fuelcases p
   = before ++ l1 :: between ++ l2 :: behind)%list →
  entity_DV_infos (h l1) = Some infos1 → infos1 !! key = Some dv1 →
  info_addToPyOpt dv1 = true →
  entity_DV_infos (h l2) = Some infos2 → infos2 !! key = Some dv2 →
  info_addToPyOpt dv2 = true →
  let var (dv : DVInfo R) :=
    mk_Var (variable_name (name p) key) "c" (info_value dv) (info_lower dv)
      (info_upper dv) (info_scale dv) in
  ∃ pre mid post,
    addVariablesPyOpt (p, h) optProb
    = Done (optProb ++ pre ++ var dv1 :: mid ++ var dv2 :: post)%list.
Proof.
  intros Hreg Hregs Hinfos1 Hkey1 Hflag1 Hinfos2 Hkey2 Hflag2 var.
  rewrite addVariablesPyOpt_run by done. rewrite Hregs.
  assert (var dv1 ∈ exported (p, h) l1) as Hin1.
  { apply elem_of_exported. by exists infos1, key, dv1. }
  assert (var dv2 ∈ exported (p, h) l2) as Hin2.
  { apply elem_of_exported. by exists infos2, key, dv2. }
  apply list_elem_of_split in Hin1 as (x1 & y1 & Hx1).
  apply list_elem_of_split in Hin2 as (x2 & y2 & Hx2).
  exists ((before ≫= exported (p, h)) ++ x1)%list,
    (y1 ++ (between ≫= exported (p, h)) ++ x2)%list,
    (y2 ++ behind ≫= exported (p, h))%list.
  f_equal. f_equal.
  rewrite bind_app. csimpl. rewrite bind_app. csimpl. rewrite Hx1, Hx2.
  by rewrite <- !app_assoc.
Qed.

End VariablesTwice.

(** * Registering a parameter and applying its value *)

Section RegisterThenApply.
Context {R : Type} `{Scalar R}.
Implicit Types (fc : FuelCase R) (x : gmap string R).

(** X14.  [addDV] without a [value] stores the attribute as it is, and
    FuelCase.setDesignVars writes the value plus the offset.  So after
    [addDV(key, offset=o)] on a case whose attribute [key] is [a], the DV
    holds [a]; applying a vector that gives the variable this very value
    returns, leaves the DV at [a], and moves the attribute to [a + o]. *)
Theorem addDV_then_setDesignVars_adds_offset fc x (key : string)
    (lower upper : option R) (scale : R) (name : option string) (offset : R)
    (axis : option string) (addToPyOpt : bool) (a : R) :
  (∀ k n, DVNames fc !! k = Some n → is_Some (DVs fc !! n)) →
  key ∈ possibleDVs → getattr fc key = Some a →
  x !! addDV_dvName fc key name axis = Some a →
  ∃ fc1 fc2 dv1 dv2,
    addDV fc key None lower upper scale name offset axis addToPyOpt = Done fc1
    ∧ DVs fc1 !! addDV_dvName fc key name axis = Some dv1
    ∧ dv_value dv1 = a ∧ dv_offset dv1 = offset ∧ getattr fc1 key = Some a
    ∧ FuelCase_setDesignVars fc1 x = Done fc2
    ∧ DVs fc2 !! addDV_dvName fc key name axis = Some dv2
    ∧ dv_value dv2 = a ∧ dv_offset dv2 = offset
    ∧ getattr fc2 key = Some (s_add a offset).
Proof.
  intros Hres Hkey Hattr Hx.
  destruct (addDV_admitted fc key None lower upper scale name offset axis addToPyOpt
              Hkey) as (v & Hv & Hadd).
  assert (v = a) as -> by congruence.
  set (dvName := addDV_dvName fc key name axis) in *.
  set (dv1 := mk_fuelCaseDV key a lower upper scale offset addToPyOpt) in *.
  set (fc1 := mk_FuelCase (fc_name fc) (fuelFraction fc) (reserveFraction fc)
                (<[dvName := dv1]> (DVs fc)) (<[key := dvName]> (DVNames fc))) in *.
  assert (DVs fc1 !! dvName = Some dv1) as Hdv1 by (simpl; by rewrite lookup_insert_eq).
  destruct (FuelCase_setDesignVars_loop x (map_to_list (DVNames fc1)) fc1)
    as (fc2 & Hrun & _ & _ & HDVs & Hattrs).
  { apply NoDup_fst_map_to_list. }
  { intros k n Hin%elem_of_map_to_list _. simpl in Hin. simpl.
    destruct (decide (dvName = n)) as [->|Hn].
    - rewrite lookup_insert_eq. by eexists.
    - rewrite lookup_insert_ne by done. apply (Hres k n).
      destruct (decide (key = k)) as [->|Hk].
      + rewrite lookup_insert_eq in Hin. by simplify_eq.
      + by rewrite lookup_insert_ne in Hin. }
  exists fc1, fc2, dv1, (set_value dv1 a). split_and!; try done.
  - rewrite HDVs, Hdv1. simpl. unfold applied. rewrite Hx.
    rewrite bool_decide_eq_true_2; [done|].
    apply list_elem_of_fmap. exists (key, dvName). split; [done|].
    apply elem_of_map_to_list. simpl. by rewrite lookup_insert_eq.
  - destruct (Hattrs key Hkey) as [Hset _].
    apply (Hset dvName a dv1); [|done..].
    apply elem_of_map_to_list. simpl. by rewrite lookup_insert_eq.
Qed.

End RegisterThenApply.

(** * The names getVarNames lists *)

Section VarNames.
Context {R : Type} `{Scalar R} {C : Type} `{Component R C}.
Implicit Types (p : WeightProblem R) (h : Heap R C) (l : loc).

(** X15.  getVarNames returns exactly when every object in the registries has
    [DVs] (otherwise the attribute access raises), and the list it returns
    holds [problemName_dvName] for every DV of every registered object, and
    nothing else. *)
Theorem getVarNames_lists_registered_DVs p h :
  (is_Some (getVarNames (p, h)) ↔ registry_ok p h)
  ∧ ∀ names, getVarNames (p, h) = Some names →
      ∀ n, n ∈ names ↔
        ∃ l dvs d, registered p l ∧ entity_DVs (h l) = Some dvs
                   ∧ is_Some (dvs !! d) ∧ n = variable_name (name p) d.
Proof.
  split.
  - unfold getVarNames.
    set (names_of := fun l0 : loc =>
           dvs ← entity_DVs (h l0);
           Some ((fun key => (name p +:+ "_") +:+ key) <$> (map_to_list dvs).*1)).
    assert (∀ l, is_Some (names_of l) ↔ is_Some (entity_DVs (h l))) as Hof.
    { intros l. subst names_of. simpl.
      destruct (entity_DVs (h l)); simpl; split; intros [? ?]; by eauto. }
    assert (∀ ls, is_Some (mapM names_of ls)
                  ↔ ∀ l, l ∈ ls → is_Some (entity_DVs (h l))) as Hall.
    { intros ls. rewrite mapM_is_Some, Forall_forall. split.
      - intros Hls l Hl. by apply Hof, Hls.
      - intros Hls l Hl. by apply Hof, Hls. }
    split.
    + intros [names Hnames] l Hl.
      destruct (mapM names_of (map_to_list (components p)).*2) as [cs|] eqn:Hcs;
        [|done]. simpl in Hnames.
      destruct (mapM names_of (fuelcases p)) as [fs|] eqn:Hfs; [|done].
      destruct Hl as [[k Hk]|Hl].
      * apply (proj1 (Hall (map_to_list (components p)).*2)); [by rewrite Hcs|].
        apply list_elem_of_fmap. exists (k, l). split; [done|].
        by apply elem_of_map_to_list.
      * apply (proj1 (Hall (fuelcases p))); [by rewrite Hfs|done].
    + intros Hreg.
      destruct (proj2 (Hall (map_to_list (components p)).*2)) as [cs ->].
      { intros l Hl. by apply Hreg, registered_component. }
      destruct (proj2 (Hall (fuelcases p))) as [fs ->].
      { intros l Hl. apply Hreg. by right. }
      by eexists.
  - intros names Hnames n. split.
    + apply (getVarNames_elem (p, h) names n Hnames).
    + intros (l & dvs & d & Hl & Hdvs & Hd & ->).
      by apply (getVarNames_lists (p, h) names l dvs d).
Qed.

End VarNames.

(** * The box of an Error *)

Lemma string_app_nil_r (a : string) : a +:+ "" = a.
Proof.
  induction a as [|ch a IH]; [done|].
  change (String ch (a +:+ "") = String ch a). by rewrite IH.
Qed.

Lemma times_length (c : ascii) (n : nat) : String.length (times c n) = n.
Proof. induction n as [|n IH]; simpl; [done|]. by rewrite IH. Qed.

Lemma join_words_app (g1 g2 : list string) :
  join_words (g1 ++ g2) = join_words g1 +:+ join_words g2.
Proof.
  induction g1 as [|w g1 IH]; [done|].
  simpl. rewrite IH. by rewrite !string_app_assoc.
Qed.

Lemma unlines_app (l1 l2 : list string) :
  unlines (l1 ++ l2) = unlines l1 +:+ unlines l2.
Proof.
  induction l1 as [|l l1 IH]; [done|].
  simpl. rewrite IH. by rewrite !string_app_assoc.
Qed.

Lemma box_line_length (d : nat) (head : string) (ws : list string) :
  (String.length (head +:+ join_words ws) ≤ 78 + d)%nat →
  String.length (box_line d head ws) = (79 + d)%nat.
Proof.
  intros Hfit. unfold box_line.
  rewrite string_length_app in Hfit.
  rewrite <- string_app_assoc, !string_length_app, times_length.
  change (String.length "|") with 1%nat. lia.
Qed.

Lemma list_ascii_of_string_app (a b : string) :
  list_ascii_of_string (a +:+ b)
  = (list_ascii_of_string a ++ list_ascii_of_string b)%list.
Proof.
  induction a as [|ch a IH]; [done|].
  change (ch :: list_ascii_of_string (a +:+ b)
          = ch :: (list_ascii_of_string a ++ list_ascii_of_string b)%list).
  by rewrite IH.
Qed.

(** The words of [split] are not empty and hold no whitespace. *)
Lemma split_words_spec (s word : string) :
  Forall (fun c => is_whitespace c = false) (list_ascii_of_string word) →
  Forall (fun w => w ≠ ""
                   ∧ Forall (fun c => is_whitespace c = false)
                       (list_ascii_of_string w))
    (split_words s word).
Proof.
  revert word. induction s as [|c s IH]; intros word Hword; simpl.
  - destruct word as [|ch word]; constructor; [|constructor]. by split.
  - destruct (is_whitespace c) eqn:Hc.
    + destruct word as [|ch word].
      * apply IH. constructor.
      * constructor; [by split|]. apply IH. constructor.
    + apply IH. rewrite list_ascii_of_string_app. apply Forall_app. split; [done|].
      simpl. by repeat constructor.
Qed.

(** The loop of [Error.__init__], started within the line that begins with
    [head] and holds the words [g]; [d] is by how much the counter [i] falls
    short of the length of that line. *)
Lemma Error_init_loop (words : list string) :
  ∀ (msg head : string) (g : list string) (i d : nat),
    (i + d)%nat = String.length (head +:+ join_words g) →
    ∃ (ext : list string) (gs : list (list string)) (msg' : string) (i' : nat),
      foldl Error_init_body (msg +:+ (head +:+ join_words g), i) words = (msg', i')
      ∧ words = (ext ++ List.concat gs)%list
      ∧ Forall (fun g' => g' ≠ []) gs
      ∧ msg' +:+ (times " " (78 - i') +:+ "|" +:+ newline)
        = msg +:+ unlines (box_line d head (g ++ ext) :: (box_line 1 "| " <$> gs))
      ∧ ((i ≤ 78)%nat → Forall (fun w => (String.length w ≤ 76)%nat) words →
           String.length (box_line d head (g ++ ext)) = (79 + d)%nat
           ∧ Forall (fun g' => String.length (box_line 1 "| " g') = 80%nat) gs).
Proof.
  induction words as [|w ws IH]; intros msg head g i d Hi.
  - exists [], [], (msg +:+ (head +:+ join_words g)), i. split_and!; try done.
    + rewrite app_nil_r. simpl. unfold box_line.
      replace (78 + d - String.length (head +:+ join_words g))%nat with (78 - i)%nat
        by lia.
      rewrite !string_app_assoc. by rewrite string_app_nil_r.
    + intros Hle _. rewrite app_nil_r. split; [|constructor].
      apply box_line_length. lia.
  - cbn [foldl]. unfold Error_init_body at 2.
    destruct (Nat.ltb 78 (String.length w + i + 1)) eqn:Hwrap.
    + assert ((msg +:+ (head +:+ join_words g))
              +:+ (times " " (78 - i) +:+ "|" +:+ newline +:+ "| " +:+ w +:+ " ")
              = (msg +:+ (box_line d head g +:+ newline))
                +:+ ("| " +:+ join_words [w])) as ->.
      { unfold box_line.
        replace (78 + d - String.length (head +:+ join_words g))%nat with (78 - i)%nat
          by lia.
        simpl. rewrite !string_app_assoc. by rewrite string_app_nil_r. }
      destruct (IH (msg +:+ (box_line d head g +:+ newline)) "| " [w]
                  (1 + String.length w + 1)%nat 1%nat)
        as (ext & gs & msg' & i' & Hrun & Hwords & Hne & Hmsg & Hwidth).
      { simpl. rewrite !string_length_app. simpl. lia. }
      exists [], (([w] ++ ext)%list :: gs), msg', i'. split_and!.
      * done.
      * simpl. by rewrite Hwords.
      * by constructor.
      * rewrite Hmsg, app_nil_r. simpl. by rewrite !string_app_assoc.
      * intros Hle Hall. apply Forall_cons in Hall as [Hw Hall].
        rewrite app_nil_r. split; [apply box_line_length; lia|].
        destruct Hwidth as [Hfirst Hrest]; [lia|done|]. by constructor.
    + assert ((msg +:+ (head +:+ join_words g)) +:+ (w +:+ " ")
              = msg +:+ (head +:+ join_words (g ++ [w]))) as ->.
      { rewrite join_words_app. simpl. rewrite !string_app_assoc.
        by rewrite string_app_nil_r. }
      destruct (IH msg head (g ++ [w])%list (i + (String.length w + 1))%nat d)
        as (ext & gs & msg' & i' & Hrun & Hwords & Hne & Hmsg & Hwidth).
      { rewrite string_length_app in Hi.
        rewrite join_words_app, <- string_app_assoc, string_length_app.
        simpl. rewrite !string_length_app. simpl. lia. }
      exists (w :: ext), gs, msg', i'.
      replace (g ++ w :: ext)%list with ((g ++ [w]) ++ ext)%list
        by (by rewrite <- app_assoc).
      split_and!; try done.
      * simpl. by rewrite Hwords.
      * intros Hle Hall. apply Forall_cons in Hall as [Hw Hall].
        apply Nat.ltb_ge in Hwrap. apply Hwidth; [lia|done].
Qed.

(** X16.  What [Error.__init__] prints, for every message: the standard
    output grows by the following text.  The words of the message (they are
    not empty and hold no whitespace) are laid out in their order on a first
    line that begins with [| WeightProblem Error: ] and on further lines
    that begin with [| ], none of the further lines empty, between two
    borders of 80 characters; the text starts with a line feed, every line
    ends with one, and [print] adds one more line feed after the lower
    border.  When no word is longer than 76 characters, every further line
    is 80 characters wide, and the first line is 79 characters wide: its
    closing ['|'] stands one column left of the border's corner. *)
Theorem Error_init_draws_box (message stdout : string) :
  ∃ (first : list string) (rest : list (list string)),
    split message = (first ++ List.concat rest)%list
    ∧ Forall (fun w => w ≠ ""
                       ∧ Forall (fun c => is_whitespace c = false)
                           (list_ascii_of_string w)) (split message)
    ∧ Forall (fun g => g ≠ []) rest
    ∧ Error_init message stdout
      = stdout
        +:+ newline
        +:+ unlines (box_border :: box_line 0 "| WeightProblem Error: " first
                     :: (box_line 1 "| " <$> rest) ++ [box_border])
        +:+ newline
    ∧ String.length box_border = 80%nat
    ∧ (Forall (fun w => (String.length w ≤ 76)%nat) (split message) →
         String.length (box_line 0 "| WeightProblem Error: " first) = 79%nat
         ∧ Forall (fun g => String.length (box_line 1 "| " g) = 80%nat) rest).
Proof.
  destruct (Error_init_loop (split message) (newline +:+ (box_border +:+ newline))
              "| WeightProblem Error: " [] 23 0 eq_refl)
    as (first & rest & msg' & i' & Hrun & Hwords & Hne & Hmsg & Hwidth).
  exists first, rest. split_and!; try done.
  - apply split_words_spec. constructor.
  - unfold Error_init, print. f_equal. rewrite <- string_app_assoc. f_equal.
    unfold Error_msg.
    change (newline +:+ "+" +:+ times "-" 78 +:+ "+" +:+ newline
            +:+ "| WeightProblem Error: ")
      with ((newline +:+ (box_border +:+ newline))
            +:+ ("| WeightProblem Error: " +:+ join_words [])).
    rewrite Hrun.
    assert (msg' +:+ (times " " (78 - i') +:+ "|" +:+ newline +:+ "+"
                      +:+ times "-" 78 +:+ "+" +:+ newline)
            = (msg' +:+ (times " " (78 - i') +:+ "|" +:+ newline))
              +:+ (box_border +:+ newline)) as ->.
    { rewrite !string_app_assoc. reflexivity. }
    rewrite Hmsg. simpl app in *.
    change (box_border :: box_line 0 "| WeightProblem Error: " first
            :: (box_line 1 "| " <$> rest) ++ [box_border])%list
      with ([box_border]
            ++ (box_line 0 "| WeightProblem Error: " first
                :: (box_line 1 "| " <$> rest)) ++ [box_border])%list.
    rewrite !unlines_app.
    change (unlines [box_border]) with (box_border +:+ (newline +:+ "")).
    change (unlines (box_line 0 "| WeightProblem Error: " first
                     :: (box_line 1 "| " <$> rest)))
      with (box_line 0 "| WeightProblem Error: " first
            +:+ (newline +:+ unlines (box_line 1 "| " <$> rest))).
    by rewrite !string_app_nil_r, !string_app_assoc.
  - apply Hwidth. lia.
Qed.

(** * The further properties on the problem [prob] *)

(** [prob.addFuelCases(object())]: AttributeError, and the object is in
    [fuelcases]. *)
Lemma bare_argument_never_registered_witness :
  ∃ p', addFuelCases (ARef 2) demo_fresh = Raised AttributeError (p', demo_heap)
        ∧ fuelcases p' = [2].
Proof.
  destruct (proj2 (bare_argument_never_registered
                     (WeightProblem_init "prob" "SI" None) demo_heap 2))
    as (e & p' & Hrun & _ & _ & Hobject & _).
  destruct (Hobject eq_refl) as [-> Hcases].
  exists p'. split; [exact Hrun | exact Hcases].
Defined.

(** [prob.addComponents([wing, climb])], which raises, and then
    [prob.addFuelCases([climb])]: the variable of [climb] is in the cache. *)
Lemma registration_caches_every_variable_witness :
  let st := register_calls [RegComponents (AList [0; 1]); RegFuelCases (AList [1])]
              demo_fresh in
  getVarNames st = Some ["prob_span"; "prob_climb_fuelFraction"]
  ∧ is_Some (currentDVs st.1 !! "prob_climb_fuelFraction").
Proof.
  intros st.
  assert (getVarNames st = Some ["prob_span"; "prob_climb_fuelFraction"]) as Hnames
    by reflexivity.
  split; [exact Hnames|].
  apply (proj2 (registration_caches_every_variable "prob" "SI" None demo_heap
                  [RegComponents (AList [0; 1]); RegFuelCases (AList [1])])
           _ "prob_climb_fuelFraction" Hnames).
  apply list_elem_of_further, list_elem_of_here.
Defined.

(** [prob.addConstraintsPyOpt(optProb)] with the fuel case [climb]. *)
Lemma addConstraintsPyOpt_per_case_witness :
  ∃ added, addConstraintsPyOpt demo_state [] = Done added ∧ (length added ≤ 1)%nat.
Proof.
  destruct (addConstraintsPyOpt_per_case demo_state.1 demo_state.2 [])
    as (Hrun & Hlen & _).
  { intros l Hl. change (fuelcases demo_state.1) with [1] in Hl.
    apply list_elem_of_singleton in Hl as ->. by eexists. }
  eexists. split; [exact Hrun | exact Hlen].
Defined.

(** [prob.addVariablesPyOpt(optProb)]: the variable of [climb] is added with
    its bounds. *)
Lemma addVariablesPyOpt_adds_flagged_witness :
  ∃ added, addVariablesPyOpt demo_state [] = Done added
    ∧ mk_Var "prob_climb_fuelFraction" "c" 0.9%Q (Some 0%Q) (Some 1%Q) 1%Q ∈ added.
Proof.
  destruct (addVariablesPyOpt_adds_flagged demo_state.1 demo_state.2 []
              demo_state_registry_ok) as (Hrun & Hmem & _).
  eexists. split; [exact Hrun|].
  apply Hmem.
  exists 1, (fuelCaseDV_info <$> DVs demo_climb), "climb_fuelFraction",
    (mk_DVInfo 0.9%Q (Some 0%Q) (Some 1%Q) 1%Q true).
  split_and!; try reflexivity.
  right. apply list_elem_of_here.
Defined.

(** The constraint of [climb] refers to the variable that
    addVariablesPyOpt adds. *)
Lemma constraints_refer_to_added_variables_witness :
  ∃ cons vars,
    addConstraintsPyOpt demo_state [] = Done cons
    ∧ addVariablesPyOpt demo_state [] = Done vars
    ∧ ∀ con v, con ∈ cons → v ∈ con_wrt con → v ∈ var_name <$> vars.
Proof.
  apply (constraints_refer_to_added_variables demo_state.1 demo_state.2 [] []
           demo_state_registry_ok).
  intros l Hl. change (fuelcases demo_state.1) with [1] in Hl.
  apply list_elem_of_singleton in Hl as ->.
  exists demo_climb. split; [reflexivity|].
  eexists "climb", 0.9%Q, 0.1%Q, _. split; [reflexivity|].
  intros c ->%list_elem_of_singleton. by split_and!.
Defined.

(** [prob] with [climb] appended twice to [fuelcases]: its variable is added
    twice. *)
Lemma addVariablesPyOpt_adds_again_witness :
  let st := after (addFuelCases (AList [1; 1])
                     (after (addComponents (AList [0]) demo_fresh))) in
  let v := mk_Var "prob_climb_fuelFraction" "c" 0.9%Q (Some 0%Q) (Some 1%Q) 1%Q in
  ∃ pre mid post,
    addVariablesPyOpt st [] = Done (pre ++ v :: mid ++ v :: post)%list.
Proof.
  intros st v.
  apply (addVariablesPyOpt_adds_again st.1 st.2 [] [0] [] [] 1 1
           (fuelCaseDV_info <$> DVs demo_climb) (fuelCaseDV_info <$> DVs demo_climb)
           "climb_fuelFraction"
           (mk_DVInfo 0.9%Q (Some 0%Q) (Some 1%Q) 1%Q true)
           (mk_DVInfo 0.9%Q (Some 0%Q) (Some 1%Q) 1%Q true)); try reflexivity.
  intros l [[k Hk]|Hl].
  - change (components st.1) with ({["wing" := 0]} : gmap string loc) in Hk.
    apply lookup_singleton_Some in Hk as [_ <-]. by eexists.
  - change (fuelcases st.1) with [1; 1] in Hl.
    apply elem_of_cons in Hl as [->|Hl]; [by eexists|].
    apply list_elem_of_singleton in Hl as ->. by eexists.
Defined.

(** [climb.addDV('fuelFraction', offset=0.1)] on a new case with the
    fraction 0.9, then [climb.setDesignVars({'climb_fuelFraction': 0.9})]:
    the fraction is 1. *)
Lemma addDV_then_setDesignVars_adds_offset_witness :
  ∃ fc1 fc2 : FuelCase Q,
    addDV (FuelCase_init "climb" 0.9%Q 0.1%Q) "fuelFraction" None (Some 0%Q)
      (Some 1%Q) 1%Q None 0.1%Q None true = Done fc1
    ∧ FuelCase_setDesignVars fc1 {["climb_fuelFraction" := 0.9%Q]} = Done fc2
    ∧ getattr fc2 "fuelFraction" = Some 1%Q.
Proof.
  destruct (addDV_then_setDesignVars_adds_offset (FuelCase_init "climb" 0.9%Q 0.1%Q)
              {["climb_fuelFraction" := 0.9%Q]} "fuelFraction" (Some 0%Q) (Some 1%Q)
              1%Q None 0.1%Q None true 0.9%Q)
    as (fc1 & fc2 & dv1 & dv2 & Hadd & _ & _ & _ & _ & Hrun & _ & _ & _ & Hattr).
  - intros k n Hkn. simpl in Hkn. by rewrite lookup_empty in Hkn.
  - apply elem_of_possibleDVs. by left.
  - reflexivity.
  - reflexivity.
  - exists fc1, fc2. split_and!; [exact Hadd | exact Hrun | exact Hattr].
Defined.

(** [prob.getVarNames()] returns. *)
Lemma getVarNames_lists_registered_DVs_witness :
  ∃ names, getVarNames demo_state = Some names
    ∧ ∀ n, n ∈ names →
        ∃ l dvs d, registered demo_state.1 l ∧ entity_DVs (demo_state.2 l) = Some dvs
                   ∧ is_Some (dvs !! d) ∧ n = variable_name "prob" d.
Proof.
  destruct (getVarNames_lists_registered_DVs demo_state.1 demo_state.2)
    as [Hreturns Hnames].
  destruct (proj2 Hreturns demo_state_registry_ok) as [names Hrun].
  exists names. split; [exact Hrun|].
  intros n Hn. by apply (Hnames names Hrun n).
Defined.

(** The box of the message of addComponents, printed to an empty standard
    output: two lines, the first of 79 characters, and an empty line after
    the lower border. *)
Lemma Error_init_draws_box_witness :
  ∃ first rest,
    Error_init addComponents_message ""
    = newline
      +:+ unlines (box_border :: box_line 0 "| WeightProblem Error: " first
                   :: (box_line 1 "| " <$> rest) ++ [box_border])
      +:+ newline
    ∧ String.length (box_line 0 "| WeightProblem Error: " first) = 79%nat.
Proof.
  destruct (Error_init_draws_box addComponents_message "")
    as (first & rest & _ & _ & _ & Hbox & _ & Hwidth).
  exists first, rest. split; [exact Hbox|].
  apply Hwidth. by apply (bool_decide_unpack _).
Defined.
